(** * The turn-based RPG battle simulator, embedded in Rocq

    A shallow embedding of the battle simulator (package [main] with
    [Character], [Battle], [Battle.Turn], [Battle.Run]) and the proofs of
    the properties its specification states.

    Modelling conventions.
    - Go's [int] is the 64-bit two's complement integer: every [+], [-],
      [++] and [--] of the source is followed by [GoInt.wrap]; [/] is
      truncated division ([Z.quot]).
    - Go's [float64] is IEEE 754 binary64, taken from the Standard Library's
      executable specification [SpecFloat] (precision 53, emax 1024).
    - A [*Character] is an index into a heap of characters, so that the two
      rosters, the sorted turn order and the target lists alias the same
      mutable characters, as the slices of pointers do in the source.
    - A run-time panic (nil dereference, index out of range, [rand.Intn]
      with a non-positive bound) is the result [Panic].
    - [math/rand] is an oracle: the sequence of raw draws is a parameter.
    - [sort.Slice] is a parameter together with its documented contract;
      the library's routine itself is modelled for short slices ([GoSort]).
    - [time.Sleep] has no effect on the state and is left out. *)

From Stdlib Require Import ZArith List Lia Permutation Sorted.
From Stdlib Require Import Floats.SpecFloat.
From stdpp Require Import base list sorting strings pretty.

Open Scope Z_scope.

(* ================================================================== *)
(** * Part I: the program *)
(* ================================================================== *)

(** ** Machine integers *)

Module GoInt.
Definition min_int : Z := -9223372036854775808.
Definition max_int : Z := 9223372036854775807.

(** Two's complement wrap-around of an exact result to 64 bits. *)
Definition wrap (z : Z) : Z :=
  (z + 9223372036854775808) mod 18446744073709551616 - 9223372036854775808.

Definition add (x y : Z) : Z := wrap (x + y).
Definition sub (x y : Z) : Z := wrap (x - y).
(** [x / 2]: truncation toward zero, never out of range. *)
Definition half (x : Z) : Z := Z.quot x 2.

Definition in_range (z : Z) : Prop := min_int <= z <= max_int.
End GoInt.

(** ** Floating point *)

Module GoFloat.
Definition float64 : Type := spec_float.
Definition prec : Z := 53.
Definition emax : Z := 1024.

(** [float64(n)] for an integer [n]: round to nearest even. *)
Definition of_int (n : Z) : float64 := binary_normalize prec emax n 0 false.
Definition mul (x y : float64) : float64 := SFmul prec emax x y.
Definition ltb (x y : float64) : bool := SFltb x y.

(** [int(f)]: the fraction is discarded (truncation toward zero).  Go leaves
    the result implementation-defined when the value does not fit; the
    amd64 instruction yields the minimal integer, which is what is
    modelled here (also for infinities and NaN). *)
Definition to_int (f : float64) : Z :=
  match f with
  | S754_zero _ => 0
  | S754_finite s m e =>
      let mag := if 0 <=? e then Z.pos m * 2 ^ e
                 else Z.quot (Z.pos m) (2 ^ (- e)) in
      let v := if s then - mag else mag in
      if (GoInt.min_int <=? v) && (v <=? GoInt.max_int) then v
      else GoInt.min_int
  | _ => GoInt.min_int
  end.

Definition zero : float64 := S754_zero false.
(** The literal [0.5]. *)
Definition half : float64 := binary_normalize prec emax 1 (-1) false.
(** [k / 2^53]: the values in [0,1) that a draw of [rand.Float64] takes. *)
Definition unit_fraction (k : Z) : float64 :=
  binary_normalize prec emax (k mod 2 ^ 53) (-53) false.
End GoFloat.

(** ** Damage types *)

Definition DamageType : Type := string.
Definition Physical : DamageType := "physical".
Definition Magic : DamageType := "magic".
Definition Pure : DamageType := "pure".

(** ** Records *)

Module Stats.
Record t : Type := mk {
  HPMax : Z; HP : Z; MPMax : Z; MP : Z;
  Attack : Z; Defense : Z; Magic : Z; Resist : Z; Speed : Z;
  CritRate : GoFloat.float64; CritMult : GoFloat.float64 }.

Definition Clone (s : t) : t :=
  mk (HPMax s) (HP s) (MPMax s) (MP s) (Attack s) (Defense s) (Magic s)
     (Resist s) (Speed s) (CritRate s) (CritMult s).

Definition with_HPMax (v : Z) (s : t) : t :=
  mk v (HP s) (MPMax s) (MP s) (Attack s) (Defense s) (Magic s)
     (Resist s) (Speed s) (CritRate s) (CritMult s).
Definition with_HP (v : Z) (s : t) : t :=
  mk (HPMax s) v (MPMax s) (MP s) (Attack s) (Defense s) (Magic s)
     (Resist s) (Speed s) (CritRate s) (CritMult s).
Definition with_MP (v : Z) (s : t) : t :=
  mk (HPMax s) (HP s) (MPMax s) v (Attack s) (Defense s) (Magic s)
     (Resist s) (Speed s) (CritRate s) (CritMult s).
End Stats.

Module Weapon.
Record t : Type := mk {
  Name : string; DamageMin : Z; DamageMax : Z; DamageType : DamageType;
  AttackBonus : Z; MagicBonus : Z }.
End Weapon.

Module Armor.
Record t : Type := mk {
  Name : string; DefenseBonus : Z; ResistBonus : Z; HPBonus : Z }.
End Armor.

Module Item.
Record t : Type := mk {
  ID : string; Name : string; Description : string; Consumable : bool;
  HealHP : Z; HealMP : Z; EquipSlot : string;
  Weapon : option Weapon.t; Armor : option Armor.t }.
End Item.

Module Effect.
Record t : Type := mk {
  ID : string; Name : string; Duration : Z;
  AtkMod : Z; DefMod : Z; SpeedMod : Z; DotHP : Z; From : string }.

Definition Tick (e : t) : t :=
  mk (ID e) (Name e) (GoInt.sub (Duration e) 1)
     (AtkMod e) (DefMod e) (SpeedMod e) (DotHP e) (From e).
End Effect.

Module Skill.
Record t : Type := mk {
  ID : string; Name : string; Description : string; MPCost : Z;
  DamageMultiplier : GoFloat.float64; DamageType : DamageType;
  HealHP : Z; TargetAll : bool; Effect : option Effect.t }.
End Skill.

Module Inventory.
Record t : Type := mk { Items : list Item.t }.

Definition Add (inv : t) (item : Item.t) : t := mk (Items inv ++ [item]).

Definition RemoveAt (inv : t) (i : Z) : t :=
  if (i <? 0) || (Z.of_nat (length (Items inv)) <=? i) then inv
  else mk (take (Z.to_nat i) (Items inv) ++ drop (S (Z.to_nat i)) (Items inv)).
End Inventory.

(** ** Characters *)

Module Character.
Record t : Type := mk {
  ID : string; Name : string; Stats : Stats.t;
  Weapon : option Weapon.t; Armor : option Armor.t;
  Inv : Inventory.t; Skills : list Skill.t; Effects : list Effect.t;
  Alive : bool; Team : string }.

Definition with_Stats (s : Stats.t) (c : t) : t :=
  mk (ID c) (Name c) s (Weapon c) (Armor c) (Inv c) (Skills c) (Effects c)
     (Alive c) (Team c).
Definition with_Weapon (w : option Weapon.t) (c : t) : t :=
  mk (ID c) (Name c) (Stats c) w (Armor c) (Inv c) (Skills c) (Effects c)
     (Alive c) (Team c).
Definition with_Armor (a : option Armor.t) (c : t) : t :=
  mk (ID c) (Name c) (Stats c) (Weapon c) a (Inv c) (Skills c) (Effects c)
     (Alive c) (Team c).
Definition with_Effects (l : list Effect.t) (c : t) : t :=
  mk (ID c) (Name c) (Stats c) (Weapon c) (Armor c) (Inv c) (Skills c) l
     (Alive c) (Team c).
Definition with_Alive (b : bool) (c : t) : t :=
  mk (ID c) (Name c) (Stats c) (Weapon c) (Armor c) (Inv c) (Skills c)
     (Effects c) b (Team c).

Definition HP (c : t) : Z := Stats.HP (Stats c).
Definition HPMax (c : t) : Z := Stats.HPMax (Stats c).
Definition MP (c : t) : Z := Stats.MP (Stats c).
Definition with_HP (v : Z) (c : t) : t := with_Stats (Stats.with_HP v (Stats c)) c.
Definition with_HPMax (v : Z) (c : t) : t :=
  with_Stats (Stats.with_HPMax v (Stats c)) c.
Definition with_MP (v : Z) (c : t) : t := with_Stats (Stats.with_MP v (Stats c)) c.

Definition NewCharacter (id name team : string) (baseStats : Stats.t) : t :=
  let s := Stats.Clone baseStats in
  let s := Stats.with_HP (Stats.HPMax s) s in
  let s := Stats.with_MP (Stats.MPMax s) s in
  mk id name s None None (Inventory.mk []) [] [] true team.

(** [for _, e := range c.Effects { acc += e.f }] *)
Definition sum_mods (f : Effect.t -> Z) (acc : Z) (effs : list Effect.t) : Z :=
  fold_left (fun a e => GoInt.add a (f e)) effs acc.

Definition EffectiveAttack (c : t) : Z :=
  let atk := Stats.Attack (Stats c) in
  let atk := match Weapon c with
             | Some w => GoInt.add atk (Weapon.AttackBonus w)
             | None => atk
             end in
  sum_mods Effect.AtkMod atk (Effects c).

Definition EffectiveDefense (c : t) : Z :=
  let def := Stats.Defense (Stats c) in
  let def := match Armor c with
             | Some a => GoInt.add def (Armor.DefenseBonus a)
             | None => def
             end in
  sum_mods Effect.DefMod def (Effects c).

Definition EffectiveSpeed (c : t) : Z :=
  sum_mods Effect.SpeedMod (Stats.Speed (Stats c)) (Effects c).

(** The methods that log return the lines they pass to [logFunc], in
    order, next to the updated receiver. *)

Definition TakeDamage (c : t) (amount : Z) (dtype : DamageType)
  : t * list string :=
  let actual :=
    if String.eqb dtype Physical then
      GoInt.sub amount (GoInt.half (EffectiveDefense c))
    else if String.eqb dtype Magic then
      GoInt.sub amount (GoInt.half (Stats.Resist (Stats c)))
    else amount in
  let actual := if actual <? 1 then 1 else actual in
  let hp := GoInt.sub (HP c) actual in
  if hp <=? 0 then (with_Alive false (with_HP 0 c), [Name c +:+ " died!"])
  else (with_HP hp c, []).

Definition Heal (c : t) (amount : Z) : t :=
  let hp := GoInt.add (HP c) amount in
  if HPMax c <? hp then with_HP (HPMax c) c else with_HP hp c.

Definition UseMP (c : t) (amount : Z) : t * bool :=
  if MP c <? amount then (c, false)
  else (with_MP (GoInt.sub (MP c) amount) c, true).

Definition AddEffect (c : t) (e : Effect.t) : t * list string :=
  (with_Effects (Effects c ++ [e]) c,
   [Name c +:+ " gains effect: " +:+ Effect.Name e +:+ " (dur="
      +:+ pretty (Effect.Duration e) +:+ ")"]).

Definition total_dot (effs : list Effect.t) : Z :=
  fold_left (fun tot e => if Effect.DotHP e =? 0 then tot
                          else GoInt.add tot (Effect.DotHP e)) effs 0.

Definition ApplyEffectsStartTurn (c : t) : t * list string :=
  let totalDot := total_dot (Effects c) in
  if totalDot =? 0 then (c, [])
  else
    let '(c', msgs) := TakeDamage c totalDot Pure in
    (c', msgs ++ [Name c' +:+ " takes " +:+ pretty totalDot +:+ " DOT damage"]).

(** The loop of [ApplyEffectsEndTurn]: the effects kept, and the lines
    logged for the ones that ended. *)
Fixpoint end_turn_loop (name : string) (effs : list Effect.t)
  : list Effect.t * list string :=
  match effs with
  | [] => ([], [])
  | e :: rest =>
      let e' := Effect.Tick e in
      let '(kept, msgs) := end_turn_loop name rest in
      if 0 <? Effect.Duration e' then (e' :: kept, msgs)
      else (kept, ("Effect " +:+ Effect.Name e' +:+ " on " +:+ name +:+ " ended")
                    :: msgs)
  end.

Definition ApplyEffectsEndTurn (c : t) : t * list string :=
  let '(newEffects, msgs) := end_turn_loop (Name c) (Effects c) in
  (with_Effects newEffects c, msgs).

Definition EquipWeapon (c : t) (w : Weapon.t) : t * list string :=
  (with_Weapon (Some w) c, [Name c +:+ " equips weapon: " +:+ Weapon.Name w]).

Definition UnequipWeapon (c : t) : t := with_Weapon None c.

Definition EquipArmor (c : t) (a : Armor.t) : t * list string :=
  let c := with_Armor (Some a) c in
  let c := if Armor.HPBonus a =? 0 then c
           else
             let c := with_HPMax (GoInt.add (HPMax c) (Armor.HPBonus a)) c in
             with_HP (GoInt.add (HP c) (Armor.HPBonus a)) c in
  (c, [Name c +:+ " equips armor: " +:+ Armor.Name a]).

Definition UnequipArmor (c : t) : t :=
  let c := match Armor c with
           | Some a =>
               if Armor.HPBonus a =? 0 then c
               else
                 let c := with_HPMax (GoInt.sub (HPMax c) (Armor.HPBonus a)) c in
                 if HPMax c <? HP c then with_HP (HPMax c) c else c
           | None => c
           end in
  with_Armor None c.
End Character.

(** ** The heap, the log and the random source *)

(** A [*Character]: the index of the character in the heap.  A pointer that
    can be [nil] is an [option ptr]. *)
Abbreviation ptr := nat (only parsing).

Record World : Type := mkWorld {
  heap : list Character.t;      (* the characters the pointers refer to *)
  rand_pos : nat;               (* how many random draws were consumed *)
  out : list string }.          (* the lines passed to [logFunc], oldest first *)

Inductive result (A : Type) : Type :=
| Ok (a : A) (w : World)        (* normal return *)
| Panic                         (* run-time panic *)
| OutOfFuel.                      (* the fuel of the main loop ran out *)
Arguments Ok {A} a w.
Arguments Panic {A}.
Arguments OutOfFuel {A}.

Definition M (A : Type) : Type := World -> result A.

#[global] Instance M_ret : MRet M := fun A a w => Ok a w.
#[global] Instance M_bind : MBind M := fun A B k m w =>
  match m w with
  | Ok a w' => k a w'
  | Panic => Panic
  | OutOfFuel => OutOfFuel
  end.

Definition panic {A : Type} : M A := fun _ => Panic.
Definition out_of_fuel {A : Type} : M A := fun _ => OutOfFuel.

Definition deref (p : ptr) : M Character.t := fun w =>
  match heap w !! p with
  | Some c => Ok c w
  | None => Panic
  end.

Definition store (p : ptr) (c : Character.t) : M unit := fun w =>
  Ok tt (mkWorld (<[p := c]> (heap w)) (rand_pos w) (out w)).

Definition logFunc (msg : string) : M unit := fun w =>
  Ok tt (mkWorld (heap w) (rand_pos w) (out w ++ [msg])).

Definition logAll (msgs : list string) : M unit := fun w =>
  Ok tt (mkWorld (heap w) (rand_pos w) (out w ++ msgs)).

(** A method with a pointer receiver that only touches its receiver and
    returns a value. *)
Definition invoke {B : Type} (p : ptr) (f : Character.t -> Character.t * B) : M B :=
  c ← deref p;
  let '(c', b) := f c in
  store p c';; mret b.

(** The same for a method that logs: its lines go to the log. *)
Definition call (p : ptr) (f : Character.t -> Character.t * list string) : M unit :=
  msgs ← invoke p f; logAll msgs.

Definition snapshot : M (list Character.t) := fun w => Ok (heap w) w.

(** The concrete sorting routine used to run the model: the insertion sort
    that [sort.Slice] executes on short slices, which moves an element left
    only past elements it is strictly less than. *)
Module Sorters.
Section Insertion.
Context {A : Type}.
Variable goes_before : A -> A -> bool.

(** [rp] is the sorted prefix, last element first. *)
Fixpoint sink (x : A) (rp : list A) : list A :=
  match rp with
  | [] => [x]
  | y :: rp' => if goes_before x y then y :: sink x rp' else x :: rp
  end.

Definition insertion (l : list A) : list A :=
  rev (fold_left (fun rp x => sink x rp) l []).
End Insertion.

Definition insertionSort {A : Type} (less : A -> A -> bool) (l : list A) : list A :=
  insertion less l.
End Sorters.

Module Battle.
Record t : Type := mk {
  Players : list ptr; Enemies : list ptr; Round : Z }.

Definition NewBattle (players enemies : list ptr) : t := mk players enemies 0.
Definition with_Round (r : Z) (b : t) : t := mk (Players b) (Enemies b) r.
End Battle.

Section Engine.
(** The raw values of the random source, in the order they are drawn. *)
Variable draws : nat -> Z.
(** [sort.Slice] on a slice of character pointers. *)
Variable sort_Slice : (ptr -> ptr -> bool) -> list ptr -> list ptr.

(** [rand.Intn(n)]: panics unless [0 < n], else a value in [[0,n)]. *)
Definition rand_Intn (n : Z) : M Z := fun w =>
  if n <=? 0 then Panic
  else Ok (draws (rand_pos w) mod n) (mkWorld (heap w) (S (rand_pos w)) (out w)).

(** [rand.Float64()]: a value in [[0,1)]. *)
Definition rand_Float64 : M GoFloat.float64 := fun w =>
  Ok (GoFloat.unit_fraction (draws (rand_pos w)))
     (mkWorld (heap w) (S (rand_pos w)) (out w)).

(** The critical-hit roll shared by [BasicAttack] and [UseSkillAt]. *)
Definition crit_roll (me : Character.t) (amount : Z) (line : string) : M Z :=
  f ← rand_Float64;
  if GoFloat.ltb f (Stats.CritRate (Character.Stats me)) then
    logFunc line;;
    mret (GoFloat.to_int (GoFloat.mul (GoFloat.of_int amount)
                            (Stats.CritMult (Character.Stats me))))
  else mret amount.

Definition BasicAttack (c target : ptr) : M unit :=
  me ← deref c;
  if negb (Character.Alive me) then mret tt
  else
    let '(min_, max_, dtype) :=
      match Character.Weapon me with
      | Some w => (Weapon.DamageMin w, Weapon.DamageMax w, Weapon.DamageType w)
      | None => (1, 2, Physical)
      end in
    r ← rand_Intn (GoInt.add (GoInt.sub max_ min_) 1);
    let base := GoInt.add (GoInt.add r min_) (Character.EffectiveAttack me) in
    base ← crit_roll me base ("Critical hit! (" +:+ Character.Name me +:+ ")");
    t ← deref target;
    logFunc (Character.Name me +:+ " attacks " +:+ Character.Name t +:+ " for "
               +:+ pretty base +:+ " damage (" +:+ dtype +:+ ")");;
    call target (fun t => Character.TakeDamage t base dtype).

Definition add_skill_effect (s : Skill.t) (t : ptr) : M unit :=
  match Skill.Effect s with
  | Some e => call t (fun tc => Character.AddEffect tc e)
  | None => mret tt
  end.

(** The damage loop of [UseSkillAt]. *)
Fixpoint damage_loop (c : ptr) (s : Skill.t) (targets : list (option ptr)) : M unit :=
  match targets with
  | [] => mret tt
  | None :: _ => panic                       (* [t.Alive] on a nil pointer *)
  | Some t :: rest =>
      tc ← deref t;
      if negb (Character.Alive tc) then damage_loop c s rest
      else
        me ← deref c;
        let power :=
          GoFloat.to_int (GoFloat.mul (GoFloat.of_int (Character.EffectiveAttack me))
                            (Skill.DamageMultiplier s)) in
        let power :=
          if String.eqb (Skill.DamageType s) Magic then
            GoFloat.to_int (GoFloat.mul (GoFloat.of_int (Stats.Magic (Character.Stats me)))
                              (Skill.DamageMultiplier s))
          else power in
        j ← rand_Intn 3;
        let power := GoInt.add power (GoInt.sub j 1) in
        power ← crit_roll me power ("Skill crit! (" +:+ Character.Name me +:+ ")");
        logFunc (Character.Name me +:+ " deals " +:+ pretty power +:+ " damage to "
                   +:+ Character.Name tc +:+ " with " +:+ Skill.Name s);;
        call t (fun tc => Character.TakeDamage tc power (Skill.DamageType s));;
        add_skill_effect s t;;
        damage_loop c s rest
  end.

(** The heal loop of [UseSkillAt]. *)
Fixpoint heal_loop (c : ptr) (s : Skill.t) (targets : list (option ptr)) : M unit :=
  match targets with
  | [] => mret tt
  | None :: _ => panic
  | Some t :: rest =>
      tc ← deref t;
      if negb (Character.Alive tc) then heal_loop c s rest
      else
        call t (fun tc => (Character.Heal tc (Skill.HealHP s), []));;
        me ← deref c;
        logFunc (Character.Name me +:+ " heals " +:+ Character.Name tc +:+ " for "
                   +:+ pretty (Skill.HealHP s) +:+ " HP");;
        add_skill_effect s t;;
        heal_loop c s rest
  end.

Definition UseSkillAt (c : ptr) (idx : Z) (targets : list (option ptr)) : M unit :=
  me ← deref c;
  if (idx <? 0) || (Z.of_nat (length (Character.Skills me)) <=? idx) then
    logFunc (Character.Name me +:+ " tried to use invalid skill")
  else
    match Character.Skills me !! Z.to_nat idx with
    | None => panic
    | Some s =>
        ok ← invoke c (fun me => Character.UseMP me (Skill.MPCost s));
        if negb ok then
          logFunc (Character.Name me +:+ " lacks MP for " +:+ Skill.Name s)
        else
          logFunc (Character.Name me +:+ " uses skill " +:+ Skill.Name s);;
          (if GoFloat.ltb GoFloat.zero (Skill.DamageMultiplier s)
           then damage_loop c s targets else mret tt);;
          (if 0 <? Skill.HealHP s then heal_loop c s targets else mret tt)
    end.

Fixpoint chooseFirstAlive (l : list ptr) : M (option ptr) :=
  match l with
  | [] => mret None
  | p :: rest =>
      c ← deref p;
      if Character.Alive c then mret (Some p) else chooseFirstAlive rest
  end.

(** [Battle.AllDead]: any team other than ["player"] selects the enemies. *)
Fixpoint all_dead_loop (chars : list ptr) : M bool :=
  match chars with
  | [] => mret true
  | p :: rest =>
      c ← deref p;
      if Character.Alive c then mret false else all_dead_loop rest
  end.

Definition AllDead (b : Battle.t) (team : string) : M bool :=
  all_dead_loop (if String.eqb team "player" then Battle.Players b
                 else Battle.Enemies b).

(** [b.AllDead("player") || b.AllDead("enemy")], evaluated left to right. *)
Definition battle_over (b : Battle.t) : M bool :=
  pd ← AllDead b "player";
  if (pd : bool) then mret true else AllDead b "enemy".

(** The target list a skill is cast on (the lines of [Turn] between the MP
    test and the call of [UseSkillAt]). *)
Definition skill_targets (actor : ptr) (a : Character.t) (s : Skill.t)
    (first : option ptr) (targets : list ptr) : list (option ptr) :=
  let targ := [first] in
  let targ :=
    if (0 <? Skill.HealHP s)
       || ((Character.HP a <? GoInt.half (Character.HPMax a))
           && negb (String.eqb (Character.Team a) "player"))
    then [Some actor] else targ in
  if Skill.TargetAll s then map Some targets else targ.

(** The skill branch of [Turn]; returns [usedAction]. *)
Definition try_skill (actor : ptr) (targets : list ptr) : M bool :=
  a ← deref actor;
  if negb (0 <? Z.of_nat (length (Character.Skills a))) then mret false
  else
    f ← rand_Float64;
    if negb (GoFloat.ltb f GoFloat.half) then mret false
    else
      skillIdx ← rand_Intn (Z.of_nat (length (Character.Skills a)));
      match Character.Skills a !! Z.to_nat skillIdx with
      | None => panic
      | Some s =>
          if Character.MP a <? Skill.MPCost s then mret false
          else
            first ← chooseFirstAlive targets;
            UseSkillAt actor skillIdx (skill_targets actor a s first targets);;
            mret true
      end.

(** One actor's turn: the body of the loop of [Turn] for a living actor.
    Returns whether the round stops here. *)
Definition actor_turn (b : Battle.t) (actor : ptr) : M bool :=
  a ← deref actor;
  logFunc (Character.Name a +:+ " is thinking...");;
  call actor Character.ApplyEffectsStartTurn;;
  let targets := if String.eqb (Character.Team a) "player"
                 then Battle.Enemies b else Battle.Players b in
  usedAction ← try_skill actor targets;
  (if (usedAction : bool) then mret tt
   else
     target ← chooseFirstAlive targets;
     match target with
     | Some t => BasicAttack actor t
     | None => mret tt
     end);;
  call actor Character.ApplyEffectsEndTurn;;
  battle_over b.

Fixpoint turn_loop (b : Battle.t) (all : list ptr) : M unit :=
  match all with
  | [] => mret tt
  | actor :: rest =>
      a ← deref actor;
      if negb (Character.Alive a) then turn_loop b rest
      else
        stop ← actor_turn b actor;
        if (stop : bool) then mret tt else turn_loop b rest
  end.

(** The comparison closure given to [sort.Slice]. *)
Definition speed_of (h : list Character.t) (p : ptr) : Z :=
  match h !! p with
  | Some c => Character.EffectiveSpeed c
  | None => 0
  end.

Definition faster (h : list Character.t) (p q : ptr) : bool :=
  speed_of h q <? speed_of h p.

(** The order in which the combatants are visited this round.  The
    closure dereferences every element of a slice of two or more, and the
    loop dereferences the only element of a slice of one: a dangling
    pointer anywhere in the rosters panics. *)
Definition turn_order (b : Battle.t) : M (list ptr) :=
  let all := Battle.Players b ++ Battle.Enemies b in
  h ← snapshot;
  if forallb (fun p => bool_decide (is_Some (h !! p))) all
  then mret (sort_Slice (faster h) all)
  else panic.

Definition Turn (b : Battle.t) : M Battle.t :=
  let b := Battle.with_Round (GoInt.add (Battle.Round b) 1) b in
  logFunc ("=== Round " +:+ pretty (Battle.Round b) +:+ " ===");;
  all ← turn_order b;
  turn_loop b all;;
  mret b.

(** The loop of [Run], bounded by [fuel] rounds. *)
Fixpoint run_loop (fuel : nat) (b : Battle.t) : M Battle.t :=
  over ← battle_over b;
  if (over : bool) then mret b
  else
    match fuel with
    | O => out_of_fuel
    | S fuel' => b' ← Turn b; run_loop fuel' b'
    end.

Definition Run (fuel : nat) (b : Battle.t) : M Battle.t :=
  b' ← run_loop fuel b;
  enemiesDead ← AllDead b' "enemy";
  (if (enemiesDead : bool) then logFunc "Players win!" else logFunc "Enemies win!");;
  mret b'.
End Engine.

(** ** The battle the program sets up *)

(** A decimal literal [n/d] of type float64: the constant is exact, and is
    rounded to the nearest float64 where it is used. *)
Definition float_lit (n d : Z) : GoFloat.float64 :=
  SFdiv GoFloat.prec GoFloat.emax (GoFloat.of_int n) (GoFloat.of_int d).

(** [&Character{...}]: a new cell of the heap. *)
Definition alloc (c : Character.t) : M ptr := fun w =>
  Ok (length (heap w)) (mkWorld (heap w ++ [c]) (rand_pos w) (out w)).

(** A method called with the log function [func(string) {}]: its lines
    are dropped. *)
Definition quietly (p : ptr) (f : Character.t -> Character.t * list string) : M unit :=
  invoke p (fun c => (fst (f c), tt)).

Definition with_Skills (l : list Skill.t) (c : Character.t) : Character.t :=
  Character.mk (Character.ID c) (Character.Name c) (Character.Stats c)
               (Character.Weapon c) (Character.Armor c) (Character.Inv c) l
               (Character.Effects c) (Character.Alive c) (Character.Team c).

(** [c.Skills = append(c.Skills, s)] *)
Definition learn (p : ptr) (s : Skill.t) : M unit :=
  invoke p (fun c => (with_Skills (Character.Skills c ++ [s]) c, tt)).

(** [setupBattle].  Fields that a composite literal leaves out have their
    zero value.  [rand.Seed] selects the sequence of draws, which is a
    parameter of the model. *)
Definition setupBattle : M Battle.t :=
  let heroStats :=
    Stats.mk 60 0 30 0 6 3 4 2 7 (float_lit 12 100) (float_lit 17 10) in
  hero ← alloc (Character.NewCharacter "p1" "Герой" "player" heroStats);
  let skillFire :=
    Skill.mk "s1" "Огненный шар" "Наносит магический урон" 6 (float_lit 22 10)
             Magic 0 false None in
  learn hero skillFire;;
  quietly hero (fun c => Character.EquipWeapon c
                           (Weapon.mk "Меч новичка" 3 6 Physical 1 0));;
  quietly hero (fun c => Character.EquipArmor c (Armor.mk "Кожаная броня" 1 0 5));;
  let clericStats :=
    Stats.mk 45 0 50 0 3 2 6 3 5 (float_lit 5 100) (float_lit 15 10) in
  cleric ← alloc (Character.NewCharacter "p2" "Жрец" "player" clericStats);
  let healSkill :=
    Skill.mk "he1" "Исцеление" "" 8 GoFloat.zero Magic 18 false None in
  learn cleric healSkill;;
  quietly cleric (fun c => Character.EquipWeapon c (Weapon.mk "Посох" 1 3 Magic 0 1));;
  let goblinStats :=
    Stats.mk 20 0 5 0 4 1 1 0 6 (float_lit 6 100) (float_lit 15 10) in
  gob1 ← alloc (Character.NewCharacter "e1" "Гоблин-1" "enemy" goblinStats);
  quietly gob1 (fun c => Character.EquipWeapon c
                           (Weapon.mk "Короткий кинжал" 2 4 Physical 0 0));;
  gob2 ← alloc (Character.NewCharacter "e2" "Гоблин-2" "enemy" goblinStats);
  quietly gob2 (fun c => Character.EquipWeapon c
                           (Weapon.mk "Короткий кинжал" 2 4 Physical 0 0));;
  let orcStats :=
    Stats.mk 35 0 0 0 8 4 0 1 4 (float_lit 8 100) (float_lit 14 10) in
  orc ← alloc (Character.NewCharacter "e3" "Орк" "enemy" orcStats);
  quietly orc (fun c => Character.EquipWeapon c (Weapon.mk "Клевец" 5 8 Physical 0 0));;
  let players := [hero; cleric] in
  let enemies := [gob1; gob2; orc] in
  mret (Battle.NewBattle players enemies).

(** ** The library routine behind [sort.Slice] *)

(** [sort.Slice(x, less)] of package sort (Go 1.19 and later) calls
    [pdqsort_func(data, 0, length, bits.Len(length))].  The routine is
    modelled for the calls in which it is made of an insertion sort alone
    (at most 12 elements), or of one choice of a pivot, one partition and an
    insertion sort of each side (13 to 49 elements, both sides of at most 12
    elements; on 13 elements that is always so).  Where the library goes on
    (further partitions, pattern breaking, heap sort) the result is [None].
    A slice is a list, an index a position in it; [less] is the closure on
    the elements at two indices. *)
Module GoSort.
Section Sort.
Variable less : ptr -> ptr -> bool.

Definition Less (data : list ptr) (i j : nat) : bool :=
  less (data !!! i) (data !!! j).

Definition Swap (data : list ptr) (i j : nat) : list ptr :=
  <[i := data !!! j]> (<[j := data !!! i]> data).

Definition maxInsertion : nat := 12.

(** [insertionSort_func(data, a, b)] sorts [data[a:b]] by insertion and
    leaves the rest where it is. *)
Definition insertionSort_func (data : list ptr) (a b : nat) : list ptr :=
  take a data ++ Sorters.insertionSort less (take (b - a) (drop a data)) ++ drop b data.

(** [order2_func]: the two indices, the one of the lesser element first. *)
Definition order2_func (data : list ptr) (a b swaps : nat) : nat * nat * nat :=
  if Less data b a then (b, a, S swaps) else (a, b, swaps).

Definition median_func (data : list ptr) (a b c swaps : nat) : nat * nat :=
  let '(a, b, swaps) := order2_func data a b swaps in
  let '(b, c, swaps) := order2_func data b c swaps in
  let '(a, b, swaps) := order2_func data a b swaps in
  (b, swaps).

Inductive sortedHint : Type := unknownHint | increasingHint | decreasingHint.

(** [choosePivot_func] on fewer than 50 elements: the middle element, or
    from 8 elements on the median of three. *)
Definition choosePivot_func (data : list ptr) (a b : nat) : nat * sortedHint :=
  let l := (b - a)%nat in
  let i := (a + l / 4 * 1)%nat in
  let j := (a + l / 4 * 2)%nat in
  let k := (a + l / 4 * 3)%nat in
  let '(j, swaps) := if (8 <=? l)%nat then median_func data i j k 0 else (j, 0%nat) in
  match swaps with
  | 0%nat => (j, increasingHint)
  | 12%nat => (j, decreasingHint)
  | _ => (j, unknownHint)
  end.

Definition reverseRange_func (data : list ptr) (a b : nat) : list ptr :=
  take a data ++ rev (take (b - a) (drop a data)) ++ drop b data.

(** [partialInsertionSort_func] on fewer than 50 elements: whether
    [data[a:b]] is in order already; nothing is moved. *)
Definition partialInsertionSort_func (data : list ptr) (a b : nat) : bool :=
  forallb (fun i => negb (Less data i (i - 1))) (seq (a + 1) (b - (a + 1))).

(** [for i <= j && less(data[i], data[a]) { i++ }] *)
Fixpoint scan_up (data : list ptr) (a j : nat) (steps : nat) (i : nat) : nat :=
  match steps with
  | O => i
  | S steps' =>
      if (i <=? j)%nat && Less data i a then scan_up data a j steps' (S i) else i
  end.

(** [for i <= j && !less(data[j], data[a]) { j-- }] *)
Fixpoint scan_down (data : list ptr) (a i : nat) (j : nat) : nat :=
  match j with
  | O => O
  | S j' =>
      if (i <=? j)%nat && negb (Less data j a) then scan_down data a i j' else j
  end.

(** The loop of [partition_func]; returns the slice and the final [j]. *)
Fixpoint partition_loop (rounds : nat) (data : list ptr) (a i j : nat) : list ptr * nat :=
  match rounds with
  | O => (data, j)
  | S rounds' =>
      let i := scan_up data a j (S j - i) i in
      let j := scan_down data a i j in
      if (j <? i)%nat then (data, j)
      else partition_loop rounds' (Swap data i j) a (S i) (j - 1)
  end.

(** [partition_func(data, a, b, pivot)]: the slice, the new index of the
    pivot and [alreadyPartitioned]. *)
Definition partition_func (data : list ptr) (a b pivot : nat) : list ptr * nat * bool :=
  let data := Swap data a pivot in
  let i := scan_up data a (b - 1) (b - 1 - a) (a + 1) in
  let j := scan_down data a i (b - 1) in
  if (j <? i)%nat then (Swap data j a, j, true)
  else
    let '(data, j) := partition_loop (b - a) (Swap data i j) a (S i) (j - 1) in
    (Swap data j a, j, false).

(** The call [pdqsort_func(data, 0, b, limit)] of [sort.Slice]. *)
Definition pdqsort_func (data : list ptr) (b : nat) : option (list ptr) :=
  let a := 0%nat in
  if (b - a <=? maxInsertion)%nat then Some (insertionSort_func data a b)
  else if (50 <=? b - a)%nat then None
  else
    let '(pivot, hint) := choosePivot_func data a b in
    let '(data, pivot, hint) :=
      match hint with
      | decreasingHint =>
          (reverseRange_func data a b, (b - 1 - (pivot - a))%nat, increasingHint)
      | _ => (data, pivot, hint)
      end in
    if match hint with increasingHint => partialInsertionSort_func data a b | _ => false end
    then Some data
    else
      let '(data, mid, _) := partition_func data a b pivot in
      let leftLen := (mid - a)%nat in
      let rightLen := (b - mid)%nat in
      if (leftLen <=? maxInsertion)%nat && (b - (mid + 1) <=? maxInsertion)%nat then
        if (leftLen <? rightLen)%nat
        then Some (insertionSort_func (insertionSort_func data a mid) (mid + 1) b)
        else Some (insertionSort_func (insertionSort_func data (mid + 1) b) a mid)
      else None.

Definition Slice (data : list ptr) : option (list ptr) :=
  pdqsort_func data (length data).
End Sort.
End GoSort.

(** ** The battle, with the heap recorded after every step *)

(** The procedures that call a method on a character, directly or through
    one another, once more: the same code, in which every call of anything
    else (a dereference, a line of the log, a random draw, a method on a
    character, a helper that only reads) is a step, and the heap is recorded
    after each step.  The result carries the record, oldest heap first. *)
Module Traced.
Definition T (A : Type) : Type := M (A * list (list Character.t)).

Definition ret {A : Type} (a : A) : T A := fun w => Ok (a, []) w.

Definition bind {A B : Type} (m : T A) (k : A -> T B) : T B := fun w =>
  match m w with
  | Ok (a, t1) w1 =>
      match k a w1 with
      | Ok (b, t2) w2 => Ok (b, t1 ++ t2) w2
      | Panic => Panic
      | OutOfFuel => OutOfFuel
      end
  | Panic => Panic
  | OutOfFuel => OutOfFuel
  end.

(** One step: run [m], record the heap it leaves. *)
Definition step {A : Type} (m : M A) : T A := fun w =>
  match m w with
  | Ok a w' => Ok (a, [heap w']) w'
  | Panic => Panic
  | OutOfFuel => OutOfFuel
  end.

(** The computation without its record. *)
Definition forget {A : Type} (m : T A) : M A := fun w =>
  match m w with
  | Ok (a, _) w' => Ok a w'
  | Panic => Panic
  | OutOfFuel => OutOfFuel
  end.

Notation "x <~ m ; k" := (bind m (fun x => k))
  (at level 20, m at level 100, k at level 200, only parsing).

Section Engine.
Variable draws : nat -> Z.
Variable sort_Slice : (ptr -> ptr -> bool) -> list ptr -> list ptr.

Definition BasicAttack (c target : ptr) : T unit :=
  me <~ step (deref c);
  if negb (Character.Alive me) then ret tt
  else
    let '(min_, max_, dtype) :=
      match Character.Weapon me with
      | Some w => (Weapon.DamageMin w, Weapon.DamageMax w, Weapon.DamageType w)
      | None => (1, 2, Physical)
      end in
    r <~ step (rand_Intn draws (GoInt.add (GoInt.sub max_ min_) 1));
    let base := GoInt.add (GoInt.add r min_) (Character.EffectiveAttack me) in
    base <~ step (crit_roll draws me base ("Critical hit! (" +:+ Character.Name me +:+ ")"));
    t <~ step (deref target);
    _ <~ step (logFunc (Character.Name me +:+ " attacks " +:+ Character.Name t +:+ " for "
                          +:+ pretty base +:+ " damage (" +:+ dtype +:+ ")"));
    step (call target (fun t => Character.TakeDamage t base dtype)).

Definition add_skill_effect (s : Skill.t) (t : ptr) : T unit :=
  match Skill.Effect s with
  | Some e => step (call t (fun tc => Character.AddEffect tc e))
  | None => ret tt
  end.

Fixpoint damage_loop (c : ptr) (s : Skill.t) (targets : list (option ptr)) : T unit :=
  match targets with
  | [] => ret tt
  | None :: _ => step panic
  | Some t :: rest =>
      tc <~ step (deref t);
      if negb (Character.Alive tc) then damage_loop c s rest
      else
        me <~ step (deref c);
        let power :=
          GoFloat.to_int (GoFloat.mul (GoFloat.of_int (Character.EffectiveAttack me))
                            (Skill.DamageMultiplier s)) in
        let power :=
          if String.eqb (Skill.DamageType s) Magic then
            GoFloat.to_int (GoFloat.mul (GoFloat.of_int (Stats.Magic (Character.Stats me)))
                              (Skill.DamageMultiplier s))
          else power in
        j <~ step (rand_Intn draws 3);
        let power := GoInt.add power (GoInt.sub j 1) in
        power <~ step (crit_roll draws me power ("Skill crit! (" +:+ Character.Name me +:+ ")"));
        _ <~ step (logFunc (Character.Name me +:+ " deals " +:+ pretty power +:+ " damage to "
                              +:+ Character.Name tc +:+ " with " +:+ Skill.Name s));
        _ <~ step (call t (fun tc => Character.TakeDamage tc power (Skill.DamageType s)));
        _ <~ add_skill_effect s t;
        damage_loop c s rest
  end.

Fixpoint heal_loop (c : ptr) (s : Skill.t) (targets : list (option ptr)) : T unit :=
  match targets with
  | [] => ret tt
  | None :: _ => step panic
  | Some t :: rest =>
      tc <~ step (deref t);
      if negb (Character.Alive tc) then heal_loop c s rest
      else
        _ <~ step (call t (fun tc => (Character.Heal tc (Skill.HealHP s), [])));
        me <~ step (deref c);
        _ <~ step (logFunc (Character.Name me +:+ " heals " +:+ Character.Name tc +:+ " for "
                              +:+ pretty (Skill.HealHP s) +:+ " HP"));
        _ <~ add_skill_effect s t;
        heal_loop c s rest
  end.

Definition UseSkillAt (c : ptr) (idx : Z) (targets : list (option ptr)) : T unit :=
  me <~ step (deref c);
  if (idx <? 0) || (Z.of_nat (length (Character.Skills me)) <=? idx) then
    step (logFunc (Character.Name me +:+ " tried to use invalid skill"))
  else
    match Character.Skills me !! Z.to_nat idx with
    | None => step panic
    | Some s =>
        ok <~ step (invoke c (fun me => Character.UseMP me (Skill.MPCost s)));
        if negb ok then
          step (logFunc (Character.Name me +:+ " lacks MP for " +:+ Skill.Name s))
        else
          _ <~ step (logFunc (Character.Name me +:+ " uses skill " +:+ Skill.Name s));
          _ <~ (if GoFloat.ltb GoFloat.zero (Skill.DamageMultiplier s)
                then damage_loop c s targets else ret tt);
          (if 0 <? Skill.HealHP s then heal_loop c s targets else ret tt)
    end.

Definition try_skill (actor : ptr) (targets : list ptr) : T bool :=
  a <~ step (deref actor);
  if negb (0 <? Z.of_nat (length (Character.Skills a))) then ret false
  else
    f <~ step (rand_Float64 draws);
    if negb (GoFloat.ltb f GoFloat.half) then ret false
    else
      skillIdx <~ step (rand_Intn draws (Z.of_nat (length (Character.Skills a))));
      match Character.Skills a !! Z.to_nat skillIdx with
      | None => step panic
      | Some s =>
          if Character.MP a <? Skill.MPCost s then ret false
          else
            first <~ step (chooseFirstAlive targets);
            _ <~ UseSkillAt actor skillIdx (skill_targets actor a s first targets);
            ret true
      end.

Definition actor_turn (b : Battle.t) (actor : ptr) : T bool :=
  a <~ step (deref actor);
  _ <~ step (logFunc (Character.Name a +:+ " is thinking..."));
  _ <~ step (call actor Character.ApplyEffectsStartTurn);
  let targets := if String.eqb (Character.Team a) "player"
                 then Battle.Enemies b else Battle.Players b in
  usedAction <~ try_skill actor targets;
  _ <~ (if (usedAction : bool) then ret tt
        else
          target <~ step (chooseFirstAlive targets);
          match target with
          | Some t => BasicAttack actor t
          | None => ret tt
          end);
  _ <~ step (call actor Character.ApplyEffectsEndTurn);
  step (battle_over b).

Fixpoint turn_loop (b : Battle.t) (all : list ptr) : T unit :=
  match all with
  | [] => ret tt
  | actor :: rest =>
      a <~ step (deref actor);
      if negb (Character.Alive a) then turn_loop b rest
      else
        stop <~ actor_turn b actor;
        if (stop : bool) then ret tt else turn_loop b rest
  end.

Definition Turn (b : Battle.t) : T Battle.t :=
  let b := Battle.with_Round (GoInt.add (Battle.Round b) 1) b in
  _ <~ step (logFunc ("=== Round " +:+ pretty (Battle.Round b) +:+ " ==="));
  all <~ step (turn_order sort_Slice b);
  _ <~ turn_loop b all;
  ret b.

Fixpoint run_loop (fuel : nat) (b : Battle.t) : T Battle.t :=
  over <~ step (battle_over b);
  if (over : bool) then ret b
  else
    match fuel with
    | O => step out_of_fuel
    | S fuel' => b' <~ Turn b; run_loop fuel' b'
    end.

Definition Run (fuel : nat) (b : Battle.t) : T Battle.t :=
  b' <~ run_loop fuel b;
  enemiesDead <~ step (AllDead b' "enemy");
  _ <~ (if (enemiesDead : bool) then step (logFunc "Players win!")
        else step (logFunc "Enemies win!"));
  ret b'.
End Engine.
End Traced.

(* ================================================================== *)
(** * Part II: the statements of the specification, and scenarios *)
(* ================================================================== *)

Module Spec.
(** The mitigation rule in the words of the specification: physical
    [rawAmount - effectiveDefense/2], magic [rawAmount - resistance/2], pure
    [rawAmount], floored at 1.  [minus] is the subtraction: the one of the
    mathematical integers, or the one of the machine. *)
Definition mitigated_by (minus : Z -> Z -> Z)
    (target : Character.t) (rawAmount : Z) (dtype : DamageType) : Z :=
  Z.max 1
    (if String.eqb dtype Physical then
       minus rawAmount (Character.EffectiveDefense target ÷ 2)
     else if String.eqb dtype Magic then
       minus rawAmount (Stats.Resist (Character.Stats target) ÷ 2)
     else rawAmount).

Definition mitigated : Character.t -> Z -> DamageType -> Z := mitigated_by Z.sub.

(** One end-of-turn tick in the words of the specification: every duration
    goes down by one, and the effects whose duration reached 0 go. *)
Definition tick_effects (effs : list Effect.t) : list Effect.t :=
  filter (fun e => 0 < Effect.Duration e) (map Effect.Tick effs).

(** A roster is defeated when every combatant on it has [alive = false]. *)
Definition roster_defeated (h : list Character.t) (roster : list ptr) : Prop :=
  Forall (fun p => exists c, h !! p = Some c /\ Character.Alive c = false) roster.

(** A character that is dead in [h] is dead in [h']. *)
Definition dead_stay_dead (h h' : list Character.t) : Prop :=
  forall p c, h !! p = Some c -> Character.Alive c = false ->
              exists c', h' !! p = Some c' /\ Character.Alive c' = false.
End Spec.

(** [n] end-of-turn ticks on the holder [c]. *)
Definition end_turns (n : nat) (c : Character.t) : Character.t :=
  Nat.iter n (fun c => fst (Character.ApplyEffectsEndTurn c)) c.

(** ** The contract of the sorting routine *)

(** The contract of [sort.Slice] on a slice of character pointers.  The
    result is a rearrangement of the slice; for a closure that compares a
    key of the elements, no element is followed by one with a key the
    closure puts before it; and the routine sees the elements through the
    closure only.  Stability is not part of the contract: the library
    documents that equal elements may change their relative order. *)
Record sorts (sort : (ptr -> ptr -> bool) -> list ptr -> list ptr) : Prop := {
  sorts_perm : forall less l, Permutation l (sort less l);
  sorts_sorted : forall (key : ptr -> Z) l,
      StronglySorted (fun p q => key q <= key p) (sort (fun p q => key q <? key p) l);
  sorts_ext : forall f g l,
      (forall p q, p ∈ l -> q ∈ l -> f p q = g p q) -> sort f l = sort g l }.

(** ** Relations between the states of a battle *)

(** [related Q w w']: the two heaps have the same cells, related cell by
    cell by [Q]. *)
Definition related (Q : Character.t -> Character.t -> Prop) (w w' : World) : Prop :=
  Forall2 Q (heap w) (heap w').

(** Every normal return of [m] leaves a heap related to the one it started
    from. *)
Definition preserves (Q : Character.t -> Character.t -> Prop) {A : Type} (m : M A) : Prop :=
  forall w a w', m w = Ok a w' -> related Q w w'.

(** Death is final for one character. *)
Definition stays_dead (c c' : Character.t) : Prop :=
  Character.Alive c = false -> Character.Alive c' = false.

(** ** Battles without skills *)

(** What a character can still lose: nothing once dead, else its hit points
    and its life. *)
Definition vitality1 (c : Character.t) : Z :=
  if Character.Alive c then 1 + Character.HP c else 0.


(** A character without skills, with hit points in [0, max_int], whose
    weapon (if any) gives [rand.Intn] a positive bound. *)
Definition unskilled (c : Character.t) : Prop :=
  Character.Skills c = [] /\
  0 <= Character.HP c <= GoInt.max_int /\
  match Character.Weapon c with
  | Some wp => 0 < GoInt.add (GoInt.sub (Weapon.DamageMax wp) (Weapon.DamageMin wp)) 1
  | None => True
  end.

(** Every pointer of the rosters refers to a character of the heap. *)
Definition rosters_valid (b : Battle.t) (h : list Character.t) : Prop :=
  Forall (fun p => is_Some (h !! p)) (Battle.Players b ++ Battle.Enemies b).

Definition alive_at (h : list Character.t) (p : ptr) : bool :=
  match h !! p with
  | Some c => Character.Alive c
  | None => false
  end.

(** The state of a battle without skills that cannot panic. *)
Definition sound (b : Battle.t) (w : World) : Prop :=
  Forall unskilled (heap w) /\ rosters_valid b (heap w).

(** Some combatant of the roster is alive. *)
Definition any_alive (h : list Character.t) (roster : list ptr) : bool :=
  existsb (alive_at h) roster.

(** ** The two fields that nothing reads *)

(** [scrub] clears [MagicBonus] of every weapon and [ResistBonus] of every
    armor of a character, equipped or in the inventory, and keeps all the
    rest: two characters with the same [scrub] differ in those fields only. *)
Definition scrub_weapon (wp : Weapon.t) : Weapon.t :=
  Weapon.mk (Weapon.Name wp) (Weapon.DamageMin wp) (Weapon.DamageMax wp)
            (Weapon.DamageType wp) (Weapon.AttackBonus wp) 0.

Definition scrub_armor (a : Armor.t) : Armor.t :=
  Armor.mk (Armor.Name a) (Armor.DefenseBonus a) 0 (Armor.HPBonus a).

Definition scrub_item (i : Item.t) : Item.t :=
  Item.mk (Item.ID i) (Item.Name i) (Item.Description i) (Item.Consumable i)
          (Item.HealHP i) (Item.HealMP i) (Item.EquipSlot i)
          (scrub_weapon <$> Item.Weapon i) (scrub_armor <$> Item.Armor i).

Definition scrub (c : Character.t) : Character.t :=
  Character.mk (Character.ID c) (Character.Name c) (Character.Stats c)
               (scrub_weapon <$> Character.Weapon c) (scrub_armor <$> Character.Armor c)
               (Inventory.mk (scrub_item <$> Inventory.Items (Character.Inv c)))
               (Character.Skills c) (Character.Effects c)
               (Character.Alive c) (Character.Team c).

Definition scrub_world (w : World) : World :=
  mkWorld (scrub <$> heap w) (rand_pos w) (out w).

(** The result of a run seen up to the two fields; [f] does the same for
    the value returned. *)
Definition scrub_result {A : Type} (f : A -> A) (r : result A) : result A :=
  match r with
  | Ok a w => Ok (f a) (scrub_world w)
  | Panic => Panic
  | OutOfFuel => OutOfFuel
  end.

(** [m] cannot tell a state from its scrubbed version. *)
Definition oblivious {A : Type} (f : A -> A) (m : M A) : Prop :=
  forall w, m (scrub_world w) = scrub_result f (m w).

(** Two results that agree up to the two fields: both panic, or both run
    out of fuel, or both return the same value with the same log, the same
    position in the random source and heaps that are equal once scrubbed,
    hence with the same stats, effects and alive flags. *)
Definition same_outcome {A : Type} (r1 r2 : result A) : Prop :=
  match r1, r2 with
  | Ok a1 v1, Ok a2 v2 =>
      a1 = a2 /\ out v1 = out v2 /\ rand_pos v1 = rand_pos v2 /\
      scrub <$> heap v1 = scrub <$> heap v2 /\
      Character.Stats <$> heap v1 = Character.Stats <$> heap v2 /\
      Character.Effects <$> heap v1 = Character.Effects <$> heap v2 /\
      Character.Alive <$> heap v1 = Character.Alive <$> heap v2
  | Panic, Panic => True
  | OutOfFuel, OutOfFuel => True
  | _, _ => False
  end.

(** ** Scenarios *)

Module Scenario.
(** The floats [1.0], [1.5] and [2.0]. *)
Definition f1_0 : GoFloat.float64 := GoFloat.of_int 1.
Definition f1_5 : GoFloat.float64 := GoFloat.mul (GoFloat.of_int 3) GoFloat.half.
Definition f2_0 : GoFloat.float64 := GoFloat.of_int 2.

(** A random source whose every raw draw is 0: [rand.Float64()] gives 0.0
    (below 0.5 and never below a crit rate of 0), [rand.Intn(n)] gives 0. *)
Definition zeros : nat -> Z := fun _ => 0.

Definition stats (hpmax hp mp attack defense speed : Z) : Stats.t :=
  Stats.mk hpmax hp mp mp attack defense 0 0 speed GoFloat.zero f1_5.

Definition fighter (id name team : string) (s : Stats.t) (skills : list Skill.t)
  : Character.t :=
  Character.mk id name s None None (Inventory.mk []) skills [] true team.

(** *** Both rosters fall in the same round *)

Definition poison : Effect.t := Effect.mk "fx1" "Poison" 3 0 0 0 20 "e1".
Definition venom : Skill.t :=
  Skill.mk "s2" "Venom" "" 0 f1_0 Physical 0 false (Some poison).
Definition strike : Skill.t :=
  Skill.mk "s1" "Strike" "" 0 f2_0 Physical 0 false None.

Definition duel_heap : list Character.t :=
  [ fighter "p1" "Hero" "player" (stats 10 10 0 5 0 5) [strike];
    fighter "e1" "Viper" "enemy" (stats 5 5 0 3 0 9) [venom] ].
Definition duel_world : World := mkWorld duel_heap 0 [].
Definition duel : Battle.t := Battle.NewBattle [0%nat] [1%nat].

(** *** Two players with the same speed *)

Definition tie_heap : list Character.t :=
  [ fighter "p1" "Hero" "player" (stats 10 10 0 5 0 5) [];
    fighter "p2" "Cleric" "player" (stats 10 10 0 5 0 5) [];
    fighter "e1" "Goblin" "enemy" (stats 10 10 0 5 0 7) [] ].
Definition tie_world : World := mkWorld tie_heap 0 [].
Definition tie_battle : Battle.t := Battle.NewBattle [0%nat; 1%nat] [2%nat].

(** *** Speeds 7, 5, 4 and 6 *)

Definition party_heap : list Character.t :=
  [ fighter "p1" "Hero" "player" (stats 60 60 30 6 3 7) [];
    fighter "p2" "Cleric" "player" (stats 45 45 50 3 2 5) [];
    fighter "e3" "Orc" "enemy" (stats 35 35 0 8 4 4) [];
    fighter "e1" "Goblin" "enemy" (stats 20 20 5 4 1 6) [] ].
Definition party_world : World := mkWorld party_heap 0 [].
Definition party : Battle.t := Battle.NewBattle [0%nat; 1%nat] [2%nat; 3%nat].

(** *** A wounded enemy with a damage skill *)

Definition bolt : Skill.t :=
  Skill.mk "s3" "Bolt" "" 0 f2_0 Physical 0 false None.
Definition shaman : Character.t :=
  fighter "e1" "Shaman" "enemy" (stats 10 4 0 3 0 9) [bolt].
Definition shaman_heap : list Character.t :=
  [ fighter "p1" "Hero" "player" (stats 10 10 0 5 0 5) []; shaman ].
Definition shaman_world : World := mkWorld shaman_heap 0 [].
Definition shaman_battle : Battle.t := Battle.NewBattle [0%nat] [1%nat].

(** *** Two fighters that can heal for free *)


(** *** The swordsman of the specification: attack 6, weapon range [3,6] *)

Definition sword : Weapon.t := Weapon.mk "Sword" 3 6 Physical 0 0.
Definition leather : Armor.t := Armor.mk "Leather" 1 0 5.
Definition swordsman : Character.t :=
  Character.mk "p1" "Hero" (stats 60 60 30 6 3 7) (Some sword) None
               (Inventory.mk []) [] [] true "player".
(** A target with defense 3. *)
Definition guard : Character.t := fighter "e1" "Guard" "enemy" (stats 35 35 0 8 3 4) [].
Definition spar_world : World := mkWorld [swordsman; guard] 0 [].
Definition spar : Battle.t := Battle.NewBattle [0%nat] [1%nat].

(** The hero of the specification, wounded: 10 of 60 hit points. *)
Definition wounded : Character.t := fighter "p1" "Hero" "player" (stats 60 10 30 6 3 7) [].

(** *** A cleric with 5 MP whose healing costs 8 *)

Definition heal8 : Skill.t :=
  Skill.mk "he1" "Heal" "" 8 GoFloat.zero Magic 18 false None.
Definition cleric : Character.t :=
  fighter "p2" "Cleric" "player" (Stats.mk 45 10 50 5 3 2 6 3 5 GoFloat.zero f1_5) [heal8].
Definition chapel_world : World := mkWorld [cleric; guard] 0 [].

(** *** A hero slowed for two rounds *)

Definition slow : Effect.t := Effect.mk "fx2" "Slow" 2 (-1) (-1) (-3) 0 "e1".
Definition bless : Effect.t := Effect.mk "fx3" "Bless" 5 2 0 0 0 "p2".
Definition slowed : Character.t :=
  Character.with_Effects [bless; slow; bless] swordsman.

(** *** The same fight with and without the two bonuses *)

Definition plain_world : World :=
  mkWorld [Character.with_Armor (Some leather) swordsman; guard] 0 [].
Definition enchanted_world : World :=
  mkWorld [Character.with_Armor (Some (Armor.mk "Leather" 1 4 5))
             (Character.with_Weapon (Some (Weapon.mk "Sword" 3 6 Physical 0 7)) swordsman);
           guard] 0 [].
End Scenario.

(** ** Further statements about the program *)

(** The exact sum of one delta over a list of effects. *)
Definition mods_total (f : Effect.t -> Z) (effs : list Effect.t) : Z :=
  foldr (fun e a => f e + a) 0 effs.

(** The attack bonus of the weapon in hand and the defense bonus of the
    armor worn, 0 without one. *)
Definition weapon_bonus (c : Character.t) : Z :=
  match Character.Weapon c with Some w => Weapon.AttackBonus w | None => 0 end.

Definition armor_bonus (c : Character.t) : Z :=
  match Character.Armor c with Some a => Armor.DefenseBonus a | None => 0 end.

(** The line logged when the effect [e] of the character called [name]
    ends. *)
Definition ended_line (name : string) (e : Effect.t) : string :=
  "Effect " +:+ Effect.Name e +:+ " on " +:+ name +:+ " ended".

(** The damage range and type of a basic attack: the weapon's, or [1, 2]
    physical with bare hands. *)
Definition attack_profile (c : Character.t) : Z * Z * DamageType :=
  match Character.Weapon c with
  | Some w => (Weapon.DamageMin w, Weapon.DamageMax w, Weapon.DamageType w)
  | None => (1, 2, Physical)
  end.

(** The stat that a damaging skill scales: [Magic] for a magic skill, else
    the effective attack. *)
Definition skill_stat (me : Character.t) (s : Skill.t) : Z :=
  if String.eqb (Skill.DamageType s) Magic then Stats.Magic (Character.Stats me)
  else Character.EffectiveAttack me.

(** The effect of a skill put on a target, with the line logged. *)
Definition affected (s : Skill.t) (tc : Character.t) : Character.t * list string :=
  match Skill.Effect s with
  | Some e => Character.AddEffect tc e
  | None => (tc, [])
  end.

(** What a battle leaves alone: everything of a character but its current
    hit points, its current MP, its effects and its alive flag. *)
Definition same_build (c c' : Character.t) : Prop :=
  Character.ID c' = Character.ID c /\ Character.Name c' = Character.Name c /\
  Character.Team c' = Character.Team c /\
  Character.Weapon c' = Character.Weapon c /\ Character.Armor c' = Character.Armor c /\
  Character.Inv c' = Character.Inv c /\ Character.Skills c' = Character.Skills c /\
  Stats.with_HP 0 (Stats.with_MP 0 (Character.Stats c'))
    = Stats.with_HP 0 (Stats.with_MP 0 (Character.Stats c)).

(** The characters that are dead in [h] are in [h'] exactly as they were. *)
Definition dead_untouched (h h' : list Character.t) : Prop :=
  length h' = length h /\
  forall p c, h !! p = Some c -> Character.Alive c = false -> h' !! p = Some c.

(** [p] does not point to a character that is dead in [h]. *)
Definition not_dead_in (h : list Character.t) (p : ptr) : Prop :=
  forall c, h !! p = Some c -> Character.Alive c = true.

(** [m] never changes a character that is dead in [h]. *)
Definition spares_dead (h : list Character.t) {A : Type} (m : M A) : Prop :=
  forall w a w', dead_untouched h (heap w) -> m w = Ok a w' -> dead_untouched h (heap w').

(** ** Battles in which every skill is paid for *)

(** A combatant of such a battle, for heals of at most [H]: hit points
    within [0, maxHP] with room for [H] above maxHP, MP within [0, max_int],
    every skill costs at least 1 MP and heals at most [H], and the weapon
    (if any) gives [rand.Intn] a positive bound. *)
Definition fit (H : Z) (c : Character.t) : Prop :=
  0 <= Character.HP c <= Character.HPMax c /\
  Character.HPMax c + H <= GoInt.max_int /\
  0 <= Character.MP c <= GoInt.max_int /\
  Forall (fun s => 1 <= Skill.MPCost s /\ Skill.HealHP s <= H) (Character.Skills c) /\
  match Character.Weapon c with
  | Some wp => 0 < GoInt.add (GoInt.sub (Weapon.DamageMax wp) (Weapon.DamageMin wp)) 1
  | None => True
  end.

(** [p] points to a character whose [Team] is ["player"], or is not. *)
Definition on_team (h : list Character.t) (player : bool) (p : ptr) : Prop :=
  exists c, h !! p = Some c /\ String.eqb (Character.Team c) "player" = player.

(** The state of a battle that cannot panic: every character is fit, the
    players are on team ["player"] and the enemies are not. *)
Definition ready (H : Z) (b : Battle.t) (h : list Character.t) : Prop :=
  Forall (fit H) h /\
  Forall (on_team h true) (Battle.Players b) /\
  Forall (on_team h false) (Battle.Enemies b).

(** What is left to spend: the vitality, and the MP weighted so that one MP
    outweighs everything a single cast can heal. *)
Definition weight (H : Z) (b : Battle.t) : Z :=
  H * Z.of_nat (length (Battle.Players b) + length (Battle.Enemies b) + 1) + 1.

Definition stamina1 (W : Z) (c : Character.t) : Z := vitality1 c + W * Character.MP c.

Fixpoint stamina (W : Z) (h : list Character.t) : Z :=
  match h with
  | [] => 0
  | c :: rest => stamina1 W c + stamina W rest
  end.

(** The state [w'] reached from [w]: still ready, the same cells, and at
    most [d] more stamina. *)
Definition lands (H : Z) (b : Battle.t) (w w' : World) (d : Z) : Prop :=
  ready H b (heap w') /\ length (heap w') = length (heap w) /\
  stamina (weight H b) (heap w') <= stamina (weight H b) (heap w) + d.

(** A target list whose pointers are not nil and not dangling. *)
Definition targets_valid (h : list Character.t) (targets : list (option ptr)) : Prop :=
  Forall (fun t => exists p, t = Some p /\ is_Some (h !! p)) targets.

(** ** More scenarios *)

Module Arena.
(** *** A bag of three items *)

Definition potion : Item.t := Item.mk "i1" "Potion" "" true 20 0 "" None None.
Definition ether : Item.t := Item.mk "i2" "Ether" "" true 0 10 "" None None.
Definition bomb : Item.t := Item.mk "i3" "Bomb" "" true 0 0 "" None None.
Definition bag : Inventory.t := Inventory.mk [potion; ether; bomb].

(** *** A second armor, a regeneration and a burn that cancel *)

Definition plate : Armor.t := Armor.mk "Plate" 4 0 12.
Definition regen : Effect.t := Effect.mk "fx4" "Regen" 3 0 0 0 (-4) "p2".
Definition burn : Effect.t := Effect.mk "fx5" "Burn" 1 0 0 0 4 "e1".

(** *** A cleric with 50 MP at 10 of 45 hit points, and a fallen guard *)

Definition healer : Character.t :=
  Scenario.fighter "p2" "Cleric" "player"
    (Stats.mk 45 10 50 50 3 2 6 3 5 GoFloat.zero Scenario.f1_5) [Scenario.heal8].
Definition fallen : Character.t :=
  Character.with_Alive false (Character.with_HP 0 Scenario.guard).
Definition ward_world : World := mkWorld [healer; fallen] 0 [].
Definition clinic_world : World := mkWorld [healer; Scenario.guard] 0 [].
Definition aftermath : World := mkWorld [Scenario.swordsman; fallen] 7 ["earlier"].

(** *** A hero with the fireball of the program *)

Definition fireball : Skill.t :=
  Skill.mk "s1" "Fireball" "" 6 (float_lit 22 10) Magic 0 false None.
Definition mage : Character.t :=
  Scenario.fighter "p1" "Hero" "player"
    (Stats.mk 60 60 30 30 6 3 4 2 7 GoFloat.zero Scenario.f1_5) [fireball].
Definition tower_world : World := mkWorld [mage; Scenario.guard] 0 [].

(** *** A swordsman who always crits, and a cleric who cannot pay *)

Definition lucky : Character.t :=
  Character.mk "p1" "Hero" (Stats.mk 60 60 30 30 6 3 0 0 7 Scenario.f1_0 Scenario.f1_5)
               (Some Scenario.sword) None (Inventory.mk []) [] [] true "player".
Definition lucky_world : World := mkWorld [lucky; Scenario.guard] 0 [].
Definition tired : Character.t :=
  Scenario.fighter "p2" "Cleric" "player"
    (Stats.mk 45 10 50 5 3 2 6 3 5 GoFloat.zero Scenario.f1_5) [Scenario.heal8].
Definition tired_world : World := mkWorld [tired; Scenario.guard] 0 [].

(** *** A weapon whose bounds are swapped *)


(** *** A hero with 10 hit points and a poison of 20 *)

Definition doomed : Character.t :=
  Character.with_Effects [Scenario.poison]
    (Scenario.fighter "p1" "Hero" "player" (Scenario.stats 60 10 30 6 3 7) []).
Definition doomed_world : World := mkWorld [doomed; Scenario.guard] 0 [].
End Arena.

(** ** The library's sort *)

(** [sort_Slice] is the library's routine wherever that is modelled. *)
Definition library_sort (sort_Slice : (ptr -> ptr -> bool) -> list ptr -> list ptr) : Prop :=
  forall less data sorted, GoSort.Slice less data = Some sorted -> sort_Slice less data = sorted.

(** [sort_Slice] is the library's routine on the slices that the library
    sorts by insertion. *)
Definition library_sort_short
    (sort_Slice : (ptr -> ptr -> bool) -> list ptr -> list ptr) : Prop :=
  forall less data, (length data <= GoSort.maxInsertion)%nat ->
                    GoSort.Slice less data = Some (sort_Slice less data).

(** The combatants of [l] whose effective speed is [v], in the order of [l]. *)
Definition with_speed (h : list Character.t) (v : Z) (l : list ptr) : list ptr :=
  filter (fun p => speed_of h p = v) l.

Module Crowd.
(** *** Twelve players of speed 5 and an enemy of speed 9 *)
Definition recruit (n : nat) : Character.t :=
  Scenario.fighter ("p" +:+ pretty n) ("Recruit " +:+ pretty n) "player"
                   (Scenario.stats 10 10 0 5 0 5) [].
Definition wolf : Character.t :=
  Scenario.fighter "e1" "Wolf" "enemy" (Scenario.stats 10 10 0 5 0 9) [].
Definition crowd_heap : list Character.t := (recruit <$> seq 0 12) ++ [wolf].
Definition crowd_world : World := mkWorld crowd_heap 0 [].
Definition crowd : Battle.t := Battle.NewBattle (seq 0 12) [12%nat].
End Crowd.

(** Along a sequence of heaps, oldest first, no character that is not alive
    in one heap is alive in a later one. *)
Definition never_revives (hs : list (list Character.t)) : Prop :=
  forall i j h h', (i <= j)%nat -> hs !! i = Some h -> hs !! j = Some h' ->
                   Spec.dead_stay_dead h h'.

(** Each heap of the record comes from the one before by changes that
    leave the dead dead, starting from [h]. *)
Fixpoint chained (h : list Character.t) (t : list (list Character.t)) : Prop :=
  match t with
  | [] => True
  | h1 :: t' => Forall2 stays_dead h h1 /\ chained h1 t'
  end.

(** A recorded computation whose record starts from the heap it is run on,
    ends with the heap it leaves, and is chained. *)
Definition tidy {A : Type} (m : Traced.T A) : Prop :=
  forall w a t w', m w = Ok (a, t) w' ->
                   chained (heap w) t /\ last (heap w :: t) = Some (heap w').

(** [mT] is [m] with a record. *)
Definition records {A : Type} (mT : Traced.T A) (m : M A) : Prop :=
  forall w, Traced.forget mT w = m w.

(* ================================================================== *)
(** * Part III: proofs *)
(* ================================================================== *)

(** ** Machine arithmetic *)

Lemma wrap_in_range z : GoInt.in_range (GoInt.wrap z).
Proof.
  unfold GoInt.in_range, GoInt.wrap, GoInt.min_int, GoInt.max_int.
  pose proof (Z.mod_pos_bound (z + 9223372036854775808) 18446744073709551616).
  lia.
Qed.

Lemma wrap_id z : GoInt.in_range z -> GoInt.wrap z = z.
Proof.
  unfold GoInt.in_range, GoInt.wrap, GoInt.min_int, GoInt.max_int. intros H.
  rewrite Z.mod_small; lia.
Qed.

Lemma half_bounds x : 0 <= x -> 0 <= GoInt.half x <= x.
Proof.
  intros H. unfold GoInt.half. split.
  - apply Z.quot_pos; lia.
  - apply Z.quot_le_upper_bound; lia.
Qed.

Lemma half_in_range x : GoInt.in_range x -> GoInt.in_range (GoInt.half x).
Proof.
  unfold GoInt.in_range, GoInt.half, GoInt.min_int, GoInt.max_int. intros H.
  destruct (Z.le_gt_cases 0 x).
  - pose proof (half_bounds x ltac:(lia)). unfold GoInt.half in *. lia.
  - pose proof (half_bounds (- x) ltac:(lia)) as Hb. unfold GoInt.half in Hb.
    rewrite Z.quot_opp_l in Hb by lia. lia.
Qed.

Ltac range := unfold GoInt.in_range, GoInt.min_int, GoInt.max_int in *.

Lemma to_int_in_range f : GoInt.in_range (GoFloat.to_int f).
Proof.
  unfold GoFloat.to_int. destruct f as [s|s| |s m e]; try (range; lia).
  cbv zeta. destruct (_ && _) eqn:E; [|range; lia].
  apply andb_true_iff in E as [E1 E2]. range. lia.
Qed.

Lemma total_dot_in_range effs : GoInt.in_range (Character.total_dot effs).
Proof.
  unfold Character.total_dot.
  assert (forall acc, GoInt.in_range acc ->
            GoInt.in_range (fold_left (fun tot e => if Effect.DotHP e =? 0 then tot
                                       else GoInt.add tot (Effect.DotHP e)) effs acc)) as H.
  { induction effs as [|e effs IH]; intros acc Hacc; cbn [fold_left]; [done|].
    apply IH. destruct (_ =? 0); [done|apply wrap_in_range]. }
  apply H. range. lia.
Qed.

(** ** Stepping through the monad *)

Lemma bind_ok {A B} (m : M A) (k : A -> M B) w a w' :
  m w = Ok a w' -> (m ≫= k) w = k a w'.
Proof. intros H. unfold mbind, M_bind. by rewrite H. Qed.

Lemma bind_inv {A B} (m : M A) (k : A -> M B) w b w2 :
  (m ≫= k) w = Ok b w2 -> exists a w1, m w = Ok a w1 /\ k a w1 = Ok b w2.
Proof. unfold mbind, M_bind. destruct (m w) as [a w1| |]; [eauto|done|done]. Qed.

Lemma deref_ok p w c : heap w !! p = Some c -> deref p w = Ok c w.
Proof. intros H. unfold deref. by rewrite H. Qed.

Lemma deref_inv p w c w' : deref p w = Ok c w' -> heap w !! p = Some c /\ w' = w.
Proof. unfold deref. destruct (heap w !! p); [|done]. by intros [= -> ->]. Qed.

Lemma invoke_ok {B} p (f : Character.t -> Character.t * B) w c :
  heap w !! p = Some c ->
  invoke p f w = Ok (snd (f c)) (mkWorld (<[p := fst (f c)]> (heap w)) (rand_pos w) (out w)).
Proof.
  intros H. unfold invoke. rewrite (bind_ok _ _ _ _ _ (deref_ok _ _ _ H)).
  by destruct (f c).
Qed.

Lemma call_ok p f w c :
  heap w !! p = Some c ->
  call p f w = Ok tt (mkWorld (<[p := fst (f c)]> (heap w)) (rand_pos w)
                              (out w ++ snd (f c))).
Proof.
  intros H. unfold call. erewrite bind_ok; [|by apply invoke_ok]. done.
Qed.

Lemma rand_Intn_ok draws n w :
  0 < n ->
  rand_Intn draws n w =
    Ok (draws (rand_pos w) mod n) (mkWorld (heap w) (S (rand_pos w)) (out w)).
Proof. intros H. unfold rand_Intn. destruct (Z.leb_spec n 0); [lia|done]. Qed.

Lemma crit_roll_miss draws me amount line w :
  GoFloat.ltb (GoFloat.unit_fraction (draws (rand_pos w)))
              (Stats.CritRate (Character.Stats me)) = false ->
  crit_roll draws me amount line w =
    Ok amount (mkWorld (heap w) (S (rand_pos w)) (out w)).
Proof. intros H. unfold crit_roll, mbind, M_bind, rand_Float64. by rewrite H. Qed.

(** ** Damage *)

Lemma floor_at_one a : 1 <= (if a <? 1 then 1 else a).
Proof. destruct (Z.ltb_spec a 1); lia. Qed.

(** What [TakeDamage] does, with the damage [actual] it computes left
    abstract: [actual] is at least 1 and the hit points drop by it. *)
Lemma TakeDamage_cases c amount dtype :
  exists actual,
    1 <= actual /\
    (GoInt.in_range amount -> GoInt.in_range actual) /\
    (String.eqb dtype Physical = true ->
       actual = Z.max 1 (GoInt.sub amount (GoInt.half (Character.EffectiveDefense c)))) /\
    (String.eqb dtype Physical = false -> String.eqb dtype Magic = true ->
       actual = Z.max 1 (GoInt.sub amount (GoInt.half (Stats.Resist (Character.Stats c))))) /\
    (String.eqb dtype Physical = false -> String.eqb dtype Magic = false ->
       actual = Z.max 1 amount) /\
    Character.TakeDamage c amount dtype =
      if GoInt.sub (Character.HP c) actual <=? 0
      then (Character.with_Alive false (Character.with_HP 0 c),
            [Character.Name c +:+ " died!"])
      else (Character.with_HP (GoInt.sub (Character.HP c) actual) c, []).
Proof.
  unfold Character.TakeDamage.
  set (raw := if String.eqb dtype Physical then _ else _).
  exists (if raw <? 1 then 1 else raw).
  split; [apply floor_at_one|].
  split.
  { intros Hr. destruct (Z.ltb_spec raw 1).
    - unfold GoInt.in_range, GoInt.min_int, GoInt.max_int; lia.
    - subst raw. destruct (String.eqb dtype Physical); [apply wrap_in_range|].
      destruct (String.eqb dtype Magic); [apply wrap_in_range|done]. }
  subst raw.
  repeat split; try reflexivity; intros;
    repeat match goal with H : String.eqb _ _ = _ |- _ => rewrite H; clear H end;
    match goal with |- context [?a <? 1] => destruct (Z.ltb_spec a 1) end; lia.
Qed.

(** The hit points after a hit, by the rule of the specification in machine
    arithmetic: this holds for every 64-bit raw amount. *)
Lemma TakeDamage_dealt c amount dtype :
  GoInt.in_range amount ->
  0 <= Character.HP c <= GoInt.max_int ->
  let c' := fst (Character.TakeDamage c amount dtype) in
  let actual := Spec.mitigated_by GoInt.sub c amount dtype in
  1 <= actual /\
  Character.HP c' = Z.max 0 (Character.HP c - actual) /\
  Character.Alive c' = Character.Alive c && (0 <? Character.HP c - actual).
Proof.
  intros Ha Hhp. cbv zeta.
  destruct (TakeDamage_cases c amount dtype) as (actual & H1 & Hin & Hp & Hm & Hpu & ->).
  specialize (Hin Ha).
  assert (actual = Spec.mitigated_by GoInt.sub c amount dtype) as <-.
  { unfold Spec.mitigated_by. destruct (String.eqb dtype Physical); [by apply Hp|].
    destruct (String.eqb dtype Magic); [by apply Hm|by apply Hpu]. }
  split; [done|].
  unfold GoInt.sub. rewrite wrap_id by (range; lia).
  unfold Character.HP in *.
  destruct (Z.leb_spec (Stats.HP (Character.Stats c) - actual) 0); cbn.
  - split; [lia|].
    destruct (Z.ltb_spec 0 (Stats.HP (Character.Stats c) - actual)); [lia|].
    by rewrite andb_false_r.
  - split; [lia|].
    destruct (Z.ltb_spec 0 (Stats.HP (Character.Stats c) - actual)); [|lia].
    by rewrite andb_true_r.
Qed.

Lemma half_small x : GoInt.in_range x -> - 2 ^ 62 <= GoInt.half x <= 2 ^ 62.
Proof.
  intros Hx. range. unfold GoInt.half. destruct (Z.le_gt_cases 0 x).
  - pose proof (Z.quot_pos x 2). assert (x ÷ 2 <= 2 ^ 62); [|lia].
    apply Z.quot_le_upper_bound; lia.
  - assert (- (x ÷ 2) <= 2 ^ 62).
    { rewrite <- Z.quot_opp_l by lia. apply Z.quot_le_upper_bound; lia. }
    assert (0 <= - (x ÷ 2)).
    { rewrite <- Z.quot_opp_l by lia. apply Z.quot_pos; lia. }
    lia.
Qed.

(** Without overflow the machine computes the rule of the specification. *)
Lemma mitigated_exact c amount dtype :
  - 2 ^ 62 < amount < 2 ^ 62 ->
  GoInt.in_range (Character.EffectiveDefense c) ->
  GoInt.in_range (Stats.Resist (Character.Stats c)) ->
  Spec.mitigated_by GoInt.sub c amount dtype = Spec.mitigated c amount dtype.
Proof.
  intros Ha Hd Hr. unfold Spec.mitigated, Spec.mitigated_by.
  pose proof (half_small _ Hd) as Hd2. pose proof (half_small _ Hr) as Hr2.
  unfold GoInt.half in *.
  destruct (String.eqb dtype Physical); [|destruct (String.eqb dtype Magic); [|done]];
    unfold GoInt.sub; rewrite wrap_id; try done; range; lia.
Qed.

Lemma TakeDamage_mitigated c amount dtype :
  - 2 ^ 62 < amount < 2 ^ 62 ->
  GoInt.in_range (Character.EffectiveDefense c) ->
  GoInt.in_range (Stats.Resist (Character.Stats c)) ->
  0 <= Character.HP c <= GoInt.max_int ->
  let c' := fst (Character.TakeDamage c amount dtype) in
  let actual := Spec.mitigated c amount dtype in
  1 <= actual /\
  Character.HP c' = Z.max 0 (Character.HP c - actual) /\
  Character.Alive c' = Character.Alive c && (0 <? Character.HP c - actual).
Proof.
  intros Ha Hd Hr Hhp. cbv zeta. rewrite <- (mitigated_exact c amount dtype Ha Hd Hr).
  apply TakeDamage_dealt; [range; lia|done].
Qed.

Lemma basic_attack_scenario draws w c target me tc wpn :
  heap w !! c = Some me -> heap w !! target = Some tc ->
  Character.Alive me = true ->
  Character.Weapon me = Some wpn ->
  Weapon.DamageMin wpn = 3 -> Weapon.DamageMax wpn = 6 ->
  Weapon.DamageType wpn = Physical ->
  Character.EffectiveAttack me = 6 ->
  GoFloat.ltb (GoFloat.unit_fraction (draws (S (rand_pos w))))
              (Stats.CritRate (Character.Stats me)) = false ->
  exists raw lines,
    9 <= raw <= 12 /\
    BasicAttack draws c target w =
      Ok tt (mkWorld (<[target := fst (Character.TakeDamage tc raw Physical)]> (heap w))
                     (S (S (rand_pos w))) (out w ++ lines)).
Proof.
  intros Hc Ht Hal Hw Hmin Hmax Hty Hatk Hcrit.
  pose proof (Z.mod_pos_bound (draws (rand_pos w)) 4 ltac:(lia)) as Hr.
  set (r := draws (rand_pos w) mod 4) in *.
  exists (r + 9). eexists. split; [lia|].
  unfold BasicAttack.
  rewrite (bind_ok _ _ _ _ _ (deref_ok _ _ _ Hc)).
  rewrite Hal, Hw, Hmin, Hmax, Hty, Hatk. cbn [negb].
  change (GoInt.add (GoInt.sub 6 3) 1) with 4.
  rewrite (bind_ok _ _ _ _ _ (rand_Intn_ok draws 4 w ltac:(lia))). fold r.
  assert (GoInt.add (GoInt.add r 3) 6 = r + 9) as ->.
  { unfold GoInt.add. rewrite !wrap_id;
      unfold GoInt.in_range, GoInt.min_int, GoInt.max_int; try lia.
    rewrite wrap_id; unfold GoInt.in_range, GoInt.min_int, GoInt.max_int; lia. }
  erewrite bind_ok; [|by apply crit_roll_miss].
  erewrite bind_ok; [|by apply deref_ok].
  erewrite bind_ok; [|reflexivity].
  rewrite call_ok with (c := tc) by done. cbn.
  rewrite <- app_assoc. reflexivity.
Qed.

(** C7. A hit lowers the target's hit points by the mitigated amount: for a
    physical hit the raw amount less half the target's effective defense,
    for a magic hit the raw amount less half its resistance, for a pure hit
    the raw amount, each with truncated division and floored at 1 (the hit
    points are clamped at 0, where the target dies).  This holds in machine
    arithmetic for every 64-bit raw amount, and the machine agrees with the
    mathematical integers when the raw amount is below 2^62 in absolute
    value.  An attacker with effective attack 6 and a physical weapon of
    range [3,6] that hits a target of effective defense 3 without a critical
    hit deals between 8 and 11 damage. *)
Theorem C7_damage_mitigation :
  (forall c amount dtype,
     GoInt.in_range amount ->
     0 <= Character.HP c <= GoInt.max_int ->
     let c' := fst (Character.TakeDamage c amount dtype) in
     let actual := Spec.mitigated_by GoInt.sub c amount dtype in
     1 <= actual /\
     Character.HP c' = Z.max 0 (Character.HP c - actual) /\
     Character.Alive c' = Character.Alive c && (0 <? Character.HP c - actual)) /\
  (forall c amount dtype,
     - 2 ^ 62 < amount < 2 ^ 62 ->
     GoInt.in_range (Character.EffectiveDefense c) ->
     GoInt.in_range (Stats.Resist (Character.Stats c)) ->
     Spec.mitigated_by GoInt.sub c amount dtype = Spec.mitigated c amount dtype) /\
  (forall c amount,
     Spec.mitigated c amount Physical
       = Z.max 1 (amount - Character.EffectiveDefense c ÷ 2) /\
     Spec.mitigated c amount Magic
       = Z.max 1 (amount - Stats.Resist (Character.Stats c) ÷ 2) /\
     Spec.mitigated c amount Pure = Z.max 1 amount) /\
  (forall draws w c target me tc wpn,
     heap w !! c = Some me -> heap w !! target = Some tc ->
     Character.Alive me = true ->
     Character.Weapon me = Some wpn ->
     Weapon.DamageMin wpn = 3 -> Weapon.DamageMax wpn = 6 ->
     Weapon.DamageType wpn = Physical ->
     Character.EffectiveAttack me = 6 ->
     GoFloat.ltb (GoFloat.unit_fraction (draws (S (rand_pos w))))
                 (Stats.CritRate (Character.Stats me)) = false ->
     Character.EffectiveDefense tc = 3 ->
     0 <= Character.HP tc <= GoInt.max_int ->
     exists dealt tc' lines,
       8 <= dealt <= 11 /\
       BasicAttack draws c target w =
         Ok tt (mkWorld (<[target := tc']> (heap w)) (S (S (rand_pos w))) (out w ++ lines)) /\
       Character.HP tc' = Z.max 0 (Character.HP tc - dealt)).
Proof.
  split; [apply TakeDamage_dealt|]. split; [apply mitigated_exact|]. split; [done|].
  intros draws w c target me tc wpn Hc Ht Hal Hw Hmin Hmax Hty Hatk Hcrit Hdef Hhp.
  destruct (basic_attack_scenario draws w c target me tc wpn Hc Ht Hal Hw Hmin Hmax Hty
              Hatk Hcrit) as (raw & lines & Hraw & HB).
  exists (raw - 1), (fst (Character.TakeDamage tc raw Physical)), lines.
  split; [lia|]. split; [exact HB|].
  destruct (TakeDamage_dealt tc raw Physical) as (_ & Hhp' & _); [range; lia|done|].
  rewrite Hhp'. unfold Spec.mitigated_by.
  change (String.eqb Physical Physical) with true. cbv iota. rewrite Hdef.
  change (3 ÷ 2) with 1. unfold GoInt.sub. rewrite wrap_id by (range; lia). lia.
Qed.

(** The swordsman of the specification hits the guard. *)
Lemma C7_witness :
  exists dealt tc' lines,
    8 <= dealt <= 11 /\
    BasicAttack Scenario.zeros 0%nat 1%nat Scenario.spar_world =
      Ok tt (mkWorld (<[1%nat := tc']> (heap Scenario.spar_world)) 2 (out Scenario.spar_world ++ lines)) /\
    Character.HP tc' = Z.max 0 (Character.HP Scenario.guard - dealt).
Proof.
  apply (proj2 (proj2 (proj2 C7_damage_mitigation)) Scenario.zeros Scenario.spar_world
           0%nat 1%nat Scenario.swordsman Scenario.guard Scenario.sword);
    try reflexivity; vm_compute; (split; discriminate).
Defined.

Lemma TakeDamage_invariant c amount dtype :
  GoInt.in_range amount ->
  0 <= Character.HP c <= Character.HPMax c -> Character.HPMax c <= GoInt.max_int ->
  let c' := fst (Character.TakeDamage c amount dtype) in
  Character.HPMax c' = Character.HPMax c /\
  0 <= Character.HP c' <= Character.HPMax c' /\
  (exists actual, 1 <= actual /\ Character.HP c' = Z.max 0 (Character.HP c - actual)) /\
  (Character.HP c' = 0 -> Character.Alive c' = false) /\
  (Character.Alive c = false -> Character.Alive c' = false).
Proof.
  intros Ha Hhp Hmax. cbv zeta.
  destruct (TakeDamage_cases c amount dtype) as (actual & H1 & Hin & _ & _ & _ & ->).
  specialize (Hin Ha).
  unfold GoInt.sub. rewrite wrap_id by (range; lia).
  unfold Character.HP, Character.HPMax in *.
  destruct (Z.leb_spec (Stats.HP (Character.Stats c) - actual) 0); cbn.
  - repeat split; try lia; try done. exists actual. lia.
  - repeat split; try lia; try done. exists actual. lia.
Qed.

(** ** Armor *)

(** C4 (amended). Equipping an armor with hit-point bonus N raises both
    maxHP and hp by N; unequipping lowers maxHP by N and only clamps hp to
    the new maxHP.  The round trip restores maxHP exactly and leaves
    hp = min(hp + N, maxHP): the hit points it had before only when N = 0,
    or when N > 0 and the combatant was at full hit points. *)
Theorem C4_equip_unequip c a :
  let N := Armor.HPBonus a in
  GoInt.in_range (Character.HPMax c) -> GoInt.in_range (Character.HP c) ->
  GoInt.in_range (Character.HPMax c + N) -> GoInt.in_range (Character.HP c + N) ->
  Character.HP c <= Character.HPMax c ->
  let c1 := fst (Character.EquipArmor c a) in
  let c2 := Character.UnequipArmor c1 in
  Character.Armor c1 = Some a /\
  Character.HPMax c1 = Character.HPMax c + N /\
  Character.HP c1 = Character.HP c + N /\
  Character.Armor c2 = None /\
  Character.HPMax c2 = Character.HPMax c1 - N /\
  Character.HP c2 = Z.min (Character.HP c1) (Character.HPMax c2) /\
  Character.HPMax c2 = Character.HPMax c /\
  Character.HP c2 = Z.min (Character.HP c + N) (Character.HPMax c) /\
  (Character.HP c2 = Character.HP c <-> N = 0 \/ (0 < N /\ Character.HP c = Character.HPMax c)).
Proof.
  intros N Hm Hh HmN HhN Hle. cbv zeta.
  unfold Character.UnequipArmor, Character.EquipArmor. cbn.
  fold N. destruct (Z.eqb_spec N 0) as [E|E]; cbn; fold N.
  - rewrite E. destruct (Z.eqb_spec 0 0); [|done].
    unfold Character.HPMax, Character.HP in *. cbn.
    rewrite !Z.add_0_r, Z.sub_0_r. repeat split; intros; lia.
  - destruct (Z.eqb_spec N 0); [done|].
    unfold Character.HPMax, Character.HP in *. cbn.
    unfold GoInt.add, GoInt.sub. rewrite !wrap_id by done.
    rewrite wrap_id by (replace (Stats.HPMax (Character.Stats c) + N - N)
                          with (Stats.HPMax (Character.Stats c)) by lia; done).
    destruct (Z.ltb_spec (Stats.HPMax (Character.Stats c) + N - N)
                (Stats.HP (Character.Stats c) + N)); cbn;
      repeat split; intros; lia.
Qed.

(** C4 (as stated) fails: the wounded hero has 10 of 60 hit points; wearing
    and taking off the leather armor (bonus 5) leaves 15 of 60. *)
Lemma C4_counterexample :
  let c := Scenario.wounded in
  let c2 := Character.UnequipArmor (fst (Character.EquipArmor c Scenario.leather)) in
  Armor.HPBonus Scenario.leather = 5 /\
  (Character.HPMax c, Character.HP c) = (60, 10) /\
  (Character.HPMax c2, Character.HP c2) = (60, 15) /\
  Character.HP c2 <> Character.HP c.
Proof. repeat split. discriminate. Qed.

(** The wounded hero and the leather armor. *)
Lemma C4_witness :
  let c := Scenario.wounded in
  let c1 := fst (Character.EquipArmor c Scenario.leather) in
  let c2 := Character.UnequipArmor c1 in
  Character.HPMax c1 = 65 /\ Character.HP c1 = 15 /\
  Character.HPMax c2 = 60 /\ Character.HP c2 = Z.min (10 + 5) 60.
Proof.
  destruct (C4_equip_unequip Scenario.wounded Scenario.leather)
    as (_ & H1 & H2 & _ & _ & _ & H3 & H4 & _);
    try (vm_compute; split; discriminate); [vm_compute; discriminate|].
  cbv zeta. rewrite H1, H2, H3, H4. repeat split.
Defined.

(** ** End-of-turn ticks *)

Lemma end_turn_loop_kept name effs :
  fst (Character.end_turn_loop name effs) = Spec.tick_effects effs.
Proof.
  unfold Spec.tick_effects. induction effs as [|e rest IH]; [done|].
  cbn [Character.end_turn_loop map]. rewrite filter_cons.
  destruct (Character.end_turn_loop name rest) as [kept msgs]. cbn in IH. subst kept.
  destruct (Z.ltb_spec 0 (Effect.Duration (Effect.Tick e)));
    destruct (decide (0 < Effect.Duration (Effect.Tick e))); try lia; done.
Qed.

Lemma ApplyEffectsEndTurn_effects c :
  fst (Character.ApplyEffectsEndTurn c) =
    Character.with_Effects (Spec.tick_effects (Character.Effects c)) c.
Proof.
  unfold Character.ApplyEffectsEndTurn.
  rewrite <- (end_turn_loop_kept (Character.Name c)).
  by destruct (Character.end_turn_loop _ _).
Qed.

Lemma end_turns_effects n c :
  end_turns n c = Character.with_Effects (Nat.iter n Spec.tick_effects (Character.Effects c)) c.
Proof.
  induction n as [|n IH]; [by destruct c|].
  unfold end_turns in *. rewrite !Nat.iter_succ, IH, ApplyEffectsEndTurn_effects. done.
Qed.

Lemma tick_effects_app l1 l2 :
  Spec.tick_effects (l1 ++ l2) = Spec.tick_effects l1 ++ Spec.tick_effects l2.
Proof. unfold Spec.tick_effects. by rewrite map_app, filter_app. Qed.

Lemma iter_tick_effects_app n l1 l2 :
  Nat.iter n Spec.tick_effects (l1 ++ l2) =
    Nat.iter n Spec.tick_effects l1 ++ Nat.iter n Spec.tick_effects l2.
Proof.
  induction n as [|n IH]; [done|]. by rewrite !Nat.iter_succ, IH, tick_effects_app.
Qed.

Lemma iter_tick_effects_nil n : Nat.iter n Spec.tick_effects [] = [].
Proof. induction n as [|n IH]; [done|]. by rewrite Nat.iter_succ, IH. Qed.

Lemma iter_Tick_duration k e :
  1 <= Effect.Duration e <= GoInt.max_int -> Z.of_nat k <= Effect.Duration e ->
  Effect.Duration (Nat.iter k Effect.Tick e) = Effect.Duration e - Z.of_nat k.
Proof.
  intros Hd. induction k as [|k IH]; intros Hk; [cbn; lia|].
  rewrite Nat.iter_succ. cbn [Effect.Tick Effect.Duration]. rewrite IH by lia.
  unfold GoInt.sub. rewrite wrap_id; [lia|]. range. lia.
Qed.

(** A single effect with [d] rounds left survives [k < d] ticks and is gone
    at the [d]-th. *)
Lemma iter_tick_single k e :
  1 <= Effect.Duration e <= GoInt.max_int ->
  Nat.iter k Spec.tick_effects [e] =
    if decide (Z.of_nat k < Effect.Duration e) then [Nat.iter k Effect.Tick e] else [].
Proof.
  intros Hd. induction k as [|k IH].
  - cbn. destruct (decide _); [done|lia].
  - rewrite Nat.iter_succ, IH.
    destruct (decide (Z.of_nat k < Effect.Duration e)) as [Hk|Hk].
    + unfold Spec.tick_effects. cbn [map]. rewrite filter_cons, filter_nil.
      pose proof (iter_Tick_duration (S k) e Hd ltac:(lia)) as HS. rewrite Nat.iter_succ in HS.
      rewrite HS.
      destruct (decide (0 < _)); destruct (decide (Z.of_nat (S k) < _)); try lia; done.
    + destruct (decide (Z.of_nat (S k) < _)); [lia|done].
Qed.

(** C9. An effect attached to a combatant with d rounds left (d at least 1)
    is still in the effect list after every k < d end-of-turn ticks on its
    holder, with d - k rounds left, and is gone after exactly d ticks: each
    tick lowers every duration by one and drops the effects that reach 0.
    From then on the holder is as if the effect had never been attached, so
    its deltas no longer count in the effective attack, defense and speed. *)
Theorem C9_effect_expires c l1 e l2 :
  Character.Effects c = l1 ++ e :: l2 ->
  1 <= Effect.Duration e <= GoInt.max_int ->
  let d := Z.to_nat (Effect.Duration e) in
  let without := Character.with_Effects (l1 ++ l2) c in
  let before := fun k => Character.Effects (end_turns k (Character.with_Effects l1 c)) in
  let after := fun k => Character.Effects (end_turns k (Character.with_Effects l2 c)) in
  Character.Effects (fst (Character.ApplyEffectsEndTurn c))
    = Spec.tick_effects (Character.Effects c) /\
  Effect.Duration (Effect.Tick e) = Effect.Duration e - 1 /\
  (forall k, (k < d)%nat ->
     Character.Effects (end_turns k c) = before k ++ Nat.iter k Effect.Tick e :: after k /\
     Effect.Duration (Nat.iter k Effect.Tick e) = Effect.Duration e - Z.of_nat k) /\
  Character.Effects (end_turns d c) = before d ++ after d /\
  end_turns d c = end_turns d without /\
  Character.EffectiveAttack (end_turns d c) = Character.EffectiveAttack (end_turns d without) /\
  Character.EffectiveDefense (end_turns d c) = Character.EffectiveDefense (end_turns d without) /\
  Character.EffectiveSpeed (end_turns d c) = Character.EffectiveSpeed (end_turns d without).
Proof.
  intros Heff Hd d without before after.
  assert (Character.Effects (end_turns d c) = before d ++ after d) as Hgone.
  { subst before after. cbv beta. rewrite !end_turns_effects. cbn. rewrite Heff.
    rewrite (iter_tick_effects_app d l1 (e :: l2)).
    change (e :: l2) with ([e] ++ l2).
    rewrite iter_tick_effects_app, iter_tick_single by done.
    destruct (decide _) as [Hlt|_]; [subst d; lia|done]. }
  assert (end_turns d c = end_turns d without) as Hsame.
  { rewrite (end_turns_effects d c), (end_turns_effects d without).
    rewrite end_turns_effects in Hgone. cbn in Hgone. rewrite Hgone.
    subst before after without. cbv beta. rewrite !end_turns_effects. cbn.
    by rewrite iter_tick_effects_app. }
  split; [by rewrite ApplyEffectsEndTurn_effects|].
  split.
  { cbn. unfold GoInt.sub. rewrite wrap_id; [done|]. range. lia. }
  split.
  { intros k Hk. split.
    - subst before after. cbv beta. rewrite !end_turns_effects. cbn. rewrite Heff.
      rewrite (iter_tick_effects_app k l1 (e :: l2)).
      change (e :: l2) with ([e] ++ l2).
      rewrite iter_tick_effects_app, iter_tick_single by done.
      destruct (decide _) as [_|Hge]; [done|subst d; lia].
    - apply iter_Tick_duration; [done|subst d; lia]. }
  split; [done|]. split; [done|]. by rewrite Hsame.
Qed.

(** Slow, with two rounds left, between two blessings. *)
Lemma C9_witness :
  Effect.Duration Scenario.slow = 2 /\
  Character.Effects (end_turns 1 Scenario.slowed)
    = [Effect.Tick Scenario.bless; Effect.Tick Scenario.slow; Effect.Tick Scenario.bless] /\
  Character.Effects (end_turns 2 Scenario.slowed)
    = [Effect.Tick (Effect.Tick Scenario.bless); Effect.Tick (Effect.Tick Scenario.bless)] /\
  Character.EffectiveSpeed (end_turns 2 Scenario.slowed)
    = Character.EffectiveSpeed
        (end_turns 2 (Character.with_Effects [Scenario.bless; Scenario.bless] Scenario.slowed)).
Proof.
  destruct (C9_effect_expires Scenario.slowed [Scenario.bless] Scenario.slow [Scenario.bless])
    as (_ & _ & _ & _ & _ & _ & _ & Hspeed); [reflexivity|vm_compute; split; discriminate|].
  split; [reflexivity|]. split; [reflexivity|]. split; [reflexivity|]. exact Hspeed.
Defined.

(** ** Skills and MP *)

(** C8. A skill whose MP cost exceeds the actor's current MP is aborted with
    no state change: the heap (so the actor's mp, every hp, every effect
    list) is untouched, no random draw is consumed, and the only thing that
    happens is one failed-attempt line in the log. *)
Theorem C8_insufficient_mp draws w c idx targets me s :
  heap w !! c = Some me ->
  0 <= idx ->
  Character.Skills me !! Z.to_nat idx = Some s ->
  Character.MP me < Skill.MPCost s ->
  UseSkillAt draws c idx targets w =
    Ok tt (mkWorld (heap w) (rand_pos w)
             (out w ++ [Character.Name me +:+ " lacks MP for " +:+ Skill.Name s])).
Proof.
  intros Hc H0 Hs Hmp. unfold UseSkillAt.
  rewrite (bind_ok _ _ _ _ _ (deref_ok _ _ _ Hc)).
  pose proof (lookup_lt_Some _ _ _ Hs) as Hlen.
  destruct (Z.ltb_spec idx 0); [lia|].
  destruct (Z.leb_spec (Z.of_nat (length (Character.Skills me))) idx); [lia|].
  cbn [orb]. rewrite Hs.
  erewrite bind_ok; [|by apply invoke_ok]. unfold Character.UseMP.
  destruct (Z.ltb_spec (Character.MP me) (Skill.MPCost s)); [|lia].
  unfold logFunc. cbn. by rewrite list_insert_id.
Qed.

(** The cleric with 5 MP tries the healing that costs 8. *)
Lemma C8_witness :
  Character.MP Scenario.cleric = 5 /\ Skill.MPCost Scenario.heal8 = 8 /\
  UseSkillAt Scenario.zeros 0%nat 0 [Some 0%nat] Scenario.chapel_world =
    Ok tt (mkWorld (heap Scenario.chapel_world) 0 ["Cleric lacks MP for Heal"%string]).
Proof.
  split; [reflexivity|]. split; [reflexivity|].
  apply (C8_insufficient_mp Scenario.zeros Scenario.chapel_world 0%nat 0 [Some 0%nat]
           Scenario.cleric Scenario.heal8); [reflexivity|lia|reflexivity|].
  vm_compute. reflexivity.
Defined.

(** ** Sorting *)

Section InsertionFacts.
Context {A : Type}.
Variable goes_before : A -> A -> bool.

Lemma sink_perm x rp : Permutation (x :: rp) (Sorters.sink goes_before x rp).
Proof.
  induction rp as [|y rp IH]; cbn [Sorters.sink]; [done|].
  destruct (goes_before x y); [|done].
  rewrite <- IH. apply perm_swap.
Qed.

Lemma fold_sink_perm l acc :
  Permutation (l ++ acc) (fold_left (fun rp x => Sorters.sink goes_before x rp) l acc).
Proof.
  revert acc. induction l as [|x l IH]; intros acc; cbn [fold_left app]; [done|].
  rewrite <- IH, <- sink_perm. by rewrite Permutation_middle.
Qed.

Lemma insertion_perm l : Permutation l (Sorters.insertion goes_before l).
Proof.
  unfold Sorters.insertion. rewrite <- Permutation_rev.
  rewrite <- fold_sink_perm. by rewrite app_nil_r.
Qed.

Variable key : A -> Z.
Hypothesis before_true : forall x y, goes_before x y = true -> key y <= key x.
Hypothesis before_false : forall x y, goes_before x y = false -> key x <= key y.

Let ascending := StronglySorted (fun a b => key a <= key b).

Lemma sink_bound x rp z :
  key z <= key x -> Forall (fun b => key z <= key b) rp ->
  Forall (fun b => key z <= key b) (Sorters.sink goes_before x rp).
Proof.
  intros Hx. induction rp as [|y rp IH]; cbn [Sorters.sink]; intros HF.
  - by constructor.
  - inversion HF; subst. destruct (goes_before x y); constructor; auto.
Qed.

Lemma sink_sorted x rp : ascending rp -> ascending (Sorters.sink goes_before x rp).
Proof.
  unfold ascending. induction rp as [|y rp IH]; cbn [Sorters.sink]; intros HS.
  - repeat constructor.
  - apply StronglySorted_inv in HS as [HS Hy].
    destruct (goes_before x y) eqn:E.
    + constructor; [by apply IH|]. apply sink_bound; [by apply before_true|done].
    + constructor; [by constructor|].
      apply before_false in E. constructor; [done|].
      eapply Forall_impl; [exact Hy|]. cbn. intros; lia.
Qed.

Lemma fold_sink_sorted l acc :
  ascending acc -> ascending (fold_left (fun rp x => Sorters.sink goes_before x rp) l acc).
Proof.
  revert acc. induction l as [|x l IH]; intros acc Hacc; cbn [fold_left]; [done|].
  by apply IH, sink_sorted.
Qed.

Lemma rev_descending l :
  ascending l -> StronglySorted (fun a b => key b <= key a) (rev l).
Proof.
  unfold ascending. induction l as [|x l IH]; intros HS; cbn [rev]; [constructor|].
  apply StronglySorted_inv in HS as [HS Hx].
  apply StronglySorted_app_2; [|by apply IH|repeat constructor].
  intros x1 x2 H1 H2. apply list_elem_of_singleton in H2 as ->.
  rewrite Forall_forall in Hx. apply Hx.
  apply list_elem_of_In, in_rev. by apply list_elem_of_In.
Qed.

Lemma insertion_sorted l :
  StronglySorted (fun a b => key b <= key a) (Sorters.insertion goes_before l).
Proof. apply rev_descending, fold_sink_sorted. constructor. Qed.
End InsertionFacts.

Lemma sink_ext {A} (f g : A -> A -> bool) x rp :
  (forall y, y ∈ rp -> f x y = g x y) -> Sorters.sink f x rp = Sorters.sink g x rp.
Proof.
  induction rp as [|y rp IH]; cbn [Sorters.sink]; intros H; [done|].
  rewrite <- (H y) by apply list_elem_of_here. rewrite IH; [done|].
  intros z Hz. apply H. by apply list_elem_of_further.
Qed.

Lemma fold_sink_ext {A} (f g : A -> A -> bool) l acc :
  (forall p q, p ∈ l ++ acc -> q ∈ l ++ acc -> f p q = g p q) ->
  fold_left (fun rp x => Sorters.sink f x rp) l acc =
  fold_left (fun rp x => Sorters.sink g x rp) l acc.
Proof.
  revert acc. induction l as [|x l IH]; intros acc H; cbn [fold_left]; [done|].
  rewrite (sink_ext f g x acc).
  2:{ intros y Hy. apply H; [apply list_elem_of_here|].
      apply elem_of_app. by right. }
  apply IH. intros p q Hp Hq.
  assert (forall z, z ∈ l ++ Sorters.sink g x acc -> z ∈ (x :: l) ++ acc) as Hin.
  { intros z Hz. rewrite elem_of_app in Hz. destruct Hz as [Hz|Hz].
    - by apply list_elem_of_further, elem_of_app; left.
    - apply list_elem_of_In in Hz.
      apply (Permutation_in _ (Permutation_sym (sink_perm g x acc))) in Hz.
      apply list_elem_of_In, elem_of_cons in Hz. destruct Hz as [->|Hz].
      + apply list_elem_of_here.
      + by apply list_elem_of_further, elem_of_app; right. }
  apply H; by apply Hin.
Qed.

Lemma insertion_ext {A} (f g : A -> A -> bool) l :
  (forall p q, p ∈ l -> q ∈ l -> f p q = g p q) ->
  Sorters.insertion f l = Sorters.insertion g l.
Proof.
  intros H. unfold Sorters.insertion. f_equal. apply fold_sink_ext.
  rewrite app_nil_r. exact H.
Qed.

Lemma insertionSort_sorts : sorts Sorters.insertionSort.
Proof.
  split.
  - intros less l. apply insertion_perm.
  - intros key l. apply insertion_sorted; intros x y H; lia.
  - intros f g l H. by apply insertion_ext.
Qed.

(** The insertion sort keeps the elements of one key in their order. *)
Section InsertionStable.
Context {A : Type}.
Variable goes_before : A -> A -> bool.
Variable key : A -> Z.
Hypothesis before_strict : forall x y, goes_before x y = true -> key x <> key y.
Variable v : Z.

Let pick (l : list A) : list A := filter (fun x => key x = v) l.

Lemma sink_stable x rp :
  pick (rev (Sorters.sink goes_before x rp)) = pick (rev rp ++ [x]).
Proof.
  unfold pick. induction rp as [|y rp IH]; cbn [Sorters.sink]; [done|].
  destruct (goes_before x y) eqn:E; [|done].
  apply before_strict in E. cbn [rev].
  rewrite !filter_app, IH, !filter_app, <- !app_assoc. f_equal.
  rewrite !filter_cons, !filter_nil.
  repeat case_decide; try reflexivity; congruence.
Qed.

Lemma fold_sink_stable l acc :
  pick (rev (fold_left (fun rp x => Sorters.sink goes_before x rp) l acc))
  = pick (rev acc ++ l).
Proof.
  revert acc. induction l as [|x l IH]; intros acc; cbn [fold_left].
  - by rewrite app_nil_r.
  - rewrite IH. unfold pick.
    replace (rev acc ++ x :: l) with ((rev acc ++ [x]) ++ l) by (by rewrite <- app_assoc).
    rewrite !(filter_app _ _ l). f_equal. apply sink_stable.
Qed.

Lemma insertion_stable l : pick (Sorters.insertion goes_before l) = pick l.
Proof. unfold Sorters.insertion. by rewrite fold_sink_stable. Qed.
End InsertionStable.

Lemma Slice_short less data :
  (length data <= GoSort.maxInsertion)%nat ->
  GoSort.Slice less data = Some (Sorters.insertionSort less data).
Proof.
  intros H. unfold GoSort.Slice, GoSort.pdqsort_func.
  rewrite Nat.sub_0_r. apply Nat.leb_le in H. rewrite H.
  unfold GoSort.insertionSort_func.
  by rewrite Nat.sub_0_r, drop_0, take_0, firstn_all, drop_all, app_nil_r.
Qed.

Lemma insertionSort_library_short : library_sort_short Sorters.insertionSort.
Proof. intros less data. apply Slice_short. Qed.

Lemma library_sort_is_short sort_Slice : library_sort sort_Slice -> library_sort_short sort_Slice.
Proof.
  intros H less data Hl. rewrite Slice_short by done. f_equal. symmetry.
  apply H. by apply Slice_short.
Qed.

(** ** The turn order *)

Lemma turn_order_inv sort_Slice b w order w' :
  turn_order sort_Slice b w = Ok order w' ->
  w' = w /\
  order = sort_Slice (faster (heap w)) (Battle.Players b ++ Battle.Enemies b) /\
  Forall (fun p => is_Some (heap w !! p)) (Battle.Players b ++ Battle.Enemies b).
Proof.
  unfold turn_order, snapshot, mbind, M_bind.
  destruct (forallb _ _) eqn:E; [|done]. intros H. inversion H; subst.
  repeat split. rewrite forallb_forall in E. apply Forall_forall. intros p Hp.
  apply list_elem_of_In in Hp. specialize (E p Hp). by apply bool_decide_eq_true in E.
Qed.

(** C6 (amended). Each round the scheduler sorts the combined list, players
    first and then enemies, with [sort.Slice] by descending effective speed.
    The turn order is a rearrangement of the combined list in which no
    combatant comes after one that is strictly slower, and it is a function
    of the state alone: no random draw is consumed and the state is left as
    it is.  With at most 12 combatants in all, the case in which the
    library sorts by insertion, the combatants of any one effective speed
    act in roster order.  Nothing is promised on the order among equals
    when there are more. *)
Theorem C6_turn_order sort_Slice b w :
  sorts sort_Slice ->
  let all := Battle.Players b ++ Battle.Enemies b in
  (Forall (fun p => is_Some (heap w !! p)) all ->
   exists order, turn_order sort_Slice b w = Ok order w) /\
  (forall order w',
     turn_order sort_Slice b w = Ok order w' ->
     w' = w /\
     Permutation all order /\
     StronglySorted (fun p q => speed_of (heap w) q <= speed_of (heap w) p) order /\
     Forall (fun p => exists c, heap w !! p = Some c /\
                                speed_of (heap w) p = Character.EffectiveSpeed c) order /\
     (library_sort_short sort_Slice -> (length all <= 12)%nat ->
      forall v, with_speed (heap w) v order = with_speed (heap w) v all)).
Proof.
  intros Hs all. split.
  - intros Hall. eexists. unfold turn_order, snapshot, mbind, M_bind.
    replace (forallb _ _) with true; [reflexivity|].
    symmetry. apply forallb_forall. intros p Hp. apply bool_decide_eq_true.
    rewrite Forall_forall in Hall. apply Hall. by apply list_elem_of_In.
  - intros order w' H. apply turn_order_inv in H as (-> & -> & Hall).
    split; [done|]. split; [apply (sorts_perm _ Hs)|]. split.
    { apply (sorts_sorted _ Hs (speed_of (heap w))). }
    split.
    + rewrite Forall_forall in *. intros p Hp.
      assert (p ∈ all) as Hin.
      { apply list_elem_of_In. eapply Permutation_in.
        - apply Permutation_sym, (sorts_perm _ Hs).
        - apply list_elem_of_In. exact Hp. }
      destruct (Hall p Hin) as [c Hc]. exists c. split; [done|].
      unfold speed_of. by rewrite Hc.
    + intros Hlib Hlen v. subst all.
      specialize (Hlib (faster (heap w)) _ Hlen).
      rewrite Slice_short in Hlib by exact Hlen. injection Hlib as Heq.
      rewrite <- Heq. unfold with_speed, Sorters.insertionSort.
      apply (insertion_stable (faster (heap w)) (speed_of (heap w))).
      unfold faster. intros x y Hxy. apply Z.ltb_lt in Hxy. lia.
Qed.

(** C6 (as stated) fails with 13 combatants.  Twelve players of effective
    speed 5 are followed by an enemy of effective speed 9; the library
    puts the enemy first and then the 7th player, before the six that come
    before it in the roster, and the 2nd player last. *)
Lemma C6_counterexample :
  Battle.Players Crowd.crowd ++ Battle.Enemies Crowd.crowd = seq 0 13 /\
  speed_of Crowd.crowd_heap <$> seq 0 13 = [5; 5; 5; 5; 5; 5; 5; 5; 5; 5; 5; 5; 9] /\
  GoSort.Slice (faster Crowd.crowd_heap) (seq 0 13)
    = Some [12; 6; 2; 3; 4; 5; 0; 7; 8; 9; 10; 11; 1]%nat /\
  (forall sort_Slice,
     library_sort sort_Slice ->
     turn_order sort_Slice Crowd.crowd Crowd.crowd_world
       = Ok [12; 6; 2; 3; 4; 5; 0; 7; 8; 9; 10; 11; 1]%nat Crowd.crowd_world) /\
  with_speed Crowd.crowd_heap 5 [12; 6; 2; 3; 4; 5; 0; 7; 8; 9; 10; 11; 1]%nat
    <> with_speed Crowd.crowd_heap 5 (seq 0 13).
Proof.
  split; [reflexivity|]. split; [vm_compute; reflexivity|].
  assert (GoSort.Slice (faster Crowd.crowd_heap) (seq 0 13)
          = Some [12; 6; 2; 3; 4; 5; 0; 7; 8; 9; 10; 11; 1]%nat) as HS
    by (vm_compute; reflexivity).
  split; [exact HS|]. split.
  - intros sort_Slice Hlib. apply Hlib in HS.
    unfold turn_order, snapshot, mbind, M_bind.
    replace (forallb _ _) with true by (vm_compute; reflexivity).
    cbn [mret M_ret]. change (heap Crowd.crowd_world) with Crowd.crowd_heap.
    change (Battle.Players Crowd.crowd ++ Battle.Enemies Crowd.crowd) with (seq 0 13).
    by rewrite HS.
  - vm_compute. discriminate.
Qed.

(** Combatants with speeds 7, 5, 4 and 6 act in the order 7, 6, 5, 4; of two
    players of speed 5 and an enemy of speed 7, the enemy acts first and the
    players follow in roster order. *)
Lemma C6_witness :
  (exists order,
     turn_order Sorters.insertionSort Scenario.party Scenario.party_world
       = Ok order Scenario.party_world /\
     Permutation [0; 1; 2; 3]%nat order /\
     StronglySorted
       (fun p q => speed_of Scenario.party_heap q <= speed_of Scenario.party_heap p) order /\
     order = [0; 3; 1; 2]%nat /\
     speed_of Scenario.party_heap <$> order = [7; 6; 5; 4]) /\
  (exists order,
     turn_order Sorters.insertionSort Scenario.tie_battle Scenario.tie_world
       = Ok order Scenario.tie_world /\
     with_speed Scenario.tie_heap 5 order = [0; 1]%nat /\
     order = [2; 0; 1]%nat).
Proof.
  split.
  - destruct (C6_turn_order Sorters.insertionSort Scenario.party Scenario.party_world
                insertionSort_sorts) as [Hex Hprop].
    destruct Hex as [order Hord].
    { repeat constructor; eexists; reflexivity. }
    exists order. split; [exact Hord|].
    destruct (Hprop order _ Hord) as (_ & Hperm & Hsorted & _).
    split; [exact Hperm|]. split; [exact Hsorted|].
    vm_compute in Hord. injection Hord as <-. split; reflexivity.
  - destruct (C6_turn_order Sorters.insertionSort Scenario.tie_battle Scenario.tie_world
                insertionSort_sorts) as [Hex Hprop].
    destruct Hex as [order Hord].
    { repeat constructor; eexists; reflexivity. }
    exists order. split; [exact Hord|].
    destruct (Hprop order _ Hord) as (_ & _ & _ & _ & Hstable).
    split.
    + rewrite (Hstable insertionSort_library_short); [reflexivity|vm_compute; lia].
    + vm_compute in Hord. by injection Hord as <-.
Defined.

(** ** The choice of targets *)

(** What the lines of [Turn] that pick the targets do, case by case. *)
Lemma skill_targets_cases actor a s first targets :
  (Skill.TargetAll s = true ->
   skill_targets actor a s first targets = map Some targets) /\
  (Skill.TargetAll s = false -> 0 < Skill.HealHP s ->
   skill_targets actor a s first targets = [Some actor]) /\
  (Skill.TargetAll s = false -> Skill.HealHP s <= 0 ->
   Character.Team a = "player"%string \/ GoInt.half (Character.HPMax a) <= Character.HP a ->
   skill_targets actor a s first targets = [first]) /\
  (Skill.TargetAll s = false -> Skill.HealHP s <= 0 ->
   Character.Team a <> "player"%string -> Character.HP a < GoInt.half (Character.HPMax a) ->
   skill_targets actor a s first targets = [Some actor]).
Proof.
  unfold skill_targets. repeat split; intros HT; rewrite HT; try done.
  - intros Hh. by destruct (Z.ltb_spec 0 (Skill.HealHP s)); [|lia].
  - intros Hh Hor. destruct (Z.ltb_spec 0 (Skill.HealHP s)); [lia|]. cbn [orb].
    destruct Hor as [Ht|Hhp].
    + rewrite Ht. cbn. by rewrite andb_false_r.
    + by destruct (Z.ltb_spec (Character.HP a) (GoInt.half (Character.HPMax a))); [lia|].
  - intros Hh Ht Hhp. destruct (Z.ltb_spec 0 (Skill.HealHP s)); [lia|]. cbn [orb].
    destruct (Z.ltb_spec (Character.HP a) (GoInt.half (Character.HPMax a))); [|lia].
    destruct (String.eqb_spec (Character.Team a) "player"); [done|]. done.
Qed.

(** C5 (the code at the failing input). The wounded Shaman (4 of 10 hit
    points, enemy team) casts Bolt, a damage skill with [HealHP = 0] that
    does not target all: the target list is the Shaman itself, not the first
    living player, and the round's log shows the Shaman hitting, and
    killing, itself. *)
Theorem C5_damage_skill_redirected :
  Skill.HealHP Scenario.bolt = 0 /\
  Skill.TargetAll Scenario.bolt = false /\
  (Character.Team Scenario.shaman, Character.HP Scenario.shaman,
   Character.HPMax Scenario.shaman) = ("enemy"%string, 4, 10) /\
  Scenario.shaman_heap !! 1%nat = Some Scenario.shaman /\
  skill_targets 1%nat Scenario.shaman Scenario.bolt (Some 0%nat) [0%nat] = [Some 1%nat] /\
  exists b' w',
    Turn Scenario.zeros Sorters.insertionSort Scenario.shaman_battle Scenario.shaman_world
      = Ok b' w' /\
    out w' = [ "=== Round 1 ==="; "Shaman is thinking..."; "Shaman uses skill Bolt";
               "Shaman deals 5 damage to Shaman with Bolt"; "Shaman died!" ]%string /\
    Character.HP <$> heap w' = [10; 0] /\
    Character.Alive <$> heap w' = [true; false].
Proof.
  do 5 (split; [reflexivity|]).
  destruct (Turn _ _ _ _) as [b' w'| |] eqn:E; vm_compute in E; try discriminate.
  inversion E; subst. eexists _, _. split; [reflexivity|]. by vm_compute.
Qed.

(** ** Relations on characters that every step of a battle respects *)

Create HintDb pres.

Section Preservation.
Variable Q : Character.t -> Character.t -> Prop.
Hypothesis Q_refl : forall c, Q c c.
Hypothesis Q_trans : forall a b c, Q a b -> Q b c -> Q a c.
Hypothesis Q_TakeDamage : forall c amount dtype,
    Q c (fst (Character.TakeDamage c amount dtype)).
Hypothesis Q_Heal : forall c amount, Q c (Character.Heal c amount).
Hypothesis Q_UseMP : forall c amount, Q c (fst (Character.UseMP c amount)).
Hypothesis Q_AddEffect : forall c e, Q c (fst (Character.AddEffect c e)).
Hypothesis Q_EndTurn : forall c, Q c (fst (Character.ApplyEffectsEndTurn c)).

Variable draws : nat -> Z.
Variable sort_Slice : (ptr -> ptr -> bool) -> list ptr -> list ptr.

Lemma related_refl w : related Q w w.
Proof. unfold related. by apply Forall_Forall2_diag, Forall_forall. Qed.

Lemma related_trans w1 w2 w3 : related Q w1 w2 -> related Q w2 w3 -> related Q w1 w3.
Proof.
  unfold related. intros H12 H23.
  eapply Forall2_trans; [|exact H12|exact H23]. eauto.
Qed.

Lemma related_same_heap w w' : heap w' = heap w -> related Q w w'.
Proof. unfold related. intros ->. apply related_refl. Qed.

Lemma preserves_ret {A} (a : A) : preserves Q (mret a).
Proof. intros w a' w' H. inversion H; subst. apply related_refl. Qed.

Lemma preserves_bind {A B} (m : M A) (k : A -> M B) :
  preserves Q m -> (forall a, preserves Q (k a)) -> preserves Q (m ≫= k).
Proof.
  intros Hm Hk w b w2 H. apply bind_inv in H as (a & w1 & H1 & H2).
  eapply related_trans; [eapply Hm|eapply Hk]; eauto.
Qed.

Lemma preserves_panic {A} : preserves Q (@panic A).
Proof. by intros w a w'. Qed.

Lemma preserves_timeout {A} : preserves Q (@out_of_fuel A).
Proof. by intros w a w'. Qed.

Lemma preserves_deref p : preserves Q (deref p).
Proof. intros w c w' H. apply deref_inv in H as [_ ->]. apply related_refl. Qed.

Lemma preserves_logFunc msg : preserves Q (logFunc msg).
Proof. intros w a w' H. inversion H. by apply related_same_heap. Qed.

Lemma preserves_logAll msgs : preserves Q (logAll msgs).
Proof. intros w a w' H. inversion H. by apply related_same_heap. Qed.

Lemma preserves_snapshot : preserves Q snapshot.
Proof. intros w a w' H. inversion H; subst. apply related_refl. Qed.

Lemma preserves_rand_Intn n : preserves Q (rand_Intn draws n).
Proof.
  intros w a w'. unfold rand_Intn. destruct (n <=? 0); [done|].
  intros H. inversion H. by apply related_same_heap.
Qed.

Lemma preserves_rand_Float64 : preserves Q (rand_Float64 draws).
Proof. intros w a w' H. inversion H. by apply related_same_heap. Qed.

Lemma preserves_invoke {B} p (f : Character.t -> Character.t * B) :
  (forall c, Q c (fst (f c))) -> preserves Q (invoke p f).
Proof.
  intros Hf w b w' H. unfold invoke in H.
  apply bind_inv in H as (c & w1 & H1 & H2). apply deref_inv in H1 as [Hc ->].
  specialize (Hf c). destruct (f c) as [c' b']. cbn in Hf.
  inversion H2; subst. unfold related. cbn.
  rewrite <- (list_insert_id _ _ _ Hc) at 1.
  apply Forall2_insert; [apply related_refl with (w := w)|done].
Qed.

Lemma preserves_call p f :
  (forall c, Q c (fst (f c))) -> preserves Q (call p f).
Proof.
  intros Hf. apply preserves_bind; [by apply preserves_invoke|].
  intros. apply preserves_logAll.
Qed.

Lemma Q_StartTurn c : Q c (fst (Character.ApplyEffectsStartTurn c)).
Proof.
  unfold Character.ApplyEffectsStartTurn. destruct (_ =? 0); [apply Q_refl|].
  specialize (Q_TakeDamage c (Character.total_dot (Character.Effects c)) Pure).
  by destruct (Character.TakeDamage _ _ _).
Qed.

Hint Resolve preserves_ret preserves_panic preserves_timeout preserves_deref
  preserves_logFunc preserves_logAll preserves_snapshot preserves_rand_Intn
  preserves_rand_Float64 Q_StartTurn : pres.

(** Walk through a monadic term: split binds, branch on tests. *)
Ltac pres_step :=
  match goal with
  | |- preserves _ (_ ≫= _) => apply preserves_bind; [|intros]
  | |- preserves _ (if ?b then _ else _) => destruct b
  | |- preserves _ (match ?x with _ => _ end) => destruct x
  | |- preserves _ (call _ _) => apply preserves_call; intros; cbv beta; cbn [fst]; auto with pres
  | |- preserves _ (invoke _ _) => apply preserves_invoke; intros; cbv beta; cbn [fst]; auto with pres
  | |- preserves _ _ => solve [eauto with pres]
  end.
Ltac pres := repeat pres_step.

Lemma preserves_crit_roll me amount line : preserves Q (crit_roll draws me amount line).
Proof. unfold crit_roll. pres. Qed.

Lemma preserves_BasicAttack c target : preserves Q (BasicAttack draws c target).
Proof. unfold BasicAttack. pres; apply preserves_crit_roll. Qed.

Lemma preserves_add_skill_effect s t : preserves Q (add_skill_effect s t).
Proof. unfold add_skill_effect. pres. Qed.

Hint Resolve preserves_crit_roll preserves_BasicAttack preserves_add_skill_effect : pres.

Lemma preserves_damage_loop c s targets : preserves Q (damage_loop draws c s targets).
Proof.
  induction targets as [|t rest IH]; cbn [damage_loop]; pres.
Qed.

Lemma preserves_heal_loop c s targets : preserves Q (heal_loop c s targets).
Proof.
  induction targets as [|t rest IH]; cbn [heal_loop]; pres.
Qed.

Hint Resolve preserves_damage_loop preserves_heal_loop : pres.

Lemma preserves_UseSkillAt c idx targets : preserves Q (UseSkillAt draws c idx targets).
Proof. unfold UseSkillAt. pres. Qed.

Lemma preserves_chooseFirstAlive l : preserves Q (chooseFirstAlive l).
Proof. induction l as [|p rest IH]; cbn [chooseFirstAlive]; pres. Qed.

Lemma preserves_all_dead_loop l : preserves Q (all_dead_loop l).
Proof. induction l as [|p rest IH]; cbn [all_dead_loop]; pres. Qed.

Hint Resolve preserves_UseSkillAt preserves_chooseFirstAlive preserves_all_dead_loop : pres.

Lemma preserves_AllDead b team : preserves Q (AllDead b team).
Proof. unfold AllDead. pres. Qed.

Hint Resolve preserves_AllDead : pres.

Lemma preserves_battle_over b : preserves Q (battle_over b).
Proof. unfold battle_over. pres. Qed.

Lemma preserves_try_skill actor targets : preserves Q (try_skill draws actor targets).
Proof. unfold try_skill. pres. Qed.

Hint Resolve preserves_battle_over preserves_try_skill : pres.

Lemma preserves_actor_turn b actor : preserves Q (actor_turn draws b actor).
Proof. unfold actor_turn. pres. Qed.

Hint Resolve preserves_actor_turn : pres.

Lemma preserves_turn_loop b all : preserves Q (turn_loop draws b all).
Proof. induction all as [|p rest IH]; cbn [turn_loop]; pres. Qed.

Lemma preserves_turn_order b : preserves Q (turn_order sort_Slice b).
Proof. unfold turn_order. pres. Qed.

Hint Resolve preserves_turn_loop preserves_turn_order : pres.

Lemma preserves_Turn b : preserves Q (Turn draws sort_Slice b).
Proof. unfold Turn. pres. Qed.

Hint Resolve preserves_Turn : pres.

Lemma preserves_run_loop fuel b : preserves Q (run_loop draws sort_Slice fuel b).
Proof.
  revert b. induction fuel as [|fuel IH]; intros b; cbn [run_loop]; pres.
Qed.

Hint Resolve preserves_run_loop : pres.

Lemma preserves_Run fuel b : preserves Q (Run draws sort_Slice fuel b).
Proof. unfold Run. pres. Qed.
End Preservation.

(** ** Death is final at every step *)

Lemma stays_dead_refl c : stays_dead c c.
Proof. by unfold stays_dead. Qed.

Lemma stays_dead_trans a b c : stays_dead a b -> stays_dead b c -> stays_dead a c.
Proof. unfold stays_dead. auto. Qed.

Lemma stays_dead_TakeDamage c amount dtype :
  stays_dead c (fst (Character.TakeDamage c amount dtype)).
Proof. intros Hd. unfold Character.TakeDamage. by destruct (_ <=? 0). Qed.

Lemma stays_dead_Heal c amount : stays_dead c (Character.Heal c amount).
Proof. intros Hd. unfold Character.Heal. by destruct (_ <? _). Qed.

Lemma stays_dead_UseMP c amount : stays_dead c (fst (Character.UseMP c amount)).
Proof. intros Hd. unfold Character.UseMP. by destruct (_ <? _). Qed.

Lemma stays_dead_AddEffect c e : stays_dead c (fst (Character.AddEffect c e)).
Proof. by unfold stays_dead. Qed.

Lemma stays_dead_EndTurn c : stays_dead c (fst (Character.ApplyEffectsEndTurn c)).
Proof.
  intros Hd. unfold Character.ApplyEffectsEndTurn.
  by destruct (Character.end_turn_loop _ _).
Qed.

Lemma stays_dead_StartTurn c : stays_dead c (fst (Character.ApplyEffectsStartTurn c)).
Proof.
  apply Q_StartTurn; [apply stays_dead_refl|apply stays_dead_TakeDamage].
Qed.

Lemma records_ret {A} (a : A) : records (Traced.ret a) (mret a).
Proof. by intros w. Qed.

Lemma records_step {A} (m : M A) : records (Traced.step m) m.
Proof. intros w. unfold Traced.forget, Traced.step. by destruct (m w). Qed.

Lemma records_bind {A B} (mT : Traced.T A) (m : M A) (kT : A -> Traced.T B) (k : A -> M B) :
  records mT m -> (forall a, records (kT a) (k a)) ->
  records (Traced.bind mT kT) (m ≫= k).
Proof.
  intros Hm Hk w. specialize (Hm w).
  unfold Traced.forget, Traced.bind, mbind, M_bind in *.
  destruct (mT w) as [[a t1] w1| |]; rewrite <- Hm; [|done..].
  specialize (Hk a w1). unfold Traced.forget in Hk.
  by destruct (kT a w1) as [[b t2] w2| |].
Qed.

Ltac rec_step :=
  match goal with
  | |- records (Traced.ret _) _ => apply records_ret
  | |- records (Traced.step _) _ => apply records_step
  | |- records (Traced.bind _ _) _ => apply records_bind; [|intros]
  | |- records (if ?b then _ else _) _ => destruct b
  | |- records (match ?x with _ => _ end) _ => destruct x
  | |- records _ _ => solve [eauto]
  end.
Ltac recs := repeat rec_step.

Section Records.
Variable draws : nat -> Z.
Variable sort_Slice : (ptr -> ptr -> bool) -> list ptr -> list ptr.

Lemma records_BasicAttack c target :
  records (Traced.BasicAttack draws c target) (BasicAttack draws c target).
Proof. unfold Traced.BasicAttack, BasicAttack. recs. Qed.

Lemma records_add_skill_effect s t :
  records (Traced.add_skill_effect s t) (add_skill_effect s t).
Proof. unfold Traced.add_skill_effect, add_skill_effect. recs. Qed.

Lemma records_damage_loop c s targets :
  records (Traced.damage_loop draws c s targets) (damage_loop draws c s targets).
Proof.
  pose proof records_add_skill_effect.
  induction targets as [|t rest IH]; cbn [Traced.damage_loop damage_loop]; recs.
Qed.

Lemma records_heal_loop c s targets :
  records (Traced.heal_loop c s targets) (heal_loop c s targets).
Proof.
  pose proof records_add_skill_effect.
  induction targets as [|t rest IH]; cbn [Traced.heal_loop heal_loop]; recs.
Qed.

Lemma records_UseSkillAt c idx targets :
  records (Traced.UseSkillAt draws c idx targets) (UseSkillAt draws c idx targets).
Proof.
  pose proof records_damage_loop. pose proof records_heal_loop.
  unfold Traced.UseSkillAt, UseSkillAt. recs.
Qed.

Lemma records_try_skill actor targets :
  records (Traced.try_skill draws actor targets) (try_skill draws actor targets).
Proof. pose proof records_UseSkillAt. unfold Traced.try_skill, try_skill. recs. Qed.

Lemma records_actor_turn b actor :
  records (Traced.actor_turn draws b actor) (actor_turn draws b actor).
Proof.
  pose proof records_try_skill. pose proof records_BasicAttack.
  unfold Traced.actor_turn, actor_turn. recs.
Qed.

Lemma records_turn_loop b all :
  records (Traced.turn_loop draws b all) (turn_loop draws b all).
Proof.
  pose proof records_actor_turn.
  induction all as [|p rest IH]; cbn [Traced.turn_loop turn_loop]; recs.
Qed.

Lemma records_Turn b :
  records (Traced.Turn draws sort_Slice b) (Turn draws sort_Slice b).
Proof. pose proof records_turn_loop. unfold Traced.Turn, Turn. recs. Qed.

Lemma records_run_loop fuel b :
  records (Traced.run_loop draws sort_Slice fuel b) (run_loop draws sort_Slice fuel b).
Proof.
  pose proof records_Turn.
  revert b. induction fuel as [|fuel IH]; intros b; cbn [Traced.run_loop run_loop]; recs.
Qed.

Lemma records_Run fuel b :
  records (Traced.Run draws sort_Slice fuel b) (Run draws sort_Slice fuel b).
Proof. pose proof records_run_loop. unfold Traced.Run, Run. recs. Qed.
End Records.

Lemma records_Ok {A} (mT : Traced.T A) (m : M A) w a w' :
  records mT m -> m w = Ok a w' -> exists t, mT w = Ok (a, t) w'.
Proof.
  intros H E. specialize (H w). rewrite E in H. unfold Traced.forget in H.
  destruct (mT w) as [[a1 t] w1| |]; [|done..]. inversion H; subst. by exists t.
Qed.

Lemma chained_app h t1 h1 t2 :
  chained h t1 -> last (h :: t1) = Some h1 -> chained h1 t2 -> chained h (t1 ++ t2).
Proof.
  revert h. induction t1 as [|x t1 IH]; intros h H1 HL H2; cbn in *.
  - by inversion HL; subst.
  - destruct H1 as [Hx H1]. split; [done|]. apply IH; [done| |done].
    by destruct t1.
Qed.

Lemma last_cons_app {A} (h : A) t1 h1 t2 :
  last (h :: t1) = Some h1 -> last (h :: t1 ++ t2) = last (h1 :: t2).
Proof.
  revert h. induction t1 as [|x t1 IH]; intros h HL.
  - cbn in HL. by inversion HL.
  - change (last (h :: x :: t1)) with (last (x :: t1)) in HL.
    change (last (h :: (x :: t1) ++ t2)) with (last (x :: t1 ++ t2)). by apply IH.
Qed.

Lemma tidy_ret {A} (a : A) : tidy (Traced.ret a).
Proof. intros w a' t w' H. inversion H; subst. by cbn. Qed.

Lemma tidy_step {A} (m : M A) : preserves stays_dead m -> tidy (Traced.step m).
Proof.
  intros Hm w a t w' H. unfold Traced.step in H.
  destruct (m w) as [a1 w1| |] eqn:E; [|done..]. inversion H; subst.
  split; [|done]. cbn. split; [|done]. exact (Hm _ _ _ E).
Qed.

Lemma tidy_bind {A B} (m : Traced.T A) (k : A -> Traced.T B) :
  tidy m -> (forall a, tidy (k a)) -> tidy (Traced.bind m k).
Proof.
  intros Hm Hk w b t w' H. unfold Traced.bind in H.
  destruct (m w) as [[a t1] w1| |] eqn:E1; [|done..].
  destruct (k a w1) as [[b2 t2] w2| |] eqn:E2; [|done..]. inversion H; subst.
  destruct (Hm _ _ _ _ E1) as [C1 L1]. destruct (Hk _ _ _ _ _ E2) as [C2 L2].
  split; [by eapply chained_app|]. by rewrite (last_cons_app _ _ _ _ L1).
Qed.

Create HintDb still.

Lemma still_deref p : preserves stays_dead (deref p).
Proof. apply preserves_deref, stays_dead_refl. Qed.

Lemma still_logFunc msg : preserves stays_dead (logFunc msg).
Proof. apply preserves_logFunc, stays_dead_refl. Qed.

Lemma still_panic {A} : preserves stays_dead (@panic A).
Proof. by intros w a w'. Qed.

Lemma still_out_of_fuel {A} : preserves stays_dead (@out_of_fuel A).
Proof. by intros w a w'. Qed.

Lemma still_rand_Intn draws n : preserves stays_dead (rand_Intn draws n).
Proof. apply preserves_rand_Intn, stays_dead_refl. Qed.

Lemma still_rand_Float64 draws : preserves stays_dead (rand_Float64 draws).
Proof. apply preserves_rand_Float64, stays_dead_refl. Qed.

Lemma still_crit_roll draws me amount line :
  preserves stays_dead (crit_roll draws me amount line).
Proof. apply preserves_crit_roll; [apply stays_dead_refl|apply stays_dead_trans]. Qed.

Lemma still_chooseFirstAlive l : preserves stays_dead (chooseFirstAlive l).
Proof. apply preserves_chooseFirstAlive; [apply stays_dead_refl|apply stays_dead_trans]. Qed.

Lemma still_AllDead b team : preserves stays_dead (AllDead b team).
Proof. apply preserves_AllDead; [apply stays_dead_refl|apply stays_dead_trans]. Qed.

Lemma still_battle_over b : preserves stays_dead (battle_over b).
Proof. apply preserves_battle_over; [apply stays_dead_refl|apply stays_dead_trans]. Qed.

Lemma still_turn_order sort_Slice b : preserves stays_dead (turn_order sort_Slice b).
Proof. apply preserves_turn_order; [apply stays_dead_refl|apply stays_dead_trans]. Qed.

Lemma still_invoke {B} p (f : Character.t -> Character.t * B) :
  (forall c, stays_dead c (fst (f c))) -> preserves stays_dead (invoke p f).
Proof. apply preserves_invoke, stays_dead_refl. Qed.

Lemma still_call p f :
  (forall c, stays_dead c (fst (f c))) -> preserves stays_dead (call p f).
Proof. apply preserves_call; [apply stays_dead_refl|apply stays_dead_trans]. Qed.

#[local] Hint Resolve still_deref still_logFunc still_panic still_out_of_fuel still_rand_Intn
  still_rand_Float64 still_crit_roll still_chooseFirstAlive still_AllDead still_battle_over
  still_turn_order stays_dead_TakeDamage stays_dead_Heal stays_dead_UseMP
  stays_dead_AddEffect stays_dead_StartTurn stays_dead_EndTurn : still.

Ltac tidy_step_tac :=
  match goal with
  | |- tidy (Traced.ret _) => apply tidy_ret
  | |- tidy (Traced.step (call _ _)) =>
      apply tidy_step, still_call; intros; cbv beta; cbn [fst]; auto with still
  | |- tidy (Traced.step (invoke _ _)) =>
      apply tidy_step, still_invoke; intros; cbv beta; cbn [fst]; auto with still
  | |- tidy (Traced.step _) => apply tidy_step; solve [auto with still]
  | |- tidy (Traced.bind _ _) => apply tidy_bind; [|intros]
  | |- tidy (if ?b then _ else _) => destruct b
  | |- tidy (match ?x with _ => _ end) => destruct x
  | |- tidy _ => solve [eauto]
  end.
Ltac tidy_all := repeat tidy_step_tac.

Section Tidy.
Variable draws : nat -> Z.
Variable sort_Slice : (ptr -> ptr -> bool) -> list ptr -> list ptr.

Lemma tidy_BasicAttack c target : tidy (Traced.BasicAttack draws c target).
Proof. unfold Traced.BasicAttack. tidy_all. Qed.

Lemma tidy_add_skill_effect s t : tidy (Traced.add_skill_effect s t).
Proof. unfold Traced.add_skill_effect. tidy_all. Qed.

Lemma tidy_damage_loop c s targets : tidy (Traced.damage_loop draws c s targets).
Proof.
  pose proof tidy_add_skill_effect.
  induction targets as [|t rest IH]; cbn [Traced.damage_loop]; tidy_all.
Qed.

Lemma tidy_heal_loop c s targets : tidy (Traced.heal_loop c s targets).
Proof.
  pose proof tidy_add_skill_effect.
  induction targets as [|t rest IH]; cbn [Traced.heal_loop]; tidy_all.
Qed.

Lemma tidy_UseSkillAt c idx targets : tidy (Traced.UseSkillAt draws c idx targets).
Proof.
  pose proof tidy_damage_loop. pose proof tidy_heal_loop.
  unfold Traced.UseSkillAt. tidy_all.
Qed.

Lemma tidy_try_skill actor targets : tidy (Traced.try_skill draws actor targets).
Proof. pose proof tidy_UseSkillAt. unfold Traced.try_skill. tidy_all. Qed.

Lemma tidy_actor_turn b actor : tidy (Traced.actor_turn draws b actor).
Proof.
  pose proof tidy_try_skill. pose proof tidy_BasicAttack.
  unfold Traced.actor_turn. tidy_all.
Qed.

Lemma tidy_turn_loop b all : tidy (Traced.turn_loop draws b all).
Proof.
  pose proof tidy_actor_turn.
  induction all as [|p rest IH]; cbn [Traced.turn_loop]; tidy_all.
Qed.

Lemma tidy_Turn b : tidy (Traced.Turn draws sort_Slice b).
Proof. pose proof tidy_turn_loop. unfold Traced.Turn. tidy_all. Qed.

Lemma tidy_run_loop fuel b : tidy (Traced.run_loop draws sort_Slice fuel b).
Proof.
  pose proof tidy_Turn.
  revert b. induction fuel as [|fuel IH]; intros b; cbn [Traced.run_loop]; tidy_all.
Qed.

Lemma tidy_Run fuel b : tidy (Traced.Run draws sort_Slice fuel b).
Proof. pose proof tidy_run_loop. unfold Traced.Run. tidy_all. Qed.
End Tidy.

Lemma Forall2_stays_dead h h' : Forall2 stays_dead h h' -> Spec.dead_stay_dead h h'.
Proof.
  intros HR p c Hc Hd. destruct (Forall2_lookup_l _ _ _ _ _ HR Hc) as (c' & Hc' & Hcc').
  exists c'. split; [done|]. by apply Hcc'.
Qed.

Lemma chained_reach h t j h' :
  chained h t -> (h :: t) !! j = Some h' -> Forall2 stays_dead h h'.
Proof.
  revert h j. induction t as [|h1 t IH]; intros h j HC Hj.
  - destruct j; [|done]. inversion Hj; subst.
    apply Forall_Forall2_diag, Forall_forall. intros; apply stays_dead_refl.
  - destruct j as [|j].
    + inversion Hj; subst.
      apply Forall_Forall2_diag, Forall_forall. intros; apply stays_dead_refl.
    + destruct HC as [H1 HC]. cbn in Hj.
      eapply Forall2_trans; [|exact H1|exact (IH h1 j HC Hj)].
      intros a b c. apply stays_dead_trans.
Qed.

Lemma chained_never_revives h t : chained h t -> never_revives (h :: t).
Proof.
  revert h. induction t as [|h1 t IH]; intros h HC i j x y Hij Hi Hj.
  - destruct j; [|done]. destruct i; [|lia].
    inversion Hi; inversion Hj; subst. apply Forall2_stays_dead.
    eapply chained_reach with (j := 0%nat); [exact HC|done].
  - destruct i as [|i].
    + inversion Hi; subst. apply Forall2_stays_dead. by eapply chained_reach.
    + destruct j as [|j]; [lia|]. destruct HC as [_ HC].
      apply (IH h1 HC i j); [lia|done..].
Qed.

Lemma tidy_never_revives {A} (mT : Traced.T A) (m : M A) w a w' :
  records mT m -> tidy mT -> m w = Ok a w' ->
  Spec.dead_stay_dead (heap w) (heap w') /\
  exists steps, mT w = Ok (a, steps) w' /\
                last (heap w :: steps) = Some (heap w') /\
                never_revives (heap w :: steps).
Proof.
  intros Hr Ht E. destruct (records_Ok _ _ _ _ _ Hr E) as [steps Hs].
  destruct (Ht _ _ _ _ Hs) as [HC HL].
  assert (never_revives (heap w :: steps)) as HN by by apply chained_never_revives.
  split; [|by exists steps].
  rewrite last_lookup in HL. apply (HN 0%nat _ _ _ (Nat.le_0_l _) eq_refl HL).
Qed.

(** C2. A damage application on a combatant whose hit points are within
    0..maxHP leaves them within 0..maxHP (maxHP itself is untouched), for any
    raw amount and any damage type: the damage dealt is at least 1, the hit
    points drop by it and are clamped at 0, and at 0 the alive flag is false.
    None of the methods that the battle calls on a combatant makes one that
    is not alive alive.  The round and the battle with the heap recorded
    after every step are the round and the battle; and in a round or a
    battle that returns, from the heap it starts on, through the heap after
    each step, to the heap it leaves, a combatant that is not alive in one
    heap is not alive in any later one: whoever dies in the middle of a
    round is dead after each of the steps that follow. *)
Theorem C2_damage_invariant draws sort_Slice :
  (forall c amount dtype,
     GoInt.in_range amount ->
     0 <= Character.HP c <= Character.HPMax c -> Character.HPMax c <= GoInt.max_int ->
     let c' := fst (Character.TakeDamage c amount dtype) in
     Character.HPMax c' = Character.HPMax c /\
     0 <= Character.HP c' <= Character.HPMax c' /\
     (exists actual, 1 <= actual /\ Character.HP c' = Z.max 0 (Character.HP c - actual)) /\
     (Character.HP c' = 0 -> Character.Alive c' = false) /\
     (Character.Alive c = false -> Character.Alive c' = false)) /\
  (forall c,
     Character.Alive c = false ->
     (forall amount dtype, Character.Alive (fst (Character.TakeDamage c amount dtype)) = false) /\
     (forall amount, Character.Alive (Character.Heal c amount) = false) /\
     (forall amount, Character.Alive (fst (Character.UseMP c amount)) = false) /\
     (forall e, Character.Alive (fst (Character.AddEffect c e)) = false) /\
     Character.Alive (fst (Character.ApplyEffectsStartTurn c)) = false /\
     Character.Alive (fst (Character.ApplyEffectsEndTurn c)) = false) /\
  (forall b w,
     Traced.forget (Traced.Turn draws sort_Slice b) w = Turn draws sort_Slice b w) /\
  (forall fuel b w,
     Traced.forget (Traced.Run draws sort_Slice fuel b) w = Run draws sort_Slice fuel b w) /\
  (forall b w b' w',
     Turn draws sort_Slice b w = Ok b' w' ->
     Spec.dead_stay_dead (heap w) (heap w') /\
     exists steps,
       Traced.Turn draws sort_Slice b w = Ok (b', steps) w' /\
       last (heap w :: steps) = Some (heap w') /\
       never_revives (heap w :: steps)) /\
  (forall fuel b w b' w',
     Run draws sort_Slice fuel b w = Ok b' w' ->
     Spec.dead_stay_dead (heap w) (heap w') /\
     exists steps,
       Traced.Run draws sort_Slice fuel b w = Ok (b', steps) w' /\
       last (heap w :: steps) = Some (heap w') /\
       never_revives (heap w :: steps)).
Proof.
  split; [apply TakeDamage_invariant|].
  split.
  { intros c Hd. repeat split; intros.
    - by apply stays_dead_TakeDamage.
    - by apply stays_dead_Heal.
    - by apply stays_dead_UseMP.
    - by apply stays_dead_AddEffect.
    - by apply stays_dead_StartTurn.
    - by apply stays_dead_EndTurn. }
  split; [intros; apply records_Turn|]. split; [intros; apply records_Run|].
  split; intros.
  - eapply tidy_never_revives; [apply records_Turn|apply tidy_Turn|done].
  - eapply tidy_never_revives; [apply records_Run|apply tidy_Run|done].
Qed.

(** The duel: the hero is alive when the battle starts, is killed by the
    poison at the start of its own turn in the first round, strikes all the
    same, and is dead in each of the 19 heaps from there to the end of the
    battle.  A fallen guard stays so when its turn would end.  And a hit of
    100 on the guard. *)
Lemma C2_witness :
  (exists b' w' steps,
     Run Scenario.zeros Sorters.insertionSort 3 Scenario.duel Scenario.duel_world = Ok b' w' /\
     Traced.Run Scenario.zeros Sorters.insertionSort 3 Scenario.duel Scenario.duel_world
       = Ok (b', steps) w' /\
     Spec.dead_stay_dead (heap Scenario.duel_world) (heap w') /\
     last (heap Scenario.duel_world :: steps) = Some (heap w') /\
     never_revives (heap Scenario.duel_world :: steps) /\
     (fun h => alive_at h 0%nat) <$> (heap Scenario.duel_world :: steps)
       = replicate 27 true ++ replicate 19 false) /\
  Character.Alive (fst (Character.ApplyEffectsEndTurn Arena.fallen)) = false /\
  Character.HP (fst (Character.TakeDamage Scenario.guard 100 Pure)) = 0 /\
  Character.Alive (fst (Character.TakeDamage Scenario.guard 100 Pure)) = false.
Proof.
  destruct (C2_damage_invariant Scenario.zeros Sorters.insertionSort)
    as (Hhit & Hmeth & _ & _ & _ & Hrun).
  split; [|split].
  - destruct (Run Scenario.zeros Sorters.insertionSort 3 Scenario.duel Scenario.duel_world)
      as [b' w'| |] eqn:E; [|vm_compute in E; discriminate..].
    destruct (Hrun 3%nat Scenario.duel Scenario.duel_world b' w' E)
      as (Hd & steps & Hs & HL & HN).
    exists b', w', steps. repeat (split; [assumption || reflexivity|]).
    vm_compute in Hs. injection Hs as _ <- _. reflexivity.
  - apply (Hmeth Arena.fallen). reflexivity.
  - destruct (Hhit Scenario.guard 100 Pure) as (_ & _ & _ & H0 & _).
    + vm_compute. split; discriminate.
    + vm_compute. split; discriminate.
    + vm_compute. discriminate.
    + split; [reflexivity|]. apply H0. reflexivity.
Defined.

(** ** The battle controller *)

Lemma all_dead_loop_spec l w r w' :
  all_dead_loop l w = Ok r w' ->
  w' = w /\ (r = true <-> Spec.roster_defeated (heap w) l).
Proof.
  unfold Spec.roster_defeated.
  induction l as [|p rest IH]; cbn [all_dead_loop]; intros H.
  - inversion H; subst. split; [done|]. split; [constructor|done].
  - apply bind_inv in H as (c & w1 & H1 & H2). apply deref_inv in H1 as [Hc ->].
    destruct (Character.Alive c) eqn:Hal.
    + inversion H2; subst. split; [done|]. split; [done|].
      intros HF. inversion HF as [|? ? (c' & Hc' & Hd) _]; subst. congruence.
    + apply IH in H2 as [-> Hiff]. split; [done|]. rewrite Hiff. split.
      * intros HF. constructor; eauto.
      * intros HF. by inversion HF.
Qed.

Lemma AllDead_spec b team w r w' :
  AllDead b team w = Ok r w' ->
  w' = w /\
  (r = true <->
   Spec.roster_defeated (heap w)
     (if String.eqb team "player" then Battle.Players b else Battle.Enemies b)).
Proof. apply all_dead_loop_spec. Qed.

Lemma battle_over_spec b w r w' :
  battle_over b w = Ok r w' ->
  w' = w /\
  (r = true <-> Spec.roster_defeated (heap w) (Battle.Players b) \/
                Spec.roster_defeated (heap w) (Battle.Enemies b)).
Proof.
  unfold battle_over. intros H. apply bind_inv in H as (pd & w1 & H1 & H2).
  apply AllDead_spec in H1 as [-> Hp]. cbn in Hp. destruct pd.
  - inversion H2; subst. split; [done|]. split; [|done]. intros _. left. by apply Hp.
  - apply AllDead_spec in H2 as [-> He]. cbn in He. split; [done|].
    rewrite He. split; [auto|]. intros [Hd|Hd]; [|done].
    apply Hp in Hd. done.
Qed.

Lemma Turn_battle draws sort_Slice b w b' w' :
  Turn draws sort_Slice b w = Ok b' w' ->
  b' = Battle.with_Round (GoInt.add (Battle.Round b) 1) b.
Proof.
  unfold Turn. intros H.
  apply bind_inv in H as (? & w1 & _ & H). apply bind_inv in H as (all & w2 & _ & H).
  apply bind_inv in H as (? & w3 & _ & H). by inversion H.
Qed.

Lemma run_loop_exit draws sort_Slice fuel b w b' w' :
  run_loop draws sort_Slice fuel b w = Ok b' w' ->
  battle_over b' w' = Ok true w' /\
  Battle.Players b' = Battle.Players b /\ Battle.Enemies b' = Battle.Enemies b.
Proof.
  revert b w. induction fuel as [|fuel IH]; intros b w H; cbn [run_loop] in H;
    apply bind_inv in H as (over & w1 & H1 & H2);
    pose proof (battle_over_spec _ _ _ _ H1) as [-> _]; destruct over;
    try (inversion H2; subst; done); try done.
  apply bind_inv in H2 as (b1 & w2 & HT & H2).
  apply IH in H2 as (Hover & Hp & He). apply Turn_battle in HT as ->. done.
Qed.

Lemma roster_defeated_check h l :
  forallb (fun p => match h !! p with
                    | Some c => negb (Character.Alive c)
                    | None => false
                    end) l = true ->
  Spec.roster_defeated h l.
Proof.
  unfold Spec.roster_defeated. rewrite forallb_forall, Forall_forall.
  intros H p Hp. apply list_elem_of_In in Hp. specialize (H p Hp). destruct (h !! p) as [c|]; [|done].
  exists c. split; [done|]. by destruct (Character.Alive c).
Qed.

(** C1 (amended). When [Run] returns, at least one roster is defeated, and the
    last line it logs is the verdict: "Players win!" exactly when the enemy
    roster is fully defeated, whether or not the player roster is defeated
    too, and "Enemies win!" exactly when it is not (and then the player
    roster is the defeated one). *)
Theorem C1_winner draws sort_Slice fuel b w b' w' :
  Run draws sort_Slice fuel b w = Ok b' w' ->
  let players_defeated := Spec.roster_defeated (heap w') (Battle.Players b') in
  let enemies_defeated := Spec.roster_defeated (heap w') (Battle.Enemies b') in
  (players_defeated \/ enemies_defeated) /\
  (last (out w') = Some "Players win!" <-> enemies_defeated) /\
  (last (out w') = Some "Enemies win!" <-> ~ enemies_defeated) /\
  (players_defeated /\ enemies_defeated -> last (out w') = Some "Players win!").
Proof.
  unfold Run. intros H.
  apply bind_inv in H as (b1 & w1 & Hloop & H).
  apply bind_inv in H as (ed & w2 & Hed & H).
  apply AllDead_spec in Hed as [-> Hed]. cbn in Hed.
  apply run_loop_exit in Hloop as (Hover & _ & _).
  apply battle_over_spec in Hover as [_ Hover].
  apply bind_inv in H as (? & w3 & Hlog & H). inversion H; subst b' w'. clear H.
  assert (heap w3 = heap w1 /\
          last (out w3) = Some (if ed then "Players win!" else "Enemies win!")%string)
    as [Hh Hlast].
  { destruct ed; inversion Hlog; subst; cbn; by rewrite last_snoc. }
  cbv zeta. rewrite Hh, Hlast.
  split; [by apply Hover|].
  destruct ed.
  - assert (Spec.roster_defeated (heap w1) (Battle.Enemies b1)) by by apply Hed.
    repeat split; try done.
  - assert (~ Spec.roster_defeated (heap w1) (Battle.Enemies b1)).
    { intros Hd. apply Hed in Hd. done. }
    repeat split; try done. intros [_ ?]. done.
Qed.

(** C1 (as stated) fails: in the duel the poisoned hero dies at the start of
    his turn and still casts the skill that kills the last enemy; both
    rosters are defeated in round 1 and the verdict is "Players win!". *)
Lemma C1_counterexample :
  exists b' w',
    Run Scenario.zeros Sorters.insertionSort 3 Scenario.duel Scenario.duel_world = Ok b' w' /\
    Battle.Round b' = 1 /\
    Spec.roster_defeated (heap w') (Battle.Players b') /\
    Spec.roster_defeated (heap w') (Battle.Enemies b') /\
    last (out w') = Some "Players win!"%string /\
    ~ (last (out w') = Some "Players win!"%string <->
       Spec.roster_defeated (heap w') (Battle.Enemies b') /\
       ~ Spec.roster_defeated (heap w') (Battle.Players b')).
Proof.
  destruct (Run Scenario.zeros Sorters.insertionSort 3 Scenario.duel Scenario.duel_world)
    as [b' w'| |] eqn:E; vm_compute in E; try discriminate.
  inversion E; subst b' w'. clear E. eexists _, _. split; [reflexivity|].
  cbn [Battle.Round Battle.Players Battle.Enemies heap out].
  match goal with |- _ /\ ?P /\ _ => assert P as Hp by (by apply roster_defeated_check) end.
  split; [done|]. split; [done|]. split; [by apply roster_defeated_check|].
  split; [done|]. intros [Hiff _]. destruct (Hiff eq_refl) as [_ Hn]. by apply Hn.
Qed.

(** The verdict of the duel. *)
Lemma C1_witness :
  exists b' w',
    Run Scenario.zeros Sorters.insertionSort 3 Scenario.duel Scenario.duel_world = Ok b' w' /\
    (last (out w') = Some "Players win!"%string <->
     Spec.roster_defeated (heap w') (Battle.Enemies b')).
Proof.
  destruct (Run Scenario.zeros Sorters.insertionSort 3 Scenario.duel Scenario.duel_world)
    as [b' w'| |] eqn:E; [|vm_compute in E; discriminate..].
  exists b', w'. split; [reflexivity|].
  exact (proj1 (proj2 (C1_winner Scenario.zeros Sorters.insertionSort 3 Scenario.duel
                         Scenario.duel_world b' w' E))).
Defined.

(** ** A battle that never ends *)





(** ** Termination without skills *)








Lemma all_dead_loop_run l w :
  Forall (fun p => is_Some (heap w !! p)) l ->
  all_dead_loop l w = Ok (negb (any_alive (heap w) l)) w.
Proof.
  unfold any_alive. induction 1 as [|p l [c Hc] _ IH]; cbn [all_dead_loop existsb]; [done|].
  rewrite (bind_ok _ _ _ _ _ (deref_ok _ _ _ Hc)). unfold alive_at at 1. rewrite Hc.
  destruct (Character.Alive c); [done|]. by rewrite IH.
Qed.

Lemma chooseFirstAlive_run l w :
  Forall (fun p => is_Some (heap w !! p)) l ->
  chooseFirstAlive l w = Ok (find (alive_at (heap w)) l) w.
Proof.
  induction 1 as [|p l [c Hc] _ IH]; cbn [chooseFirstAlive find]; [done|].
  rewrite (bind_ok _ _ _ _ _ (deref_ok _ _ _ Hc)). unfold alive_at at 1. rewrite Hc.
  destruct (Character.Alive c); [done|]. by rewrite IH.
Qed.

Lemma rosters_valid_split b h :
  rosters_valid b h ->
  Forall (fun p => is_Some (h !! p)) (Battle.Players b) /\
  Forall (fun p => is_Some (h !! p)) (Battle.Enemies b).
Proof. unfold rosters_valid. by rewrite Forall_app. Qed.

Lemma battle_over_run b w :
  rosters_valid b (heap w) ->
  battle_over b w =
    Ok (negb (any_alive (heap w) (Battle.Players b))
        || negb (any_alive (heap w) (Battle.Enemies b))) w.
Proof.
  intros [Hp He]%rosters_valid_split. unfold battle_over, AllDead. cbn [String.eqb].
  change (String.eqb "player" "player") with true.
  change (String.eqb "enemy" "player") with false. cbv iota.
  rewrite (bind_ok _ _ _ _ _ (all_dead_loop_run _ _ Hp)).
  destruct (any_alive (heap w) (Battle.Players b)); cbn [negb orb]; [|done].
  by apply all_dead_loop_run.
Qed.

Lemma find_alive_Some h l t :
  find (alive_at h) l = Some t -> exists tc, h !! t = Some tc /\ Character.Alive tc = true.
Proof.
  intros H. apply find_some in H as [_ H]. unfold alive_at in H.
  destruct (h !! t) as [tc|]; [eauto|done].
Qed.

Lemma find_alive_None h l : find (alive_at h) l = None -> any_alive h l = false.
Proof.
  unfold any_alive. induction l as [|p l IH]; cbn [find existsb]; [done|].
  destruct (alive_at h p); [done|]. auto.
Qed.



Section NoSkills.
Variable draws : nat -> Z.
Variable sort_Slice : (ptr -> ptr -> bool) -> list ptr -> list ptr.
Hypothesis sort_ok : sorts sort_Slice.

Lemma crit_roll_run me amount line w :
  GoInt.in_range amount ->
  exists base w',
    crit_roll draws me amount line w = Ok base w' /\
    heap w' = heap w /\ GoInt.in_range base.
Proof.
  intros Ha. unfold crit_roll, mbind, M_bind, rand_Float64, logFunc, mret, M_ret.
  destruct (GoFloat.ltb _ _); eexists _, _; (split; [reflexivity|]); cbn [heap];
    split; try done. apply to_int_in_range.
Qed.






Lemma sound_with_Round b r w : sound (Battle.with_Round r b) w <-> sound b w.
Proof. done. Qed.

Lemma any_alive_perm h l l' :
  Permutation l l' -> any_alive h l = true -> any_alive h l' = true.
Proof.
  unfold any_alive. intros HP. rewrite !existsb_exists. intros (p & Hp & Hal).
  exists p. split; [|done]. by eapply Permutation_in.
Qed.

Lemma any_alive_app_l h l1 l2 : any_alive h l1 = true -> any_alive h (l1 ++ l2) = true.
Proof. unfold any_alive. rewrite existsb_app. by intros ->. Qed.




End NoSkills.




(** ** Non-interference of [MagicBonus] and [ResistBonus] *)

Lemma scrub_EffectiveAttack c : Character.EffectiveAttack (scrub c) = Character.EffectiveAttack c.
Proof. unfold Character.EffectiveAttack. cbn. by destruct (Character.Weapon c). Qed.

Lemma scrub_EffectiveDefense c :
  Character.EffectiveDefense (scrub c) = Character.EffectiveDefense c.
Proof. unfold Character.EffectiveDefense. cbn. by destruct (Character.Armor c). Qed.

Lemma scrub_EffectiveSpeed c : Character.EffectiveSpeed (scrub c) = Character.EffectiveSpeed c.
Proof. done. Qed.

Lemma scrub_TakeDamage c amount dtype :
  Character.TakeDamage (scrub c) amount dtype =
    (scrub (fst (Character.TakeDamage c amount dtype)),
     snd (Character.TakeDamage c amount dtype)).
Proof.
  unfold Character.TakeDamage. rewrite scrub_EffectiveDefense.
  change (Character.HP (scrub c)) with (Character.HP c).
  change (Character.Stats (scrub c)) with (Character.Stats c).
  by destruct (_ <=? 0).
Qed.

Lemma scrub_Heal c amount : Character.Heal (scrub c) amount = scrub (Character.Heal c amount).
Proof.
  unfold Character.Heal.
  change (Character.HP (scrub c)) with (Character.HP c).
  change (Character.HPMax (scrub c)) with (Character.HPMax c).
  by destruct (_ <? _).
Qed.

Lemma scrub_UseMP c amount :
  Character.UseMP (scrub c) amount =
    (scrub (fst (Character.UseMP c amount)), snd (Character.UseMP c amount)).
Proof.
  unfold Character.UseMP. change (Character.MP (scrub c)) with (Character.MP c).
  by destruct (_ <? _).
Qed.

Lemma scrub_AddEffect c e :
  Character.AddEffect (scrub c) e =
    (scrub (fst (Character.AddEffect c e)), snd (Character.AddEffect c e)).
Proof. done. Qed.

Lemma scrub_StartTurn c :
  Character.ApplyEffectsStartTurn (scrub c) =
    (scrub (fst (Character.ApplyEffectsStartTurn c)),
     snd (Character.ApplyEffectsStartTurn c)).
Proof.
  unfold Character.ApplyEffectsStartTurn.
  change (Character.Effects (scrub c)) with (Character.Effects c).
  destruct (_ =? 0); [done|]. rewrite scrub_TakeDamage.
  by destruct (Character.TakeDamage c _ _).
Qed.

Lemma scrub_EndTurn c :
  Character.ApplyEffectsEndTurn (scrub c) =
    (scrub (fst (Character.ApplyEffectsEndTurn c)),
     snd (Character.ApplyEffectsEndTurn c)).
Proof.
  unfold Character.ApplyEffectsEndTurn.
  change (Character.Effects (scrub c)) with (Character.Effects c).
  change (Character.Name (scrub c)) with (Character.Name c).
  by destruct (Character.end_turn_loop _ _).
Qed.

Lemma oblivious_elim {A} (f : A -> A) (m : M A) w :
  oblivious f m -> m (scrub_world w) = scrub_result f (m w).
Proof. intros H. apply H. Qed.

Lemma oblivious_bind {A B} (f : A -> A) (g : B -> B) (m : M A) (k : A -> M B) :
  oblivious f m ->
  (forall a w, k (f a) (scrub_world w) = scrub_result g (k a w)) ->
  oblivious g (m ≫= k).
Proof.
  intros Hm Hk w. unfold mbind, M_bind. rewrite Hm.
  destruct (m w) as [a w1| |]; cbn [scrub_result]; [apply Hk|done|done].
Qed.

Lemma oblivious_ret {A} (f : A -> A) (a : A) : f a = a -> oblivious f (mret a).
Proof. intros H w. cbn. unfold mret, M_ret. by rewrite H. Qed.

Lemma oblivious_panic {A} (f : A -> A) : oblivious f (@panic A).
Proof. by intros w. Qed.

Lemma oblivious_timeout {A} (f : A -> A) : oblivious f (@out_of_fuel A).
Proof. by intros w. Qed.

Lemma oblivious_deref p : oblivious scrub (deref p).
Proof.
  intros w. unfold deref. cbn [scrub_world heap]. rewrite list_lookup_fmap.
  by destruct (heap w !! p).
Qed.

Lemma oblivious_snapshot : oblivious (fmap scrub) snapshot.
Proof. by intros w. Qed.

Lemma oblivious_logFunc msg : oblivious id (logFunc msg).
Proof. by intros w. Qed.

Lemma oblivious_logAll msgs : oblivious id (logAll msgs).
Proof. by intros w. Qed.

Lemma oblivious_invoke {B} p (f : Character.t -> Character.t * B) :
  (forall c, f (scrub c) = (scrub (fst (f c)), snd (f c))) ->
  oblivious id (invoke p f).
Proof.
  intros Hf w. unfold invoke, mbind, M_bind, deref. cbn [scrub_world heap].
  rewrite list_lookup_fmap. destruct (heap w !! p) as [c|]; [|done]. cbn [fmap option_fmap option_map].
  rewrite Hf. destruct (f c) as [c' b]. cbn. unfold scrub_world. cbn.
  by rewrite list_fmap_insert.
Qed.

Lemma oblivious_call p f :
  (forall c, f (scrub c) = (scrub (fst (f c)), snd (f c))) ->
  oblivious id (call p f).
Proof.
  intros Hf. unfold call. eapply oblivious_bind; [by apply oblivious_invoke|].
  intros msgs w. apply oblivious_logAll.
Qed.

Create HintDb obl.

#[local] Hint Resolve oblivious_panic oblivious_timeout oblivious_logFunc oblivious_logAll
  oblivious_snapshot oblivious_deref : obl.
#[local] Hint Extern 1 (oblivious _ (mret _)) => apply oblivious_ret; reflexivity : obl.
#[local] Hint Extern 1 (oblivious _ (call _ _)) =>
  apply oblivious_call; intros;
  first [apply scrub_TakeDamage | apply scrub_AddEffect | apply scrub_StartTurn
        | apply scrub_EndTurn | (cbn [fst snd]; by rewrite scrub_Heal)] : obl.
#[local] Hint Extern 1 (oblivious _ (invoke _ _)) =>
  apply oblivious_invoke; intros; apply scrub_UseMP : obl.

(** Walk through a monadic term, as for [preserves]. *)
Ltac obl_step :=
  match goal with
  | |- oblivious _ (deref _ ≫= _) =>
      eapply oblivious_bind;
      [apply oblivious_deref
      |intros ? ?; rewrite ?scrub_EffectiveAttack; apply oblivious_elim]
  | |- oblivious _ (_ ≫= _) =>
      eapply (oblivious_bind id); [|intros ? ?; apply oblivious_elim]
  | |- oblivious _ (if ?b then _ else _) => destruct b
  | |- oblivious _ (match ?x with _ => _ end) => destruct x
  | |- oblivious _ _ => solve [eauto with obl]
  end.
Ltac obl := repeat obl_step.

Section Oblivious.
Variable draws : nat -> Z.
Variable sort_Slice : (ptr -> ptr -> bool) -> list ptr -> list ptr.
Hypothesis sort_ok : sorts sort_Slice.

Lemma oblivious_rand_Intn n : oblivious id (rand_Intn draws n).
Proof. intros w. unfold rand_Intn. by destruct (n <=? 0). Qed.

Lemma oblivious_rand_Float64 : oblivious id (rand_Float64 draws).
Proof. by intros w. Qed.

Hint Resolve oblivious_rand_Intn oblivious_rand_Float64 : obl.

Lemma oblivious_crit_roll me amount line : oblivious id (crit_roll draws me amount line).
Proof. unfold crit_roll. obl. Qed.

Hint Resolve oblivious_crit_roll : obl.

Lemma oblivious_BasicAttack c target : oblivious id (BasicAttack draws c target).
Proof.
  unfold BasicAttack. eapply oblivious_bind; [apply oblivious_deref|].
  intros me w. rewrite scrub_EffectiveAttack.
  change (Character.Alive (scrub me)) with (Character.Alive me).
  change (Character.Name (scrub me)) with (Character.Name me).
  change (Character.Weapon (scrub me)) with (scrub_weapon <$> Character.Weapon me).
  change (crit_roll draws (scrub me)) with (crit_roll draws me).
  destruct (Character.Weapon me) as [wp|]; cbn [fmap option_fmap option_map scrub_weapon
    Weapon.DamageMin Weapon.DamageMax Weapon.DamageType]; apply oblivious_elim; obl.
Qed.

Lemma oblivious_add_skill_effect s t : oblivious id (add_skill_effect s t).
Proof. unfold add_skill_effect. obl. Qed.

Hint Resolve oblivious_BasicAttack oblivious_add_skill_effect : obl.

Lemma oblivious_damage_loop c s targets : oblivious id (damage_loop draws c s targets).
Proof. induction targets as [|t rest IH]; cbn [damage_loop]; obl. Qed.

Lemma oblivious_heal_loop c s targets : oblivious id (heal_loop c s targets).
Proof. induction targets as [|t rest IH]; cbn [heal_loop]; obl. Qed.

Hint Resolve oblivious_damage_loop oblivious_heal_loop : obl.

Lemma oblivious_UseSkillAt c idx targets : oblivious id (UseSkillAt draws c idx targets).
Proof. unfold UseSkillAt. obl. Qed.

Lemma oblivious_chooseFirstAlive l : oblivious id (chooseFirstAlive l).
Proof. induction l as [|p rest IH]; cbn [chooseFirstAlive]; obl. Qed.

Lemma oblivious_all_dead_loop l : oblivious id (all_dead_loop l).
Proof. induction l as [|p rest IH]; cbn [all_dead_loop]; obl. Qed.

Hint Resolve oblivious_UseSkillAt oblivious_chooseFirstAlive oblivious_all_dead_loop : obl.

Lemma oblivious_AllDead b team : oblivious id (AllDead b team).
Proof. unfold AllDead. obl. Qed.

Hint Resolve oblivious_AllDead : obl.

Lemma oblivious_battle_over b : oblivious id (battle_over b).
Proof. unfold battle_over. obl. Qed.

Lemma oblivious_try_skill actor targets : oblivious id (try_skill draws actor targets).
Proof. unfold try_skill. obl. Qed.

Hint Resolve oblivious_battle_over oblivious_try_skill : obl.

Lemma oblivious_actor_turn b actor : oblivious id (actor_turn draws b actor).
Proof. unfold actor_turn. obl. Qed.

Hint Resolve oblivious_actor_turn : obl.

Lemma oblivious_turn_loop b all : oblivious id (turn_loop draws b all).
Proof. induction all as [|p rest IH]; cbn [turn_loop]; obl. Qed.

Lemma speed_of_scrub h p : speed_of (scrub <$> h) p = speed_of h p.
Proof. unfold speed_of. rewrite list_lookup_fmap. by destruct (h !! p). Qed.

Lemma oblivious_turn_order b : oblivious id (turn_order sort_Slice b).
Proof.
  intros w. unfold turn_order, snapshot, mbind, M_bind. cbn [scrub_world heap].
  assert (forallb (fun p => bool_decide (is_Some ((scrub <$> heap w) !! p)))
            (Battle.Players b ++ Battle.Enemies b)
          = forallb (fun p => bool_decide (is_Some (heap w !! p)))
              (Battle.Players b ++ Battle.Enemies b)) as ->.
  { induction (Battle.Players b ++ Battle.Enemies b) as [|p l IH]; [done|].
    cbn [forallb]. rewrite IH. f_equal. apply bool_decide_ext.
    rewrite list_lookup_fmap. apply fmap_is_Some. }
  destruct (forallb _ _); [|done].
  unfold mret, M_ret, id. cbn [scrub_result]. f_equal.
  apply (sorts_ext _ sort_ok). intros p q _ _. unfold faster.
  by rewrite !speed_of_scrub.
Qed.

Hint Resolve oblivious_turn_loop oblivious_turn_order : obl.

Lemma oblivious_Turn b : oblivious id (Turn draws sort_Slice b).
Proof. unfold Turn. obl. Qed.

Hint Resolve oblivious_Turn : obl.

Lemma oblivious_run_loop fuel b : oblivious id (run_loop draws sort_Slice fuel b).
Proof. revert b. induction fuel as [|fuel IH]; intros b; cbn [run_loop]; obl. Qed.

Hint Resolve oblivious_run_loop : obl.

Lemma oblivious_Run fuel b : oblivious id (Run draws sort_Slice fuel b).
Proof. unfold Run. obl. Qed.

(** Runs from states with the same scrubbed version have the same scrubbed
    result. *)
Lemma oblivious_pair {A} (m : M A) w1 w2 :
  oblivious id m -> scrub_world w1 = scrub_world w2 ->
  scrub_result id (m w1) = scrub_result id (m w2).
Proof. intros Hm Hw. by rewrite <- !Hm, Hw. Qed.
End Oblivious.

Lemma same_outcome_scrub {A} (r1 r2 : result A) :
  scrub_result id r1 = scrub_result id r2 -> same_outcome r1 r2.
Proof.
  destruct r1 as [a1 v1| |], r2 as [a2 v2| |]; cbn [scrub_result same_outcome]; try done.
  intros [= -> Hheap Hpos Hout]. repeat split; try done.
  - change (Character.Stats <$> heap v1) with ((Character.Stats ∘ scrub) <$> heap v1).
    change (Character.Stats <$> heap v2) with ((Character.Stats ∘ scrub) <$> heap v2).
    by rewrite !list_fmap_compose, Hheap.
  - change (Character.Effects <$> heap v1) with ((Character.Effects ∘ scrub) <$> heap v1).
    change (Character.Effects <$> heap v2) with ((Character.Effects ∘ scrub) <$> heap v2).
    by rewrite !list_fmap_compose, Hheap.
  - change (Character.Alive <$> heap v1) with ((Character.Alive ∘ scrub) <$> heap v1).
    change (Character.Alive <$> heap v2) with ((Character.Alive ∘ scrub) <$> heap v2).
    by rewrite !list_fmap_compose, Hheap.
Qed.

Lemma same_outcome_Ok {A} (r1 r2 : result A) a v1 :
  same_outcome r1 r2 -> r1 = Ok a v1 ->
  exists v2, r2 = Ok a v2 /\ out v1 = out v2 /\
             Character.Stats <$> heap v1 = Character.Stats <$> heap v2.
Proof.
  intros H ->. destruct r2 as [a2 v2| |]; cbn [same_outcome] in H; try done.
  destruct H as (-> & Hout & _ & _ & Hstats & _). by exists v2.
Qed.

(** C10. The armor field [ResistBonus] and the weapon field [MagicBonus] are
    read by nothing.  Take two states with the same log and the same position
    in the random source whose heaps differ at most in those two fields, and
    run a round, or the whole battle, on each with the same random draws:
    either both panic, or both run out of fuel, or both return, with the same
    battle record (so the same round number), the same log line by line
    (so the same verdict), the same number of draws consumed, and heaps that
    again differ at most in those two fields: the same stats, effects and
    alive flags. *)
Theorem C10_unused_fields draws sort_Slice (b : Battle.t) (w1 w2 : World) :
  sorts sort_Slice ->
  scrub <$> heap w1 = scrub <$> heap w2 ->
  rand_pos w1 = rand_pos w2 ->
  out w1 = out w2 ->
  same_outcome (Turn draws sort_Slice b w1) (Turn draws sort_Slice b w2) /\
  (forall fuel,
     same_outcome (Run draws sort_Slice fuel b w1) (Run draws sort_Slice fuel b w2)).
Proof.
  intros Hsort Hh Hp Ho.
  assert (scrub_world w1 = scrub_world w2) as Hw.
  { unfold scrub_world. by rewrite Hh, Hp, Ho. }
  split.
  - apply same_outcome_scrub, oblivious_pair; [by apply oblivious_Turn|done].
  - intros fuel. apply same_outcome_scrub, oblivious_pair; [by apply oblivious_Run|done].
Qed.

(** The same fight with a sword of magic bonus 7 and an armor of resist
    bonus 4. *)
Lemma C10_witness :
  exists b' v1 v2,
    Run Scenario.zeros Sorters.insertionSort 100 Scenario.spar Scenario.plain_world
      = Ok b' v1 /\
    Run Scenario.zeros Sorters.insertionSort 100 Scenario.spar Scenario.enchanted_world
      = Ok b' v2 /\
    out v1 = out v2 /\
    Character.Stats <$> heap v1 = Character.Stats <$> heap v2.
Proof.
  assert (exists b' v1,
            Run Scenario.zeros Sorters.insertionSort 100 Scenario.spar Scenario.plain_world
            = Ok b' v1) as (b' & v1 & E1).
  { eexists _, _. vm_compute. reflexivity. }
  destruct (same_outcome_Ok _ _ b' v1
              (proj2 (C10_unused_fields Scenario.zeros Sorters.insertionSort Scenario.spar
                        Scenario.plain_world Scenario.enchanted_world insertionSort_sorts
                        eq_refl eq_refl eq_refl) 100%nat) E1) as (v2 & E2 & Hout & Hstats).
  exists b', v1, v2. repeat split; assumption.
Defined.

(* ================================================================== *)
(** * Part IV: further properties of the program *)
(* ================================================================== *)

(** ** The inventory *)

(** X1. [Inventory.RemoveAt] with an index that is negative or not below the
    number of items leaves the inventory as it is.  With an index in range
    it removes exactly that item: there is one item fewer, the items before
    it keep their place and the items after it move down by one. *)

Theorem X1_RemoveAt_bounds inv i :
  let n := length (Inventory.Items inv) in
  let items' := Inventory.Items (Inventory.RemoveAt inv i) in
  (i < 0 \/ Z.of_nat n <= i -> Inventory.RemoveAt inv i = inv) /\
  (0 <= i < Z.of_nat n ->
   S (length items') = n /\
   (forall j, (j < Z.to_nat i)%nat -> items' !! j = Inventory.Items inv !! j) /\
   (forall j, (Z.to_nat i <= j)%nat -> items' !! j = Inventory.Items inv !! S j)).
Proof.
  cbv zeta. unfold Inventory.RemoveAt. split.
  - intros [H|H].
    + destruct (Z.ltb_spec i 0); [done|lia].
    + destruct (Z.leb_spec (Z.of_nat (length (Inventory.Items inv))) i); [|lia].
      by rewrite orb_true_r.
  - intros H. destruct (Z.ltb_spec i 0); [lia|].
    destruct (Z.leb_spec (Z.of_nat (length (Inventory.Items inv))) i); [lia|].
    cbn [orb Inventory.Items].
    assert (Z.to_nat i < length (Inventory.Items inv))%nat as Hi by lia.
    split; [|split].
    + rewrite length_app, length_take, length_drop. lia.
    + intros j Hj. rewrite lookup_app_l by (rewrite length_take; lia).
      by rewrite lookup_take_lt.
    + intros j Hj. rewrite lookup_app_r by (rewrite length_take; lia).
      rewrite length_take, lookup_drop. f_equal. lia.
Qed.

(** The bag of three items: indices -1 and 3 do nothing, index 1 removes the
    ether. *)

Lemma X1_witness :
  Inventory.RemoveAt Arena.bag (-1) = Arena.bag /\
  Inventory.RemoveAt Arena.bag 3 = Arena.bag /\
  Inventory.Items (Inventory.RemoveAt Arena.bag 1) !! 0%nat = Some Arena.potion /\
  Inventory.Items (Inventory.RemoveAt Arena.bag 1) !! 1%nat = Some Arena.bomb.
Proof.
  split; [apply (proj1 (X1_RemoveAt_bounds Arena.bag (-1))); left; lia|].
  split; [apply (proj1 (X1_RemoveAt_bounds Arena.bag 3)); right; cbn; lia|].
  destruct (proj2 (X1_RemoveAt_bounds Arena.bag 1)) as (_ & Hlt & Hge); [cbn; lia|].
  split; [apply (Hlt 0%nat); cbn; lia|apply (Hge 1%nat); cbn; lia].
Defined.

(** X2. [Inventory.Add] puts the item after the ones that are there, which
    keep their place, and removing the last index again gives back the
    inventory as it was. *)

Theorem X2_Add_then_RemoveAt inv item :
  let n := length (Inventory.Items inv) in
  let inv' := Inventory.Add inv item in
  length (Inventory.Items inv') = S n /\
  Inventory.Items inv' !! n = Some item /\
  (forall j, (j < n)%nat -> Inventory.Items inv' !! j = Inventory.Items inv !! j) /\
  Inventory.RemoveAt inv' (Z.of_nat n) = inv.
Proof.
  cbv zeta. unfold Inventory.Add. cbn [Inventory.Items]. split; [|split; [|split]].
  - rewrite length_app. cbn. lia.
  - rewrite lookup_app_r by lia. by rewrite Nat.sub_diag.
  - intros j Hj. by rewrite lookup_app_l.
  - unfold Inventory.RemoveAt. cbn [Inventory.Items]. rewrite length_app. cbn [length].
    destruct (Z.ltb_spec (Z.of_nat (length (Inventory.Items inv))) 0); [lia|].
    destruct (Z.leb_spec (Z.of_nat (length (Inventory.Items inv) + 1))
                (Z.of_nat (length (Inventory.Items inv)))); [lia|].
    cbn [orb]. rewrite Nat2Z.id.
    rewrite take_app_length, drop_ge by (rewrite length_app; cbn; lia).
    rewrite app_nil_r. by destruct inv.
Qed.


(** ** Effective stats *)

Lemma wrap_add_l a b : GoInt.wrap (GoInt.wrap a + b) = GoInt.wrap (a + b).
Proof.
  unfold GoInt.wrap. f_equal.
  replace (a + b + 9223372036854775808) with (a + 9223372036854775808 + b) by lia.
  rewrite <- (Zplus_mod_idemp_l (a + 9223372036854775808) b).
  f_equal. generalize ((a + 9223372036854775808) mod 18446744073709551616). lia.
Qed.

Lemma mods_total_app f l1 l2 : mods_total f (l1 ++ l2) = mods_total f l1 + mods_total f l2.
Proof.
  unfold mods_total. induction l1 as [|e l1 IH]; [done|].
  rewrite <- app_comm_cons. cbn [foldr]. rewrite IH. lia.
Qed.

Lemma mods_total_perm f l1 l2 : Permutation l1 l2 -> mods_total f l1 = mods_total f l2.
Proof. unfold mods_total. induction 1; cbn [foldr]; lia. Qed.

Lemma sum_mods_wrap f effs : forall acc,
  GoInt.in_range acc ->
  Character.sum_mods f acc effs = GoInt.wrap (acc + mods_total f effs).
Proof.
  unfold Character.sum_mods.
  induction effs as [|e effs IH]; intros acc Hacc; cbn [fold_left mods_total foldr].
  - rewrite Z.add_0_r. by rewrite wrap_id.
  - rewrite IH by apply wrap_in_range. unfold GoInt.add. rewrite wrap_add_l.
    f_equal. unfold mods_total. lia.
Qed.

(** X3. The effective attack, defense and speed are the base stat, plus the
    bonus of the weapon in hand (attack) or of the armor worn (defense), plus
    the sum of the deltas of all effects, wrapped to 64 bits as a whole:
    overflows in between cancel.  They are that sum when it is a 64-bit
    integer, and they do not depend on the order of the effects. *)

Theorem X3_effective_stats c :
  GoInt.in_range (Stats.Attack (Character.Stats c)) ->
  GoInt.in_range (Stats.Defense (Character.Stats c)) ->
  GoInt.in_range (Stats.Speed (Character.Stats c)) ->
  let attack := Stats.Attack (Character.Stats c) + weapon_bonus c
                + mods_total Effect.AtkMod (Character.Effects c) in
  let defense := Stats.Defense (Character.Stats c) + armor_bonus c
                 + mods_total Effect.DefMod (Character.Effects c) in
  let speed := Stats.Speed (Character.Stats c)
               + mods_total Effect.SpeedMod (Character.Effects c) in
  Character.EffectiveAttack c = GoInt.wrap attack /\
  Character.EffectiveDefense c = GoInt.wrap defense /\
  Character.EffectiveSpeed c = GoInt.wrap speed /\
  (GoInt.in_range attack -> Character.EffectiveAttack c = attack) /\
  (GoInt.in_range defense -> Character.EffectiveDefense c = defense) /\
  (GoInt.in_range speed -> Character.EffectiveSpeed c = speed) /\
  (forall effs, Permutation (Character.Effects c) effs ->
     let c' := Character.with_Effects effs c in
     Character.EffectiveAttack c' = Character.EffectiveAttack c /\
     Character.EffectiveDefense c' = Character.EffectiveDefense c /\
     Character.EffectiveSpeed c' = Character.EffectiveSpeed c).
Proof.
  intros Ha Hd Hs. cbv zeta.
  assert (forall effs,
    Character.EffectiveAttack (Character.with_Effects effs c)
    = GoInt.wrap (Stats.Attack (Character.Stats c) + weapon_bonus c
                  + mods_total Effect.AtkMod effs)) as HA.
  { intros effs. unfold Character.EffectiveAttack, weapon_bonus, Character.with_Effects.
    cbn [Character.Effects Character.Weapon Character.Stats].
    destruct (Character.Weapon c) as [wp|].
    - rewrite sum_mods_wrap by apply wrap_in_range. unfold GoInt.add. by rewrite wrap_add_l.
    - rewrite sum_mods_wrap by done. by rewrite Z.add_0_r. }
  assert (forall effs,
    Character.EffectiveDefense (Character.with_Effects effs c)
    = GoInt.wrap (Stats.Defense (Character.Stats c) + armor_bonus c
                  + mods_total Effect.DefMod effs)) as HD.
  { intros effs. unfold Character.EffectiveDefense, armor_bonus, Character.with_Effects.
    cbn [Character.Effects Character.Armor Character.Stats].
    destruct (Character.Armor c) as [ar|].
    - rewrite sum_mods_wrap by apply wrap_in_range. unfold GoInt.add. by rewrite wrap_add_l.
    - rewrite sum_mods_wrap by done. by rewrite Z.add_0_r. }
  assert (forall effs,
    Character.EffectiveSpeed (Character.with_Effects effs c)
    = GoInt.wrap (Stats.Speed (Character.Stats c) + mods_total Effect.SpeedMod effs)) as HS.
  { intros effs. unfold Character.EffectiveSpeed, Character.with_Effects.
    cbn [Character.Effects Character.Stats]. by rewrite sum_mods_wrap. }
  assert (Character.with_Effects (Character.Effects c) c = c) as Hc by by destruct c.
  pose proof (HA (Character.Effects c)) as HA0. pose proof (HD (Character.Effects c)) as HD0.
  pose proof (HS (Character.Effects c)) as HS0. rewrite Hc in HA0, HD0, HS0.
  split; [done|]. split; [done|]. split; [done|].
  split; [intros; by rewrite HA0, wrap_id|].
  split; [intros; by rewrite HD0, wrap_id|].
  split; [intros; by rewrite HS0, wrap_id|].
  intros effs HP. rewrite HA, HD, HS, HA0, HD0, HS0.
  by rewrite !(mods_total_perm _ _ _ HP).
Qed.

(** The slowed hero: attack 6 + 2 - 1 + 2, speed 7 - 3. *)

Lemma X3_witness :
  Character.EffectiveAttack Scenario.slowed = 6 + 0 + (2 + (-1) + 2) /\
  Character.EffectiveSpeed Scenario.slowed = 7 + (0 + (-3) + 0).
Proof.
  destruct (X3_effective_stats Scenario.slowed) as (_ & _ & _ & HA & _ & HS & _);
    try (vm_compute; split; discriminate).
  split; [apply HA|apply HS]; vm_compute; split; discriminate.
Defined.


(** ** Replacing an armor *)

(** X4. [EquipArmor] over an armor that is worn does not take the bonus of
    the old one back.  After wearing an armor with a hit-point bonus,
    replacing it by another and unequipping, no armor is worn and the defense
    is the one before, but maxHP is still raised by the bonus of the first
    armor. *)

Theorem X4_armor_replaced c a1 a2 :
  Character.Armor c = None ->
  Armor.HPBonus a1 <> 0 ->
  GoInt.in_range (Character.HPMax c) ->
  GoInt.in_range (Character.HPMax c + Armor.HPBonus a1) ->
  GoInt.in_range (Character.HPMax c + Armor.HPBonus a1 + Armor.HPBonus a2) ->
  let c1 := fst (Character.EquipArmor c a1) in
  let c2 := fst (Character.EquipArmor c1 a2) in
  let c3 := Character.UnequipArmor c2 in
  Character.Armor c2 = Some a2 /\
  Character.HPMax c2 = Character.HPMax c + Armor.HPBonus a1 + Armor.HPBonus a2 /\
  Character.Armor c3 = None /\
  Character.HPMax c3 = Character.HPMax c + Armor.HPBonus a1 /\
  Character.HPMax c3 <> Character.HPMax c /\
  Character.EffectiveDefense c3 = Character.EffectiveDefense c.
Proof.
  intros Hno H1 Hm Hm1 Hm2. cbv zeta.
  unfold Character.UnequipArmor, Character.EquipArmor, Character.EffectiveDefense.
  cbn. rewrite Hno.
  destruct (Z.eqb_spec (Armor.HPBonus a1) 0) as [|_]; [done|].
  unfold Character.HPMax, Character.HP in *. cbn.
  unfold GoInt.add. rewrite (wrap_id _ Hm1).
  destruct (Z.eqb_spec (Armor.HPBonus a2) 0) as [E2|E2]; cbn.
  - rewrite E2 in *. cbn. rewrite !Z.add_0_r in *. repeat split; try done; lia.
  - rewrite (wrap_id _ Hm2). unfold GoInt.sub.
    replace (Stats.HPMax (Character.Stats c) + Armor.HPBonus a1 + Armor.HPBonus a2
             - Armor.HPBonus a2)
      with (Stats.HPMax (Character.Stats c) + Armor.HPBonus a1) by lia.
    rewrite (wrap_id _ Hm1).
    destruct (Z.eqb_spec (Armor.HPBonus a2) 0) as [|_]; [done|].
    destruct (_ <? _); cbn; repeat split; try done; lia.
Qed.

(** The wounded hero wears the leather armor (+5), then the plate (+12), then
    nothing: maxHP went from 60 to 65. *)

Lemma X4_witness :
  let c3 := Character.UnequipArmor
              (fst (Character.EquipArmor
                      (fst (Character.EquipArmor Scenario.wounded Scenario.leather))
                      Arena.plate)) in
  Character.HPMax Scenario.wounded = 60 /\ Character.Armor c3 = None /\
  Character.HPMax c3 = 60 + 5.
Proof.
  destruct (X4_armor_replaced Scenario.wounded Scenario.leather Arena.plate)
    as (_ & _ & H3 & H4 & _);
    [reflexivity|vm_compute; discriminate|vm_compute; split; discriminate..|].
  split; [reflexivity|]. split; [exact H3|exact H4].
Defined.


(** ** Damage over time *)

Lemma total_dot_wrap effs :
  Character.total_dot effs = GoInt.wrap (mods_total Effect.DotHP effs).
Proof.
  unfold Character.total_dot.
  assert (forall acc, GoInt.in_range acc ->
    fold_left (fun tot e => if Effect.DotHP e =? 0 then tot
                            else GoInt.add tot (Effect.DotHP e)) effs acc
    = GoInt.wrap (acc + mods_total Effect.DotHP effs)) as H.
  { induction effs as [|e effs IH]; intros acc Hacc; cbn [fold_left mods_total foldr].
    - rewrite Z.add_0_r. by rewrite wrap_id.
    - destruct (Z.eqb_spec (Effect.DotHP e) 0) as [E|E].
      + rewrite IH by done. rewrite E. done.
      + rewrite IH by apply wrap_in_range. unfold GoInt.add. rewrite wrap_add_l.
        f_equal. unfold mods_total. lia. }
  rewrite H; [done|]. range. lia.
Qed.

(** X5. At the start of a turn the [DotHP] of all effects are added up (in
    64 bits).  A total of 0, also when damage and regeneration cancel,
    changes nothing and logs nothing.  Any other total is dealt as pure
    damage, floored at 1: defense and resistance do not count, and a
    negative total (a regeneration) costs 1 hit point.  The last line logged
    gives the total. *)

Theorem X5_start_turn_dot c :
  0 <= Character.HP c <= GoInt.max_int ->
  let total := GoInt.wrap (mods_total Effect.DotHP (Character.Effects c)) in
  let c' := fst (Character.ApplyEffectsStartTurn c) in
  let lines := snd (Character.ApplyEffectsStartTurn c) in
  (total = 0 -> c' = c /\ lines = []) /\
  (total <> 0 ->
   Character.HP c' = Z.max 0 (Character.HP c - Z.max 1 total) /\
   Character.Alive c' = Character.Alive c && (0 <? Character.HP c - Z.max 1 total) /\
   last lines = Some (Character.Name c +:+ " takes " +:+ pretty total +:+ " DOT damage")).
Proof.
  intros Hhp. cbv zeta. unfold Character.ApplyEffectsStartTurn.
  rewrite total_dot_wrap.
  set (total := GoInt.wrap _).
  destruct (Z.eqb_spec total 0) as [E|E]; [split; [done|]; intros; done|].
  split; [done|]. intros _.
  destruct (TakeDamage_dealt c total Pure (wrap_in_range _) Hhp) as (_ & H2 & H3).
  assert (Spec.mitigated_by GoInt.sub c total Pure = Z.max 1 total) as Hm by reflexivity.
  rewrite Hm in H2, H3.
  assert (Character.Name (fst (Character.TakeDamage c total Pure)) = Character.Name c) as Hn.
  { unfold Character.TakeDamage. by destruct (_ <=? 0). }
  destruct (Character.TakeDamage c total Pure) as [c' msgs]. cbn [fst snd] in *.
  rewrite last_snoc, Hn. done.
Qed.

(** The wounded hero with a regeneration of 4 loses 1 hit point; with a burn
    of 4 that cancels it nothing happens. *)

Lemma X5_witness :
  let c := Character.with_Effects [Arena.regen] Scenario.wounded in
  let c0 := Character.with_Effects [Arena.regen; Arena.burn] Scenario.wounded in
  Character.HP (fst (Character.ApplyEffectsStartTurn c)) = Z.max 0 (10 - Z.max 1 (-4)) /\
  Character.ApplyEffectsStartTurn c0 = (c0, []).
Proof.
  cbv zeta. split.
  - apply (proj2 (X5_start_turn_dot (Character.with_Effects [Arena.regen] Scenario.wounded)
                    ltac:(vm_compute; split; discriminate))).
    vm_compute. discriminate.
  - destruct (proj1 (X5_start_turn_dot
                       (Character.with_Effects [Arena.regen; Arena.burn] Scenario.wounded)
                       ltac:(vm_compute; split; discriminate)) eq_refl) as [H1 H2].
    rewrite (surjective_pairing (Character.ApplyEffectsStartTurn _)). by rewrite H1, H2.
Defined.


(** ** The log of the end of a turn *)

Lemma end_turn_loop_log name effs :
  snd (Character.end_turn_loop name effs)
  = ended_line name <$> filter (fun e => Effect.Duration e <= 0) (Effect.Tick <$> effs).
Proof.
  induction effs as [|e rest IH]; [done|].
  cbn [Character.end_turn_loop fmap list_fmap]. rewrite filter_cons.
  destruct (Character.end_turn_loop name rest) as [kept msgs]. cbn [snd] in IH. subst msgs.
  destruct (Z.ltb_spec 0 (Effect.Duration (Effect.Tick e)));
    destruct (decide (Effect.Duration (Effect.Tick e) <= 0)); try lia; done.
Qed.

(** X6. At the end of a turn every effect is ticked; the ones with time left
    are kept, in order, and for each of the others one line is logged, in
    order, that names the effect and its holder.  Nothing else of the holder
    changes, and kept and logged effects together are all the effects. *)

Theorem X6_end_turn_log c :
  let c' := fst (Character.ApplyEffectsEndTurn c) in
  let lines := snd (Character.ApplyEffectsEndTurn c) in
  let ticked := Effect.Tick <$> Character.Effects c in
  c' = Character.with_Effects (filter (fun e => 0 < Effect.Duration e) ticked) c /\
  lines = ended_line (Character.Name c) <$> filter (fun e => Effect.Duration e <= 0) ticked /\
  (length (Character.Effects c') + length lines = length (Character.Effects c))%nat.
Proof.
  cbv zeta.
  assert (snd (Character.ApplyEffectsEndTurn c)
          = ended_line (Character.Name c)
              <$> filter (fun e => Effect.Duration e <= 0) (Effect.Tick <$> Character.Effects c))
    as Hl.
  { unfold Character.ApplyEffectsEndTurn. rewrite <- end_turn_loop_log.
    by destruct (Character.end_turn_loop _ _). }
  rewrite ApplyEffectsEndTurn_effects, Hl. split; [done|]. split; [done|].
  cbn [Character.Effects Character.with_Effects]. unfold Spec.tick_effects.
  rewrite length_fmap. change (map Effect.Tick) with (fmap (M:=list) Effect.Tick).
  rewrite <- (length_fmap Effect.Tick (Character.Effects c)).
  generalize (Effect.Tick <$> Character.Effects c) as l. intros l.
  induction l as [|e l IH]; [done|]. rewrite !filter_cons.
  destruct (decide (0 < Effect.Duration e)); destruct (decide (Effect.Duration e <= 0));
    try lia; cbn [length]; lia.
Qed.


(** ** Skills *)

(** X7. [UseSkillAt] with an index that is negative or not below the number
    of skills logs one line and does nothing else: no MP is spent, no random
    number is drawn, the heap is as it was. *)

Theorem X7_invalid_skill_index draws w c idx targets me :
  heap w !! c = Some me ->
  idx < 0 \/ Z.of_nat (length (Character.Skills me)) <= idx ->
  UseSkillAt draws c idx targets w =
    Ok tt (mkWorld (heap w) (rand_pos w)
             (out w ++ [Character.Name me +:+ " tried to use invalid skill"])).
Proof.
  intros Hc Hidx. unfold UseSkillAt.
  rewrite (bind_ok _ _ _ _ _ (deref_ok _ _ _ Hc)).
  destruct (Z.ltb_spec idx 0); [done|].
  destruct (Z.leb_spec (Z.of_nat (length (Character.Skills me))) idx); [done|lia].
Qed.

(** The cleric has one skill: index 1 is invalid. *)

Lemma X7_witness :
  UseSkillAt Scenario.zeros 0%nat 1 [Some 1%nat] Scenario.chapel_world =
    Ok tt (mkWorld (heap Scenario.chapel_world) 0 ["Cleric tried to use invalid skill"%string]).
Proof.
  apply (X7_invalid_skill_index Scenario.zeros Scenario.chapel_world 0%nat 1 [Some 1%nat]
           Scenario.cleric); [reflexivity|right; cbn; lia].
Defined.

(** Paying for a skill: the steps of [UseSkillAt] up to the two loops. *)
Lemma UseSkillAt_paid draws w c idx targets me s :
  heap w !! c = Some me ->
  0 <= idx -> Character.Skills me !! Z.to_nat idx = Some s ->
  Skill.MPCost s <= Character.MP me ->
  UseSkillAt draws c idx targets w =
    ((if GoFloat.ltb GoFloat.zero (Skill.DamageMultiplier s)
      then damage_loop draws c s targets else mret tt);;
     (if 0 <? Skill.HealHP s then heal_loop c s targets else mret tt))
      (mkWorld (<[c := Character.with_MP (GoInt.sub (Character.MP me) (Skill.MPCost s)) me]>
                  (heap w))
               (rand_pos w)
               (out w ++ [Character.Name me +:+ " uses skill " +:+ Skill.Name s])).
Proof.
  intros Hc H0 Hs Hmp. unfold UseSkillAt.
  rewrite (bind_ok _ _ _ _ _ (deref_ok _ _ _ Hc)).
  pose proof (lookup_lt_Some _ _ _ Hs) as Hlen.
  destruct (Z.ltb_spec idx 0); [lia|].
  destruct (Z.leb_spec (Z.of_nat (length (Character.Skills me))) idx); [lia|].
  cbn [orb]. rewrite Hs.
  erewrite bind_ok; [|by apply invoke_ok]. unfold Character.UseMP.
  destruct (Z.ltb_spec (Character.MP me) (Skill.MPCost s)); [lia|].
  cbn [fst snd negb]. erewrite bind_ok; [|reflexivity]. done.
Qed.

Lemma alive_at_insert h c me me' p :
  h !! c = Some me -> Character.Alive me' = Character.Alive me ->
  alive_at (<[c := me']> h) p = alive_at h p.
Proof.
  intros Hc Hal. unfold alive_at. destruct (decide (p = c)) as [->|Hne].
  - rewrite list_lookup_insert_eq by (by eapply lookup_lt_Some). by rewrite Hc.
  - by rewrite list_lookup_insert_ne.
Qed.

Lemma damage_loop_dead draws c s targets w :
  Forall (fun t => exists p, t = Some p /\ is_Some (heap w !! p) /\ alive_at (heap w) p = false)
         targets ->
  damage_loop draws c s targets w = Ok tt w.
Proof.
  induction 1 as [|t rest (p & -> & [tc Htc] & Hd) _ IH]; [done|].
  cbn [damage_loop]. rewrite (bind_ok _ _ _ _ _ (deref_ok _ _ _ Htc)).
  unfold alive_at in Hd. rewrite Htc in Hd. by rewrite Hd.
Qed.

Lemma heal_loop_dead c s targets w :
  Forall (fun t => exists p, t = Some p /\ is_Some (heap w !! p) /\ alive_at (heap w) p = false)
         targets ->
  heal_loop c s targets w = Ok tt w.
Proof.
  induction 1 as [|t rest (p & -> & [tc Htc] & Hd) _ IH]; [done|].
  cbn [heal_loop]. rewrite (bind_ok _ _ _ _ _ (deref_ok _ _ _ Htc)).
  unfold alive_at in Hd. rewrite Htc in Hd. by rewrite Hd.
Qed.

(** X8. A skill that the caster can pay, cast on targets that are all dead
    (or on no target at all), costs its MP and logs that it is used, and
    does nothing else: no damage, no healing, no effect, no random draw. *)

Theorem X8_skill_on_dead_targets draws w c idx targets me s :
  heap w !! c = Some me ->
  0 <= idx -> Character.Skills me !! Z.to_nat idx = Some s ->
  Skill.MPCost s <= Character.MP me ->
  Forall (fun t => exists p, t = Some p /\ is_Some (heap w !! p) /\ alive_at (heap w) p = false)
         targets ->
  UseSkillAt draws c idx targets w =
    Ok tt (mkWorld (<[c := Character.with_MP (GoInt.sub (Character.MP me) (Skill.MPCost s)) me]>
                      (heap w))
                   (rand_pos w)
                   (out w ++ [Character.Name me +:+ " uses skill " +:+ Skill.Name s])).
Proof.
  intros Hc H0 Hs Hmp Hdead.
  rewrite (UseSkillAt_paid draws w c idx targets me s Hc H0 Hs Hmp).
  set (w1 := mkWorld _ _ _).
  assert (Forall (fun t => exists p, t = Some p /\ is_Some (heap w1 !! p)
                                     /\ alive_at (heap w1) p = false) targets) as Hdead1.
  { eapply Forall_impl; [exact Hdead|]. cbn beta. intros t (p & -> & Hp & Hd).
    exists p. split; [done|]. subst w1. cbn [heap]. split.
    - apply lookup_lt_is_Some. rewrite length_insert. by apply lookup_lt_is_Some.
    - by rewrite (alive_at_insert _ _ me). }
  assert ((if GoFloat.ltb GoFloat.zero (Skill.DamageMultiplier s)
           then damage_loop draws c s targets else mret tt) w1 = Ok tt w1) as Hd.
  { destruct (GoFloat.ltb _ _); [by apply damage_loop_dead|done]. }
  rewrite (bind_ok _ _ _ _ _ Hd).
  destruct (0 <? Skill.HealHP s); [by apply heal_loop_dead|done].
Qed.

(** The cleric heals the fallen guard: 8 MP are gone. *)

Lemma X8_witness :
  UseSkillAt Scenario.zeros 0%nat 0 [Some 1%nat] Arena.ward_world =
    Ok tt (mkWorld [Character.with_MP 42 Arena.healer; Arena.fallen] 0
                   ["Cleric uses skill Heal"%string]).
Proof.
  apply (X8_skill_on_dead_targets Scenario.zeros Arena.ward_world 0%nat 0 [Some 1%nat]
           Arena.healer Scenario.heal8); [reflexivity|lia|reflexivity|vm_compute; discriminate|].
  repeat constructor. exists 1%nat. split; [reflexivity|]. split; [eexists; reflexivity|reflexivity].
Defined.

Lemma Heal_exact c amount :
  GoInt.in_range (Character.HP c + amount) ->
  Character.Heal c amount
  = Character.with_HP (Z.min (Character.HP c + amount) (Character.HPMax c)) c.
Proof.
  intros Hr. unfold Character.Heal, GoInt.add. rewrite wrap_id by done.
  destruct (Z.ltb_spec (Character.HPMax c) (Character.HP c + amount)); f_equal; lia.
Qed.

(** X9. A skill that only heals, cast on one living target (the caster
    itself or another character): the caster pays the MP, the target's hit
    points go up by [HealHP] but not above its maxHP, two lines are logged
    and no random number is drawn.  [tc] is the target once the MP is paid:
    the caster without the MP when it heals itself. *)


(** The cleric at 10 of 45 hit points heals itself for 18. *)


(** X10. A skill that only damages, cast on one living target other than the
    caster, without a critical hit: the caster pays the MP; the power is
    the integer part of the scaled stat (the caster's [Magic] for a magic
    skill, else its effective attack) times the multiplier, plus a draw in
    [-1, 1]; the target takes that as damage of the skill's type and then
    receives the skill's effect, also when the hit killed it.  Two random
    numbers are drawn. *)

Theorem X10_damage_skill draws w c idx t me s tc :
  heap w !! c = Some me ->
  0 <= idx -> Character.Skills me !! Z.to_nat idx = Some s ->
  Skill.MPCost s <= Character.MP me ->
  GoFloat.ltb GoFloat.zero (Skill.DamageMultiplier s) = true ->
  Skill.HealHP s <= 0 ->
  t <> c -> heap w !! t = Some tc -> Character.Alive tc = true ->
  GoFloat.ltb (GoFloat.unit_fraction (draws (S (rand_pos w))))
              (Stats.CritRate (Character.Stats me)) = false ->
  let paid := Character.with_MP (GoInt.sub (Character.MP me) (Skill.MPCost s)) me in
  let power :=
    GoInt.add (GoFloat.to_int (GoFloat.mul (GoFloat.of_int (skill_stat me s))
                                 (Skill.DamageMultiplier s)))
              (GoInt.sub (draws (rand_pos w) mod 3) 1) in
  let hit := Character.TakeDamage tc power (Skill.DamageType s) in
  UseSkillAt draws c idx [Some t] w =
    Ok tt (mkWorld (<[t := fst (affected s (fst hit))]> (<[c := paid]> (heap w)))
                   (S (S (rand_pos w)))
                   (out w ++ [Character.Name me +:+ " uses skill " +:+ Skill.Name s;
                              Character.Name me +:+ " deals " +:+ pretty power
                                +:+ " damage to " +:+ Character.Name tc +:+ " with "
                                +:+ Skill.Name s]
                          ++ snd hit ++ snd (affected s (fst hit)))).
Proof.
  intros Hc H0 Hs Hmp Hdm Hheal Hne Ht Hal Hcrit paid power hit.
  rewrite (UseSkillAt_paid draws w c idx [Some t] me s Hc H0 Hs Hmp).
  rewrite Hdm. fold paid. cbn [damage_loop].
  set (w1 := mkWorld _ _ _).
  assert (heap w1 !! t = Some tc) as Ht1.
  { subst w1. cbn [heap]. by rewrite list_lookup_insert_ne. }
  assert (heap w1 !! c = Some paid) as Hc1.
  { subst w1. cbn [heap]. apply list_lookup_insert_eq. by eapply lookup_lt_Some. }
  assert ((tc0 ← deref t;
           if negb (Character.Alive tc0) then mret tt
           else
             me0 ← deref c;
             j ← rand_Intn draws 3;
             power0 ← crit_roll draws me0
               (GoInt.add
                  (if String.eqb (Skill.DamageType s) Magic
                   then GoFloat.to_int (GoFloat.mul (GoFloat.of_int (Stats.Magic (Character.Stats me0)))
                                          (Skill.DamageMultiplier s))
                   else GoFloat.to_int (GoFloat.mul (GoFloat.of_int (Character.EffectiveAttack me0))
                                          (Skill.DamageMultiplier s)))
                  (GoInt.sub j 1))
               ("Skill crit! (" +:+ Character.Name me0 +:+ ")");
             logFunc (Character.Name me0 +:+ " deals " +:+ pretty power0 +:+ " damage to "
                        +:+ Character.Name tc0 +:+ " with " +:+ Skill.Name s);;
             call t (fun tc => Character.TakeDamage tc power0 (Skill.DamageType s));;
             add_skill_effect s t;;
             mret tt) w1
          = Ok tt (mkWorld (<[t := fst (affected s (fst hit))]> (<[c := paid]> (heap w)))
                   (S (S (rand_pos w)))
                   (out w ++ [Character.Name me +:+ " uses skill " +:+ Skill.Name s;
                              Character.Name me +:+ " deals " +:+ pretty power
                                +:+ " damage to " +:+ Character.Name tc +:+ " with "
                                +:+ Skill.Name s]
                          ++ snd hit ++ snd (affected s (fst hit))))) as Hloop.
  { rewrite (bind_ok _ _ _ _ _ (deref_ok _ _ _ Ht1)). rewrite Hal. cbn [negb].
    rewrite (bind_ok _ _ _ _ _ (deref_ok _ _ _ Hc1)).
    rewrite (bind_ok _ _ _ _ _ (rand_Intn_ok draws 3 w1 ltac:(lia))).
    assert ((if String.eqb (Skill.DamageType s) Magic
             then GoFloat.to_int (GoFloat.mul (GoFloat.of_int (Stats.Magic (Character.Stats paid)))
                                    (Skill.DamageMultiplier s))
             else GoFloat.to_int (GoFloat.mul (GoFloat.of_int (Character.EffectiveAttack paid))
                                    (Skill.DamageMultiplier s)))
            = GoFloat.to_int (GoFloat.mul (GoFloat.of_int (skill_stat me s))
                                (Skill.DamageMultiplier s))) as ->.
    { unfold skill_stat. by destruct (String.eqb _ _). }
    erewrite bind_ok; [|apply crit_roll_miss; exact Hcrit].
    erewrite bind_ok; [|reflexivity].
    erewrite bind_ok; [|apply call_ok; exact Ht1].
    cbn [heap rand_pos out]. fold power. fold hit.
    unfold add_skill_effect, affected.
    destruct (Skill.Effect s) as [e|].
    - erewrite bind_ok;
        [|apply call_ok; cbn [heap]; apply list_lookup_insert_eq; by eapply lookup_lt_Some].
      unfold mret, M_ret. subst w1. cbn [heap rand_pos out]. rewrite list_insert_insert_eq.
      by rewrite <- !app_assoc.
    - erewrite bind_ok; [|reflexivity]. unfold mret, M_ret. subst w1.
      cbn [fst snd heap rand_pos out]. by rewrite app_nil_r, <- !app_assoc. }
  match goal with |- (?m ≫= _) _ = _ => change m with
    (tc0 ← deref t;
           if negb (Character.Alive tc0) then mret tt
           else
             me0 ← deref c;
             j ← rand_Intn draws 3;
             power0 ← crit_roll draws me0
               (GoInt.add
                  (if String.eqb (Skill.DamageType s) Magic
                   then GoFloat.to_int (GoFloat.mul (GoFloat.of_int (Stats.Magic (Character.Stats me0)))
                                          (Skill.DamageMultiplier s))
                   else GoFloat.to_int (GoFloat.mul (GoFloat.of_int (Character.EffectiveAttack me0))
                                          (Skill.DamageMultiplier s)))
                  (GoInt.sub j 1))
               ("Skill crit! (" +:+ Character.Name me0 +:+ ")");
             logFunc (Character.Name me0 +:+ " deals " +:+ pretty power0 +:+ " damage to "
                        +:+ Character.Name tc0 +:+ " with " +:+ Skill.Name s);;
             call t (fun tc => Character.TakeDamage tc power0 (Skill.DamageType s));;
             add_skill_effect s t;;
             mret tt) end.
  rewrite (bind_ok _ _ _ _ _ Hloop).
  destruct (Z.ltb_spec 0 (Skill.HealHP s)); [lia|done].
Qed.

(** The fireball of the program: magic 4 times 2.2 is 8.8, so 8, less 1. *)

Lemma X10_witness :
  exists tc',
    UseSkillAt Scenario.zeros 0%nat 0 [Some 1%nat] Arena.tower_world =
      Ok tt (mkWorld [Character.with_MP 24 Arena.mage; tc'] 2
               ["Hero uses skill Fireball"; "Hero deals 7 damage to Guard with Fireball"]%string) /\
    Character.HP tc' = 35 - 7.
Proof.
  eexists. split.
  - apply (X10_damage_skill Scenario.zeros Arena.tower_world 0%nat 0 1%nat
             Arena.mage Arena.fireball Scenario.guard);
      try reflexivity; try lia; vm_compute; discriminate.
  - reflexivity.
Defined.

(** X11. [UseSkillAt] does not test its targets for nil: a skill that damages
    or heals, cast on a target list that starts with nil, panics (after the
    MP is paid), where [Turn] guards the basic attack with [target != nil]. *)
Theorem X11_nil_target_panics draws w c idx rest me s :
  heap w !! c = Some me ->
  0 <= idx -> Character.Skills me !! Z.to_nat idx = Some s ->
  Skill.MPCost s <= Character.MP me ->
  GoFloat.ltb GoFloat.zero (Skill.DamageMultiplier s) = true \/ 0 < Skill.HealHP s ->
  UseSkillAt draws c idx (None :: rest) w = Panic.
Proof.
  intros Hc H0 Hs Hmp Hact.
  rewrite (UseSkillAt_paid draws w c idx (None :: rest) me s Hc H0 Hs Hmp).
  unfold mbind, M_bind. destruct (GoFloat.ltb _ _) eqn:Hdm; [done|].
  destruct Hact as [|Hheal]; [done|].
  destruct (Z.ltb_spec 0 (Skill.HealHP s)); [done|lia].
Qed.

(** The fireball cast at nobody. *)
Lemma X11_witness :
  UseSkillAt Scenario.zeros 0%nat 0 [None] Arena.tower_world = Panic.
Proof.
  apply (X11_nil_target_panics Scenario.zeros Arena.tower_world 0%nat 0 [] Arena.mage
           Arena.fireball); try reflexivity; try lia; [vm_compute; discriminate|by left].
Defined.


(** ** Basic attacks *)

Lemma StartTurn_keeps c :
  let c' := fst (Character.ApplyEffectsStartTurn c) in
  Character.Skills c' = Character.Skills c /\ Character.Team c' = Character.Team c /\
  Character.Name c' = Character.Name c.
Proof.
  cbv zeta. unfold Character.ApplyEffectsStartTurn. destruct (_ =? 0); [done|].
  assert (forall a d, Character.Skills (fst (Character.TakeDamage c a d)) = Character.Skills c /\
                      Character.Team (fst (Character.TakeDamage c a d)) = Character.Team c /\
                      Character.Name (fst (Character.TakeDamage c a d)) = Character.Name c) as H.
  { intros a d. unfold Character.TakeDamage. by destruct (_ <=? 0). }
  specialize (H (Character.total_dot (Character.Effects c)) Pure).
  by destruct (Character.TakeDamage _ _ _).
Qed.

Lemma valid_insert (h : list Character.t) p c l :
  Forall (fun q => is_Some (h !! q)) l -> Forall (fun q => is_Some (<[p := c]> h !! q)) l.
Proof.
  intros H. eapply Forall_impl; [exact H|]. cbn beta. intros q Hq.
  apply lookup_lt_is_Some. rewrite length_insert. by apply lookup_lt_is_Some.
Qed.

(** X12. An actor without skills that dies from damage over time at the start
    of its turn does not attack: its turn only applies the damage and ticks
    its effects; no other character changes and no random number is
    drawn. *)

Theorem X12_dot_death_no_attack draws b w actor a :
  rosters_valid b (heap w) ->
  heap w !! actor = Some a ->
  Character.Skills a = [] ->
  let a1 := fst (Character.ApplyEffectsStartTurn a) in
  Character.Alive a1 = false ->
  exists stop,
    actor_turn draws b actor w =
      Ok stop (mkWorld (<[actor := fst (Character.ApplyEffectsEndTurn a1)]> (heap w))
                       (rand_pos w)
                       (out w ++ [Character.Name a +:+ " is thinking..."]
                              ++ snd (Character.ApplyEffectsStartTurn a)
                              ++ snd (Character.ApplyEffectsEndTurn a1))).
Proof.
  intros Hv Ha Hsk a1 Hdead. unfold actor_turn.
  rewrite (bind_ok _ _ _ _ _ (deref_ok _ _ _ Ha)).
  erewrite bind_ok; [|reflexivity].
  erewrite bind_ok; [|by apply call_ok]. fold a1. cbn [heap rand_pos out].
  set (w1 := mkWorld _ _ _).
  assert (heap w1 !! actor = Some a1) as Ha1.
  { subst w1. cbn [heap]. apply list_lookup_insert_eq. by eapply lookup_lt_Some. }
  destruct (StartTurn_keeps a) as (Hsk1 & _ & _). fold a1 in Hsk1.
  set (targets := if String.eqb (Character.Team a) "player"
                  then Battle.Enemies b else Battle.Players b).
  assert (try_skill draws actor targets w1 = Ok false w1) as Htry.
  { unfold try_skill. rewrite (bind_ok _ _ _ _ _ (deref_ok _ _ _ Ha1)).
    by rewrite Hsk1, Hsk. }
  rewrite (bind_ok _ _ _ _ _ Htry). cbv iota.
  assert (rosters_valid b (heap w1)) as Hv1 by (by apply valid_insert).
  assert (Forall (fun p => is_Some (heap w1 !! p)) targets) as Hvt.
  { apply rosters_valid_split in Hv1 as [Hp He]. subst targets. by destruct (String.eqb _ _). }
  assert ((target ← chooseFirstAlive targets;
           match target with
           | Some t => BasicAttack draws actor t
           | None => mret tt
           end) w1 = Ok tt w1) as Hact.
  { rewrite (bind_ok _ _ _ _ _ (chooseFirstAlive_run _ _ Hvt)).
    destruct (find _ _) as [t|]; [|done].
    unfold BasicAttack. rewrite (bind_ok _ _ _ _ _ (deref_ok _ _ _ Ha1)). by rewrite Hdead. }
  rewrite (bind_ok _ _ _ _ _ Hact).
  erewrite bind_ok; [|by apply call_ok].
  subst w1. cbn [heap rand_pos out]. rewrite list_insert_insert_eq.
  match goal with |- context [battle_over b ?w2] =>
    assert (rosters_valid b (heap w2)) as Hv2 by (by apply valid_insert);
    rewrite (battle_over_run b w2 Hv2)
  end.
  eexists. by rewrite <- !app_assoc.
Qed.

(** The hero with 10 hit points and a poison of 20. *)

Lemma X12_witness :
  exists stop a',
    actor_turn Scenario.zeros Scenario.spar 0%nat Arena.doomed_world =
      Ok stop (mkWorld [a'; Scenario.guard] 0
                 ["Hero is thinking..."; "Hero died!"; "Hero takes 20 DOT damage"]%string) /\
    Character.Alive a' = false.
Proof.
  destruct (X12_dot_death_no_attack Scenario.zeros Scenario.spar Arena.doomed_world 0%nat
              Arena.doomed) as [stop Hrun]; try reflexivity.
  { repeat constructor; eexists; reflexivity. }
  exists stop. eexists. split; [exact Hrun|reflexivity].
Defined.

(** X13. A living attacker whose weapon has [DamageMax] below [DamageMin]
    makes [BasicAttack] panic: [rand.Intn] gets a bound that is not
    positive. *)


(** A weapon with the range [6, 3]. *)


Lemma normalize_nonneg_not_below_zero m e :
  0 <= m ->
  SFltb (binary_normalize GoFloat.prec GoFloat.emax m e false) (S754_zero false) = false.
Proof.
  intros Hm. unfold SFltb, binary_normalize.
  destruct m as [|m|m]; [done| |lia].
  unfold binary_round. destruct (shl_align _ _ _) as [mz ez].
  unfold binary_round_aux.
  destruct (shr_fexp _ _ _ _ _) as [mrs e']. destruct (shr_fexp _ _ _ _ _) as [mrs' e''].
  destruct (shr_m mrs') as [|p|p]; try done.
  destruct (_ <=? _); done.
Qed.

(** No draw of [rand.Float64] is below a crit rate of 0. *)
Lemma no_crit_at_zero k : GoFloat.ltb (GoFloat.unit_fraction k) GoFloat.zero = false.
Proof.
  apply normalize_nonneg_not_below_zero.
  pose proof (Z.mod_pos_bound k (2 ^ 53) ltac:(lia)). lia.
Qed.

(** X14. A basic attack of a living attacker with crit rate 0 never crits,
    whatever the random source gives: the raw damage is a value between
    [min + attack] and [max + attack], for the range of the weapon, or [1, 2]
    with bare hands, and the attacker's effective attack; the target takes
    it with the type of the weapon (physical with bare hands); two random
    numbers are drawn. *)

Theorem X14_basic_attack_range draws w c target me tc min_ max_ dtype :
  heap w !! c = Some me -> heap w !! target = Some tc ->
  Character.Alive me = true ->
  Stats.CritRate (Character.Stats me) = GoFloat.zero ->
  attack_profile me = (min_, max_, dtype) ->
  min_ <= max_ -> - 2 ^ 61 <= min_ -> max_ <= 2 ^ 61 ->
  - 2 ^ 61 <= Character.EffectiveAttack me <= 2 ^ 61 ->
  exists raw,
    min_ + Character.EffectiveAttack me <= raw <= max_ + Character.EffectiveAttack me /\
    BasicAttack draws c target w =
      Ok tt (mkWorld (<[target := fst (Character.TakeDamage tc raw dtype)]> (heap w))
                     (S (S (rand_pos w)))
                     (out w ++ [Character.Name me +:+ " attacks " +:+ Character.Name tc
                                  +:+ " for " +:+ pretty raw +:+ " damage (" +:+ dtype +:+ ")"]
                            ++ snd (Character.TakeDamage tc raw dtype))).
Proof.
  intros Hc Ht Hal Hcrit Hprof Hle Hmin Hmax Hatk. unfold attack_profile in Hprof.
  set (n := max_ - min_ + 1).
  pose proof (Z.mod_pos_bound (draws (rand_pos w)) n ltac:(lia)) as Hr.
  set (r := draws (rand_pos w) mod n) in *.
  exists (r + min_ + Character.EffectiveAttack me). split; [lia|].
  unfold BasicAttack. rewrite (bind_ok _ _ _ _ _ (deref_ok _ _ _ Hc)).
  rewrite Hal, Hprof. cbn [negb].
  assert (GoInt.add (GoInt.sub max_ min_) 1 = n) as ->.
  { unfold GoInt.add, GoInt.sub. rewrite (wrap_id (max_ - min_)) by (range; lia).
    apply wrap_id. range. lia. }
  rewrite (bind_ok _ _ _ _ _ (rand_Intn_ok draws n w ltac:(lia))). fold r.
  assert (GoInt.add (GoInt.add r min_) (Character.EffectiveAttack me)
          = r + min_ + Character.EffectiveAttack me) as ->.
  { unfold GoInt.add. rewrite (wrap_id (r + min_)) by (range; lia).
    apply wrap_id. range. lia. }
  erewrite bind_ok; [|apply crit_roll_miss; rewrite Hcrit; apply no_crit_at_zero].
  erewrite bind_ok; [|by apply deref_ok].
  erewrite bind_ok; [|reflexivity].
  rewrite call_ok with (c := tc) by done. cbn [heap rand_pos out].
  by rewrite <- app_assoc.
Qed.

(** The swordsman hits the guard, with a random source that is not
    constant. *)

Lemma X14_witness :
  exists raw,
    3 + 6 <= raw <= 6 + 6 /\
    BasicAttack (fun n => Z.of_nat n + 2) 0%nat 1%nat Scenario.spar_world =
      Ok tt (mkWorld (<[1%nat := fst (Character.TakeDamage Scenario.guard raw Physical)]>
                        (heap Scenario.spar_world))
                     2
                     ([("Hero attacks Guard for " +:+ pretty raw +:+ " damage (physical)")%string]
                        ++ snd (Character.TakeDamage Scenario.guard raw Physical))).
Proof.
  apply (X14_basic_attack_range (fun n => Z.of_nat n + 2) Scenario.spar_world 0%nat 1%nat
           Scenario.swordsman Scenario.guard 3 6 Physical);
    try reflexivity; vm_compute; try discriminate; split; discriminate.
Defined.

Lemma crit_roll_hit draws me amount line w :
  GoFloat.ltb (GoFloat.unit_fraction (draws (rand_pos w)))
              (Stats.CritRate (Character.Stats me)) = true ->
  crit_roll draws me amount line w =
    Ok (GoFloat.to_int (GoFloat.mul (GoFloat.of_int amount)
                          (Stats.CritMult (Character.Stats me))))
       (mkWorld (heap w) (S (rand_pos w)) (out w ++ [line])).
Proof. intros H. unfold crit_roll, mbind, M_bind, rand_Float64. by rewrite H. Qed.

(** X21. A basic attack of a living attacker whose crit draw is below its
    crit rate: the damage rolled, a value between [min + attack] and
    [max + attack], is converted to float64, multiplied by [CritMult] and
    truncated to an integer; ["Critical hit! (<name>)"] is logged before the
    line of the attack; the target takes the result with the type of the
    weapon; two random numbers are drawn. *)

Theorem X21_critical_hit draws w c target me tc min_ max_ dtype :
  heap w !! c = Some me -> heap w !! target = Some tc ->
  Character.Alive me = true ->
  attack_profile me = (min_, max_, dtype) ->
  min_ <= max_ -> - 2 ^ 61 <= min_ -> max_ <= 2 ^ 61 ->
  - 2 ^ 61 <= Character.EffectiveAttack me <= 2 ^ 61 ->
  GoFloat.ltb (GoFloat.unit_fraction (draws (S (rand_pos w))))
              (Stats.CritRate (Character.Stats me)) = true ->
  exists base,
    min_ + Character.EffectiveAttack me <= base <= max_ + Character.EffectiveAttack me /\
    let raw := GoFloat.to_int (GoFloat.mul (GoFloat.of_int base)
                                 (Stats.CritMult (Character.Stats me))) in
    BasicAttack draws c target w =
      Ok tt (mkWorld (<[target := fst (Character.TakeDamage tc raw dtype)]> (heap w))
                     (S (S (rand_pos w)))
                     (out w ++ ["Critical hit! (" +:+ Character.Name me +:+ ")";
                                Character.Name me +:+ " attacks " +:+ Character.Name tc
                                  +:+ " for " +:+ pretty raw +:+ " damage (" +:+ dtype +:+ ")"]
                            ++ snd (Character.TakeDamage tc raw dtype))).
Proof.
  intros Hc Ht Hal Hprof Hle Hmin Hmax Hatk Hcrit. unfold attack_profile in Hprof.
  set (n := max_ - min_ + 1).
  pose proof (Z.mod_pos_bound (draws (rand_pos w)) n ltac:(lia)) as Hr.
  set (r := draws (rand_pos w) mod n) in *.
  exists (r + min_ + Character.EffectiveAttack me). split; [lia|]. cbv zeta.
  unfold BasicAttack. rewrite (bind_ok _ _ _ _ _ (deref_ok _ _ _ Hc)).
  rewrite Hal, Hprof. cbn [negb].
  assert (GoInt.add (GoInt.sub max_ min_) 1 = n) as ->.
  { unfold GoInt.add, GoInt.sub. rewrite (wrap_id (max_ - min_)) by (range; lia).
    apply wrap_id. range. lia. }
  rewrite (bind_ok _ _ _ _ _ (rand_Intn_ok draws n w ltac:(lia))). fold r.
  assert (GoInt.add (GoInt.add r min_) (Character.EffectiveAttack me)
          = r + min_ + Character.EffectiveAttack me) as ->.
  { unfold GoInt.add. rewrite (wrap_id (r + min_)) by (range; lia).
    apply wrap_id. range. lia. }
  erewrite bind_ok; [|apply crit_roll_hit; exact Hcrit].
  erewrite bind_ok; [|by apply deref_ok].
  erewrite bind_ok; [|reflexivity].
  rewrite call_ok with (c := tc) by done. cbn [heap rand_pos out].
  by rewrite <- !app_assoc.
Qed.

(** A swordsman with crit rate 1.0 and multiplier 1.5. *)

Lemma X21_witness :
  exists base,
    3 + 6 <= base <= 6 + 6 /\
    let raw := GoFloat.to_int (GoFloat.mul (GoFloat.of_int base) Scenario.f1_5) in
    BasicAttack Scenario.zeros 0%nat 1%nat Arena.lucky_world =
      Ok tt (mkWorld (<[1%nat := fst (Character.TakeDamage Scenario.guard raw Physical)]>
                        (heap Arena.lucky_world))
                     2
                     (["Critical hit! (Hero)";
                       "Hero attacks Guard for " +:+ pretty raw +:+ " damage (physical)"]%string
                        ++ snd (Character.TakeDamage Scenario.guard raw Physical))).
Proof.
  apply (X21_critical_hit Scenario.zeros Arena.lucky_world 0%nat 1%nat Arena.lucky
           Scenario.guard 3 6 Physical);
    try reflexivity; vm_compute; try discriminate; split; discriminate.
Defined.


(** ** Choosing a target *)

(** X15. [chooseFirstAlive] returns the first pointer of the list whose
    character is alive (every one before it is dead), and nil when none is,
    in particular for the empty list.  It changes nothing. *)

Theorem X15_chooseFirstAlive l w :
  Forall (fun p => is_Some (heap w !! p)) l ->
  exists r,
    chooseFirstAlive l w = Ok r w /\
    match r with
    | Some p =>
        exists before after,
          l = before ++ p :: after /\ alive_at (heap w) p = true /\
          Forall (fun q => alive_at (heap w) q = false) before
    | None => Forall (fun q => alive_at (heap w) q = false) l
    end.
Proof.
  intros Hv. exists (find (alive_at (heap w)) l). split; [by apply chooseFirstAlive_run|].
  clear Hv. induction l as [|p l IH]; cbn [find]; [constructor|].
  destruct (alive_at (heap w) p) eqn:Hal.
  - exists [], l. repeat split; [done|constructor].
  - destruct (find (alive_at (heap w)) l) as [q|].
    + destruct IH as (before & after & -> & Hq & Hb).
      exists (p :: before), after. repeat split; [done|by constructor].
    + by constructor.
Qed.

(** After the fight the guard (1) is dead and the swordsman (0) alive. *)

Lemma X15_witness :
  chooseFirstAlive [1%nat; 0%nat] Arena.aftermath = Ok (Some 0%nat) Arena.aftermath /\
  chooseFirstAlive [1%nat; 1%nat] Arena.aftermath = Ok None Arena.aftermath /\
  chooseFirstAlive [] Arena.aftermath = Ok None Arena.aftermath.
Proof.
  split; [|split].
  - destruct (X15_chooseFirstAlive [1%nat; 0%nat] Arena.aftermath) as (r & Hr & _);
      [repeat constructor; eexists; reflexivity|].
    rewrite Hr. vm_compute in Hr. congruence.
  - destruct (X15_chooseFirstAlive [1%nat; 1%nat] Arena.aftermath) as (r & Hr & _);
      [repeat constructor; eexists; reflexivity|].
    rewrite Hr. vm_compute in Hr. congruence.
  - destruct (X15_chooseFirstAlive [] Arena.aftermath) as (r & Hr & _); [constructor|].
    rewrite Hr. vm_compute in Hr. congruence.
Defined.


(** ** A skill that the actor cannot pay *)

(** X22. When the actor's coin says skill (a draw below 0.5) but its MP are
    below the cost of the skill drawn, [Turn] does not call [UseSkillAt]: no
    MP is spent and no line about the skill is logged; the two draws are
    used up and the turn goes on as a basic attack on the first living
    target, followed by the end-of-turn tick and the test for the end of the
    battle. *)

Theorem X22_unaffordable_skill draws b w actor a s t :
  rosters_valid b (heap w) ->
  heap w !! actor = Some a ->
  let a1 := fst (Character.ApplyEffectsStartTurn a) in
  let w1 := mkWorld (<[actor := a1]> (heap w)) (rand_pos w)
                    (out w ++ [Character.Name a +:+ " is thinking..."]
                           ++ snd (Character.ApplyEffectsStartTurn a)) in
  let targets := if String.eqb (Character.Team a) "player"
                 then Battle.Enemies b else Battle.Players b in
  let n := Z.of_nat (length (Character.Skills a)) in
  GoFloat.ltb (GoFloat.unit_fraction (draws (rand_pos w))) GoFloat.half = true ->
  Character.Skills a !! Z.to_nat (draws (S (rand_pos w)) mod n) = Some s ->
  Character.MP a < Skill.MPCost s ->
  find (alive_at (heap w1)) targets = Some t ->
  actor_turn draws b actor w =
    (BasicAttack draws actor t;;
     call actor Character.ApplyEffectsEndTurn;;
     battle_over b) (mkWorld (heap w1) (S (S (rand_pos w))) (out w1)).
Proof.
  intros Hv Ha a1 w1 targets n Hcoin Hs Hmp Hfind. unfold actor_turn.
  rewrite (bind_ok _ _ _ _ _ (deref_ok _ _ _ Ha)).
  erewrite bind_ok; [|reflexivity].
  erewrite bind_ok; [|by apply call_ok]. cbn [heap rand_pos out].
  rewrite <- app_assoc. fold a1 w1 targets.
  assert (heap w1 !! actor = Some a1) as Ha1.
  { subst w1. cbn [heap]. apply list_lookup_insert_eq. by eapply lookup_lt_Some. }
  assert (Character.Skills a1 = Character.Skills a /\ Character.MP a1 = Character.MP a)
    as [Hsk Hmp1].
  { subst a1. unfold Character.ApplyEffectsStartTurn. destruct (_ =? 0); [done|].
    assert (forall x d, Character.Skills (fst (Character.TakeDamage a x d)) = Character.Skills a /\
                        Character.MP (fst (Character.TakeDamage a x d)) = Character.MP a) as H.
    { intros x d. unfold Character.TakeDamage. by destruct (_ <=? 0). }
    specialize (H (Character.total_dot (Character.Effects a)) Pure).
    by destruct (Character.TakeDamage _ _ _). }
  pose proof (lookup_lt_Some _ _ _ Hs) as Hlen.
  assert (0 < n) as Hn by (subst n; lia).
  assert (try_skill draws actor targets w1
          = Ok false (mkWorld (heap w1) (S (S (rand_pos w))) (out w1))) as Htry.
  { unfold try_skill. rewrite (bind_ok _ _ _ _ _ (deref_ok _ _ _ Ha1)).
    rewrite Hsk, Hmp1. fold n.
    destruct (Z.ltb_spec 0 n); [|lia]. cbn [negb].
    erewrite bind_ok; [|reflexivity]. change (rand_pos w1) with (rand_pos w).
    rewrite Hcoin. cbn [negb].
    erewrite bind_ok; [|by apply rand_Intn_ok]. cbn [rand_pos]. rewrite Hs.
    destruct (Z.ltb_spec (Character.MP a) (Skill.MPCost s)); [done|lia]. }
  rewrite (bind_ok _ _ _ _ _ Htry). cbv iota.
  set (w2 := mkWorld (heap w1) _ _).
  assert (Forall (fun p => is_Some (heap w2 !! p)) targets) as Hvt.
  { assert (rosters_valid b (heap w2)) as Hv2.
    { unfold rosters_valid in *. eapply Forall_impl; [exact Hv|]. cbn beta. intros q Hq.
      apply lookup_lt_is_Some. subst w2 w1. cbn [heap]. rewrite length_insert.
      by apply lookup_lt_is_Some. }
    apply rosters_valid_split in Hv2 as [Hp He]. subst targets. by destruct (String.eqb _ _). }
  unfold mbind at 1, M_bind at 1.
  unfold mbind at 1, M_bind at 1.
  rewrite (chooseFirstAlive_run targets w2 Hvt).
  change (heap w2) with (heap w1). rewrite Hfind.
  reflexivity.
Qed.

(** The cleric with 5 MP draws its healing, which costs 8, and attacks. *)

Lemma X22_witness :
  actor_turn Scenario.zeros Scenario.spar 0%nat Arena.tired_world =
    (BasicAttack Scenario.zeros 0%nat 1%nat;;
     call 0%nat Character.ApplyEffectsEndTurn;;
     battle_over Scenario.spar)
      (mkWorld [Arena.tired; Scenario.guard] 2 ["Cleric is thinking..."%string]).
Proof.
  apply (X22_unaffordable_skill Scenario.zeros Scenario.spar
           Arena.tired_world 0%nat Arena.tired Scenario.heal8 1%nat);
    try reflexivity.
  repeat constructor; eexists; reflexivity.
Defined.


(** ** A battle that is already decided *)

(** X16. [Run] on a battle in which a roster has nobody alive (an empty
    roster included) plays no round: the round number and the heap are as
    they were, no random number is drawn, and the only line logged is the
    verdict, ["Players win!"] when no enemy is alive and ["Enemies win!"]
    otherwise.  This holds for every fuel, 0 included. *)

Theorem X16_decided_battle draws sort_Slice fuel b w :
  rosters_valid b (heap w) ->
  any_alive (heap w) (Battle.Players b) = false \/
  any_alive (heap w) (Battle.Enemies b) = false ->
  Run draws sort_Slice fuel b w =
    Ok b (mkWorld (heap w) (rand_pos w)
            (out w ++ [if any_alive (heap w) (Battle.Enemies b)
                       then "Enemies win!" else "Players win!"])).
Proof.
  intros Hv Hdec. unfold Run.
  assert (run_loop draws sort_Slice fuel b w = Ok b w) as Hloop.
  { destruct fuel; cbn [run_loop]; rewrite (bind_ok _ _ _ _ _ (battle_over_run b w Hv));
      destruct Hdec as [-> | ->]; cbn [negb orb]; rewrite ?orb_true_r; done. }
  rewrite (bind_ok _ _ _ _ _ Hloop).
  apply rosters_valid_split in Hv as [_ He].
  unfold AllDead. change (String.eqb "enemy" "player") with false. cbv iota.
  rewrite (bind_ok _ _ _ _ _ (all_dead_loop_run _ _ He)).
  by destruct (any_alive (heap w) (Battle.Enemies b)).
Qed.

(** The fight that is over, and a battle between nobody. *)

Lemma X16_witness :
  Run Scenario.zeros Sorters.insertionSort 0 Scenario.spar Arena.aftermath =
    Ok Scenario.spar (mkWorld (heap Arena.aftermath) 7 ["earlier"; "Players win!"]%string) /\
  Run Scenario.zeros Sorters.insertionSort 5 (Battle.NewBattle [] []) Arena.aftermath =
    Ok (Battle.NewBattle [] [])
       (mkWorld (heap Arena.aftermath) 7 ["earlier"; "Players win!"]%string).
Proof.
  split.
  - apply (X16_decided_battle Scenario.zeros Sorters.insertionSort 0 Scenario.spar
             Arena.aftermath); [repeat constructor; eexists; reflexivity|by right].
  - apply (X16_decided_battle Scenario.zeros Sorters.insertionSort 5 (Battle.NewBattle [] [])
             Arena.aftermath); [constructor|by left].
Defined.


(** ** What a battle leaves alone *)

Lemma same_build_everywhere draws sort_Slice :
  (forall b, preserves same_build (Turn draws sort_Slice b)) /\
  (forall fuel b, preserves same_build (Run draws sort_Slice fuel b)).
Proof.
  assert (forall c, same_build c c) as Hrefl by (by unfold same_build).
  assert (forall a b c, same_build a b -> same_build b c -> same_build a c) as Htrans.
  { unfold same_build. intros a b c Hab Hbc. destruct_and!. repeat split; congruence. }
  assert (forall c amount dtype, same_build c (fst (Character.TakeDamage c amount dtype))) as HT.
  { intros c amount dtype. unfold Character.TakeDamage. by destruct (_ <=? 0). }
  assert (forall c amount, same_build c (Character.Heal c amount)) as HH.
  { intros c amount. unfold Character.Heal. by destruct (_ <? _). }
  assert (forall c amount, same_build c (fst (Character.UseMP c amount))) as HU.
  { intros c amount. unfold Character.UseMP. by destruct (_ <? _). }
  assert (forall c e, same_build c (fst (Character.AddEffect c e))) as HA by done.
  assert (forall c, same_build c (fst (Character.ApplyEffectsEndTurn c))) as HE.
  { intros c. unfold Character.ApplyEffectsEndTurn. by destruct (Character.end_turn_loop _ _). }
  split; intros.
  - by apply preserves_Turn.
  - by apply preserves_Run.
Qed.

Lemma related_lookup Q w w' p c :
  related Q w w' -> heap w !! p = Some c -> exists c', heap w' !! p = Some c' /\ Q c c'.
Proof. intros HR Hc. exact (Forall2_lookup_l _ _ _ _ _ HR Hc). Qed.

(** X17. A battle neither creates nor drops a character, and keeps the two
    rosters.  Of a character it changes nothing but the current hit points,
    the current MP, the effects and the alive flag: identity, name, team,
    weapon, armor, inventory, skills, maxHP, maxMP and the other stats at the
    end are the ones at the start. *)

Theorem X17_battle_frame draws sort_Slice fuel b w b' w' :
  Run draws sort_Slice fuel b w = Ok b' w' ->
  length (heap w') = length (heap w) /\
  Battle.Players b' = Battle.Players b /\ Battle.Enemies b' = Battle.Enemies b /\
  forall p c, heap w !! p = Some c ->
    exists c', heap w' !! p = Some c' /\ same_build c c'.
Proof.
  intros HR.
  pose proof (proj2 (same_build_everywhere draws sort_Slice) fuel b w b' w' HR) as Hrel.
  split; [symmetry; exact (Forall2_length _ _ _ Hrel)|].
  split; [|split].
  - unfold Run in HR. apply bind_inv in HR as (b1 & w1 & HL & HR).
    apply run_loop_exit in HL as (_ & Hp & _).
    apply bind_inv in HR as (? & ? & _ & HR). apply bind_inv in HR as (? & ? & _ & HR).
    inversion HR; subst. done.
  - unfold Run in HR. apply bind_inv in HR as (b1 & w1 & HL & HR).
    apply run_loop_exit in HL as (_ & _ & He).
    apply bind_inv in HR as (? & ? & _ & HR). apply bind_inv in HR as (? & ? & _ & HR).
    inversion HR; subst. done.
  - intros p c Hc. by eapply related_lookup.
Qed.

(** The duel: the hero still knows its skill at the end. *)

Lemma X17_witness :
  exists b' w',
    Run Scenario.zeros Sorters.insertionSort 3 Scenario.duel Scenario.duel_world = Ok b' w' /\
    length (heap w') = 2%nat /\
    exists c', heap w' !! 0%nat = Some c' /\ Character.Skills c' = [Scenario.strike].
Proof.
  destruct (Run Scenario.zeros Sorters.insertionSort 3 Scenario.duel Scenario.duel_world)
    as [b' w'| |] eqn:E; [|vm_compute in E; discriminate..].
  exists b', w'. split; [reflexivity|].
  destruct (X17_battle_frame Scenario.zeros Sorters.insertionSort 3 Scenario.duel
              Scenario.duel_world b' w' E) as (Hlen & _ & _ & Hall).
  split; [exact Hlen|].
  destruct (Hall 0%nat _ eq_refl) as (c' & Hc' & Hsame).
  exists c'. split; [exact Hc'|]. apply Hsame.
Defined.


(** ** The dead are left alone *)

Create HintDb spares.

Section SparesDead.
Variable h0 : list Character.t.
Variable draws : nat -> Z.
Variable sort_Slice : (ptr -> ptr -> bool) -> list ptr -> list ptr.

Lemma spares_same_heap {A} (m : M A) :
  (forall w a w', m w = Ok a w' -> heap w' = heap w) -> spares_dead h0 m.
Proof. intros Hm w a w' HI H. by rewrite (Hm _ _ _ H). Qed.

Lemma spares_ret {A} (a : A) : spares_dead h0 (mret a).
Proof. apply spares_same_heap. intros w a' w' H. by inversion H. Qed.

Lemma spares_panic {A} : spares_dead h0 (@panic A).
Proof. by intros w a w'. Qed.

Lemma spares_out_of_fuel {A} : spares_dead h0 (@out_of_fuel A).
Proof. by intros w a w'. Qed.

Lemma spares_bind {A B} (m : M A) (k : A -> M B) :
  spares_dead h0 m -> (forall a, spares_dead h0 (k a)) -> spares_dead h0 (m ≫= k).
Proof.
  intros Hm Hk w b w2 HI H. apply bind_inv in H as (a & w1 & H1 & H2).
  eapply Hk; [|exact H2]. eapply Hm; eauto.
Qed.

(** A pointer that is seen alive is not one of the dead of [h0]. *)
Lemma seen_alive w p c :
  dead_untouched h0 (heap w) -> heap w !! p = Some c -> Character.Alive c = true ->
  not_dead_in h0 p.
Proof.
  intros [_ HI] Hc Hal c0 Hc0. destruct (Character.Alive c0) eqn:Hal0; [done|].
  rewrite (HI _ _ Hc0 Hal0) in Hc. congruence.
Qed.

Lemma spares_deref p {B} (k : Character.t -> M B) :
  (forall c, (Character.Alive c = true -> not_dead_in h0 p) -> spares_dead h0 (k c)) ->
  spares_dead h0 (deref p ≫= k).
Proof.
  intros Hk w b w2 HI H. apply bind_inv in H as (c & w1 & H1 & H2).
  apply deref_inv in H1 as [Hc ->]. eapply Hk; [|exact HI|exact H2].
  intros Hal. by eapply seen_alive.
Qed.

Lemma spares_logFunc msg : spares_dead h0 (logFunc msg).
Proof. apply spares_same_heap. intros w a w' H. by inversion H. Qed.

Lemma spares_logAll msgs : spares_dead h0 (logAll msgs).
Proof. apply spares_same_heap. intros w a w' H. by inversion H. Qed.

Lemma spares_snapshot : spares_dead h0 snapshot.
Proof. apply spares_same_heap. intros w a w' H. by inversion H. Qed.

Lemma spares_rand_Intn n : spares_dead h0 (rand_Intn draws n).
Proof.
  apply spares_same_heap. intros w a w'. unfold rand_Intn. destruct (n <=? 0); [done|].
  intros H. by inversion H.
Qed.

Lemma spares_rand_Float64 : spares_dead h0 (rand_Float64 draws).
Proof. apply spares_same_heap. intros w a w' H. by inversion H. Qed.

Lemma spares_invoke {B} p (f : Character.t -> Character.t * B) :
  not_dead_in h0 p -> spares_dead h0 (invoke p f).
Proof.
  intros Hp w b w' [Hlen HI] H. unfold invoke in H.
  apply bind_inv in H as (c & w1 & H1 & H2). apply deref_inv in H1 as [Hc ->].
  destruct (f c) as [c' b']. inversion H2; subst. cbn [heap]. split.
  - by rewrite length_insert.
  - intros q c0 Hc0 Hd. rewrite list_lookup_insert_ne; [by apply HI|].
    intros ->. specialize (Hp _ Hc0). congruence.
Qed.

Lemma spares_call p f : not_dead_in h0 p -> spares_dead h0 (call p f).
Proof.
  intros Hp. apply spares_bind; [by apply spares_invoke|]. intros. apply spares_logAll.
Qed.

(** What follows the choice of a target may rely on the target being one
    that was seen alive. *)
Lemma spares_chooseFirstAlive l {B} (k : option ptr -> M B) :
  spares_dead h0 (k None) ->
  (forall t, not_dead_in h0 t -> spares_dead h0 (k (Some t))) ->
  spares_dead h0 (chooseFirstAlive l ≫= k).
Proof.
  intros HN HS. induction l as [|p rest IH]; cbn [chooseFirstAlive].
  - intros w b w' HI H. apply bind_inv in H as (r & w1 & H1 & H2).
    inversion H1; subst. by eapply HN.
  - intros w b w' HI H. apply bind_inv in H as (r & w1 & H1 & H2).
    apply bind_inv in H1 as (c & w0 & H0 & H1). apply deref_inv in H0 as [Hc ->].
    destruct (Character.Alive c) eqn:Hal.
    + inversion H1; subst. eapply HS; [|exact HI|exact H2]. by eapply seen_alive.
    + eapply IH; [exact HI|]. unfold mbind, M_bind. by rewrite H1.
Qed.

Hint Resolve spares_ret spares_panic spares_out_of_fuel spares_logFunc spares_logAll
  spares_snapshot spares_rand_Intn spares_rand_Float64 spares_invoke spares_call : spares.

Ltac spares_step :=
  match goal with
  | |- spares_dead _ (deref _ ≫= _) => apply spares_deref; intros
  | |- spares_dead _ (chooseFirstAlive _ ≫= _) => apply spares_chooseFirstAlive; [|intros]
  | |- spares_dead _ (_ ≫= _) => apply spares_bind; [|intros]
  | |- spares_dead _ (if negb (Character.Alive ?c) then _ else _) =>
      destruct (Character.Alive c) eqn:?; cbn [negb]
  | |- spares_dead _ (if Character.Alive ?c then _ else _) =>
      destruct (Character.Alive c) eqn:?
  | |- spares_dead _ (if ?b then _ else _) => destruct b
  | |- spares_dead _ (match ?x with _ => _ end) => destruct x
  | |- spares_dead _ _ => solve [eauto with spares]
  end.
Ltac spares := repeat spares_step.

Lemma spares_crit_roll me amount line : spares_dead h0 (crit_roll draws me amount line).
Proof. unfold crit_roll. spares. Qed.

Hint Resolve spares_crit_roll : spares.

Lemma spares_BasicAttack c target :
  not_dead_in h0 target -> spares_dead h0 (BasicAttack draws c target).
Proof. intros Ht. unfold BasicAttack. spares. Qed.

Lemma spares_add_skill_effect s t :
  not_dead_in h0 t -> spares_dead h0 (add_skill_effect s t).
Proof. intros Ht. unfold add_skill_effect. spares. Qed.

Hint Resolve spares_BasicAttack spares_add_skill_effect : spares.

Lemma spares_damage_loop c s targets : spares_dead h0 (damage_loop draws c s targets).
Proof. induction targets as [|t rest IH]; cbn [damage_loop]; spares. Qed.

Lemma spares_heal_loop c s targets : spares_dead h0 (heal_loop c s targets).
Proof. induction targets as [|t rest IH]; cbn [heal_loop]; spares. Qed.

Hint Resolve spares_damage_loop spares_heal_loop : spares.

Lemma spares_UseSkillAt c idx targets :
  not_dead_in h0 c -> spares_dead h0 (UseSkillAt draws c idx targets).
Proof. intros Hc. unfold UseSkillAt. spares. Qed.

Lemma spares_all_dead_loop l : spares_dead h0 (all_dead_loop l).
Proof. induction l as [|p rest IH]; cbn [all_dead_loop]; spares. Qed.

Hint Resolve spares_UseSkillAt spares_all_dead_loop : spares.

Lemma spares_battle_over b : spares_dead h0 (battle_over b).
Proof. unfold battle_over, AllDead. spares. Qed.

Hint Resolve spares_battle_over : spares.

Lemma spares_try_skill actor targets :
  not_dead_in h0 actor -> spares_dead h0 (try_skill draws actor targets).
Proof.
  intros Ha. unfold try_skill. spares.
Qed.

Hint Resolve spares_try_skill : spares.

Lemma spares_actor_turn b actor :
  not_dead_in h0 actor -> spares_dead h0 (actor_turn draws b actor).
Proof.
  intros Ha. unfold actor_turn. spares.
Qed.

Hint Resolve spares_actor_turn : spares.

Lemma spares_turn_loop b all : spares_dead h0 (turn_loop draws b all).
Proof. induction all as [|p rest IH]; cbn [turn_loop]; spares. Qed.

Lemma spares_turn_order b : spares_dead h0 (turn_order sort_Slice b).
Proof. unfold turn_order. spares. Qed.

Hint Resolve spares_turn_loop spares_turn_order : spares.

Lemma spares_Turn b : spares_dead h0 (Turn draws sort_Slice b).
Proof. unfold Turn. spares. Qed.
Hint Resolve spares_Turn : spares.

Lemma spares_run_loop fuel b : spares_dead h0 (run_loop draws sort_Slice fuel b).
Proof. revert b. induction fuel as [|fuel IH]; intros b; cbn [run_loop]; spares. Qed.

Hint Resolve spares_run_loop : spares.

Lemma spares_Run fuel b : spares_dead h0 (Run draws sort_Slice fuel b).
Proof. unfold Run, AllDead. spares. Qed.
End SparesDead.

Lemma dead_untouched_refl h : dead_untouched h h.
Proof. split; [done|auto]. Qed.

(** X18. A character that is dead when a round starts is, at the end of the
    round, exactly as it was: the dead are not damaged, healed, given
    effects or ticked, and they do not act.  The same holds from the start
    of a battle to its end.  (In the round in which it dies a character can
    still change: the target of a skill receives the skill's effect after
    the hit that killed it, and an actor killed by damage over time still
    pays for a skill and has its effects ticked.) *)

Theorem X18_dead_left_alone draws sort_Slice :
  (forall b w b' w',
     Turn draws sort_Slice b w = Ok b' w' -> dead_untouched (heap w) (heap w')) /\
  (forall fuel b w b' w',
     Run draws sort_Slice fuel b w = Ok b' w' -> dead_untouched (heap w) (heap w')).
Proof.
  split.
  - intros b w b' w' HT.
    exact (spares_Turn (heap w) draws sort_Slice b w b' w' (dead_untouched_refl _) HT).
  - intros fuel b w b' w' HR.
    exact (spares_Run (heap w) draws sort_Slice fuel b w b' w' (dead_untouched_refl _) HR).
Qed.

(** A round after the guard fell. *)

Lemma X18_witness :
  exists b' w',
    Turn Scenario.zeros Sorters.insertionSort Scenario.spar Arena.aftermath = Ok b' w' /\
    heap w' !! 1%nat = Some Arena.fallen.
Proof.
  destruct (Turn Scenario.zeros Sorters.insertionSort Scenario.spar Arena.aftermath)
    as [b' w'| |] eqn:E; [|vm_compute in E; discriminate..].
  exists b', w'. split; [reflexivity|].
  apply (proj1 (X18_dead_left_alone Scenario.zeros Sorters.insertionSort) Scenario.spar
           Arena.aftermath b' w' E); reflexivity.
Defined.


(** ** Termination when every skill is paid for *)

Lemma stamina_insert W h p c c' :
  h !! p = Some c ->
  stamina W (<[p := c']> h) = stamina W h - stamina1 W c + stamina1 W c'.
Proof.
  revert p. induction h as [|x h IH]; intros [|p] Hp; try done.
  - injection Hp as ->. change (<[0%nat:=c']> (c :: h)) with (c' :: h).
    cbn [stamina]. lia.
  - change (<[S p:=c']> (x :: h)) with (x :: <[p:=c']> h). cbn [stamina].
    rewrite (IH p Hp). lia.
Qed.

Lemma stamina1_nonneg H W c : 0 <= W -> fit H c -> 0 <= stamina1 W c.
Proof.
  intros HW (Hhp & _ & Hmp & _). unfold stamina1, vitality1.
  destruct (Character.Alive c); nia.
Qed.

Lemma stamina_nonneg H W h : 0 <= W -> Forall (fit H) h -> 0 <= stamina W h.
Proof.
  intros HW. induction 1 as [|c h Hc _ IH]; cbn [stamina]; [lia|].
  pose proof (stamina1_nonneg H W c HW Hc). lia.
Qed.

Lemma stamina_alive H W h l :
  0 <= W -> Forall (fit H) h -> any_alive h l = true -> 0 < stamina W h.
Proof.
  intros HW Hh. unfold any_alive. rewrite existsb_exists. intros (p & _ & Hal).
  unfold alive_at in Hal. destruct (h !! p) as [c|] eqn:Hc; [|done].
  revert p Hc. induction Hh as [|x h Hx Hh IH]; intros [|p] Hp; try done.
  - injection Hp as ->. pose proof (stamina_nonneg H W h HW Hh). cbn [stamina].
    unfold stamina1, vitality1. rewrite Hal. destruct Hx as (? & _ & ? & _). nia.
  - pose proof (stamina1_nonneg H W x HW Hx). pose proof (IH p Hp). cbn [stamina]. lia.
Qed.

Lemma ready_valid H b h : ready H b h -> rosters_valid b h.
Proof.
  intros (_ & Hp & He). unfold rosters_valid. apply Forall_app. split.
  - eapply Forall_impl; [exact Hp|]. intros p (c & Hc & _). by exists c.
  - eapply Forall_impl; [exact He|]. intros p (c & Hc & _). by exists c.
Qed.

Lemma ready_lookup H b h p c : ready H b h -> h !! p = Some c -> fit H c.
Proof.
  intros (Hf & _) Hc. rewrite Forall_forall in Hf. apply Hf. by eapply list_elem_of_lookup_2.
Qed.

Lemma on_team_insert h player p c c' q :
  h !! p = Some c -> Character.Team c' = Character.Team c ->
  on_team h player q -> on_team (<[p := c']> h) player q.
Proof.
  intros Hc Ht (x & Hx & Hteam). destruct (decide (q = p)) as [->|Hne].
  - exists c'. split; [apply list_lookup_insert_eq; by eapply lookup_lt_Some|].
    rewrite Ht. congruence.
  - exists x. by rewrite list_lookup_insert_ne.
Qed.

(** Replacing a character by one that is fit and on the same team keeps the
    state ready, and changes the stamina by the difference of the two. *)
Lemma ready_insert H b h p c c' :
  ready H b h -> h !! p = Some c -> fit H c' -> Character.Team c' = Character.Team c ->
  ready H b (<[p := c']> h).
Proof.
  intros (Hf & Hp & He) Hc Hc' Ht. split; [by apply Forall_insert|].
  split; (eapply Forall_impl; [eassumption|]); intros q; by apply (on_team_insert h _ p c c').
Qed.

Lemma valid_length (h h' : list Character.t) p :
  length h' = length h -> is_Some (h !! p) -> is_Some (h' !! p).
Proof. intros Hl Hp. apply lookup_lt_is_Some. rewrite Hl. by apply lookup_lt_is_Some. Qed.

Section PaidSkills.
Variable H : Z.
Hypothesis H_nonneg : 0 <= H.

(** *** What the methods do to a fit character *)

Lemma TakeDamage_fit c amount dtype :
  fit H c -> GoInt.in_range amount ->
  let c' := fst (Character.TakeDamage c amount dtype) in
  fit H c' /\ Character.Team c' = Character.Team c /\ Character.MP c' = Character.MP c /\
  vitality1 c' <= vitality1 c /\
  (Character.Alive c = true -> vitality1 c' < vitality1 c).
Proof.
  intros (Hhp & Hmax & Hmp & Hsk & Hw) Ha. cbv zeta.
  destruct (TakeDamage_cases c amount dtype) as (actual & H1 & Hin & _ & _ & _ & ->).
  specialize (Hin Ha). unfold GoInt.sub. rewrite wrap_id by (range; lia).
  unfold fit, vitality1, Character.HP, Character.HPMax, Character.MP in *.
  destruct (Z.leb_spec (Stats.HP (Character.Stats c) - actual) 0); cbn;
    (repeat split; try done; try lia; destruct (Character.Alive c); lia).
Qed.

Lemma StartTurn_fit c :
  fit H c ->
  let c' := fst (Character.ApplyEffectsStartTurn c) in
  fit H c' /\ Character.Team c' = Character.Team c /\ Character.MP c' = Character.MP c /\
  vitality1 c' <= vitality1 c /\
  (c' = c \/ (Character.Alive c = true -> vitality1 c' < vitality1 c)).
Proof.
  intros Hc. unfold Character.ApplyEffectsStartTurn.
  destruct (_ =? 0); cbn [fst].
  { split; [done|]. split; [done|]. split; [done|]. split; [lia|by left]. }
  pose proof (TakeDamage_fit c (Character.total_dot (Character.Effects c)) Pure Hc
                (total_dot_in_range _)) as (H1 & H2 & H3 & H4 & H5).
  destruct (Character.TakeDamage _ _ _) as [c' msgs]. cbn [fst] in *. auto 10.
Qed.

Lemma with_Effects_fit W l c :
  fit H c ->
  let c' := Character.with_Effects l c in
  fit H c' /\ Character.Team c' = Character.Team c /\ stamina1 W c' = stamina1 W c.
Proof. intros Hc. cbv zeta. split; [exact Hc|done]. Qed.

Lemma Heal_fit c amount :
  fit H c -> 0 < amount <= H ->
  let c' := Character.Heal c amount in
  fit H c' /\ Character.Team c' = Character.Team c /\ Character.MP c' = Character.MP c /\
  vitality1 c' <= vitality1 c + H.
Proof.
  intros (Hhp & Hmax & Hmp & Hsk & Hw) Ha. cbv zeta.
  rewrite Heal_exact by (range; lia).
  unfold fit, vitality1, Character.HP, Character.HPMax, Character.MP in *. cbn.
  repeat split; try done; try lia. destruct (Character.Alive c); lia.
Qed.

Lemma UseMP_fit c cost :
  fit H c -> 1 <= cost <= Character.MP c ->
  let c' := Character.with_MP (GoInt.sub (Character.MP c) cost) c in
  fit H c' /\ Character.Team c' = Character.Team c /\ vitality1 c' = vitality1 c /\
  Character.MP c' = Character.MP c - cost.
Proof.
  intros (Hhp & Hmax & Hmp & Hsk & Hw) Ha. cbv zeta.
  unfold GoInt.sub. rewrite wrap_id by (range; lia).
  unfold fit, vitality1, Character.HP, Character.HPMax, Character.MP in *. cbn.
  repeat split; try done; lia.
Qed.

(** *** The steps of a round *)

Variable draws : nat -> Z.
Variable sort_Slice : (ptr -> ptr -> bool) -> list ptr -> list ptr.
Hypothesis sort_ok : sorts sort_Slice.

Lemma weight_pos b : 0 < weight H b.
Proof. unfold weight. nia. Qed.

Lemma lands_refl b w : ready H b (heap w) -> lands H b w w 0.
Proof. intros Hr. split; [done|]. split; [done|lia]. Qed.

Lemma lands_same_heap b w w' : ready H b (heap w) -> heap w' = heap w -> lands H b w w' 0.
Proof. intros Hr He. unfold lands. rewrite He. split; [done|]. split; [done|lia]. Qed.

Lemma lands_trans b w1 w2 w3 d1 d2 :
  lands H b w1 w2 d1 -> lands H b w2 w3 d2 -> lands H b w1 w3 (d1 + d2).
Proof. intros (_ & Hl1 & Hs1) (Hr & Hl2 & Hs2). split; [done|]. split; [congruence|lia]. Qed.

Lemma lands_weaken b w w' d d' : d <= d' -> lands H b w w' d -> lands H b w w' d'.
Proof. intros Hd (Hr & Hl & Hs). split; [done|]. split; [done|lia]. Qed.

Lemma lands_write b w p c c' pos o d :
  ready H b (heap w) -> heap w !! p = Some c ->
  fit H c' -> Character.Team c' = Character.Team c ->
  stamina1 (weight H b) c' <= stamina1 (weight H b) c + d ->
  lands H b w (mkWorld (<[p := c']> (heap w)) pos o) d.
Proof.
  intros Hr Hc Hf Ht Hs. split; [by eapply ready_insert|].
  cbn [heap]. split; [by rewrite length_insert|].
  rewrite (stamina_insert _ _ _ c) by done. lia.
Qed.

Lemma lands_valid b w w' d p : lands H b w w' d -> is_Some (heap w !! p) -> is_Some (heap w' !! p).
Proof. intros (_ & Hl & _). by apply valid_length. Qed.

Lemma lands_targets b w w' d targets :
  lands H b w w' d -> targets_valid (heap w) targets -> targets_valid (heap w') targets.
Proof.
  intros HL Ht. eapply Forall_impl; [exact Ht|]. cbn beta. intros t (p & -> & Hp).
  exists p. split; [done|]. by eapply lands_valid.
Qed.

Lemma BasicAttack_paid b w c t me tc :
  ready H b (heap w) -> heap w !! c = Some me -> heap w !! t = Some tc ->
  exists w',
    BasicAttack draws c t w = Ok tt w' /\ lands H b w w' 0 /\
    (Character.Alive me = true -> Character.Alive tc = true -> lands H b w w' (-1)).
Proof.
  intros Hr Hc Ht. unfold BasicAttack.
  rewrite (bind_ok _ _ _ _ _ (deref_ok _ _ _ Hc)).
  destruct (Character.Alive me) eqn:Hal; cbn [negb].
  2:{ exists w. split; [done|]. split; [by apply lands_refl|done]. }
  pose proof (ready_lookup _ _ _ _ _ Hr Hc) as (_ & _ & _ & _ & Hw).
  set (wp := match Character.Weapon me with
             | Some w0 => (Weapon.DamageMin w0, Weapon.DamageMax w0, Weapon.DamageType w0)
             | None => (1, 2, Physical)
             end).
  assert (0 < GoInt.add (GoInt.sub (snd (fst wp)) (fst (fst wp))) 1) as Hn.
  { subst wp. destruct (Character.Weapon me); cbn; [done|]. by vm_compute. }
  destruct wp as [[min_ max_] dtype]. cbn [fst snd] in Hn.
  rewrite (bind_ok _ _ _ _ _ (rand_Intn_ok draws _ w Hn)).
  match goal with |- context [(crit_roll draws me ?a ?l ≫= _) ?w1] =>
    destruct (crit_roll_run draws me a l w1 (wrap_in_range _)) as (base & w2 & Hroll & Hh2 & Hb)
  end.
  rewrite (bind_ok _ _ _ _ _ Hroll). cbn [heap] in Hh2.
  assert (heap w2 !! t = Some tc) as Ht2 by (by rewrite Hh2).
  rewrite (bind_ok _ _ _ _ _ (deref_ok _ _ _ Ht2)).
  erewrite bind_ok; [|reflexivity].
  erewrite call_ok; [|exact Ht2]. eexists. split; [reflexivity|]. cbn [heap rand_pos out].
  rewrite Hh2.
  pose proof (ready_lookup _ _ _ _ _ Hr Ht) as Htc.
  destruct (TakeDamage_fit tc base dtype Htc Hb) as (Hf' & Hteam & Hmp & Hle & Hlt).
  split.
  - apply (lands_write b w t tc); try done. unfold stamina1. rewrite Hmp. lia.
  - intros _ Htal. specialize (Hlt Htal).
    apply (lands_write b w t tc); try done. unfold stamina1. rewrite Hmp. lia.
Qed.

Lemma add_skill_effect_paid b s t w :
  ready H b (heap w) -> is_Some (heap w !! t) ->
  exists w', add_skill_effect s t w = Ok tt w' /\ lands H b w w' 0.
Proof.
  intros Hr [tc Htc]. unfold add_skill_effect. destruct (Skill.Effect s) as [e|].
  - erewrite call_ok; [|exact Htc]. eexists. split; [reflexivity|].
    pose proof (ready_lookup _ _ _ _ _ Hr Htc) as Hf.
    apply (lands_write b w t tc); try done.
    change (stamina1 (weight H b) tc <= stamina1 (weight H b) tc + 0). lia.
  - exists w. split; [done|by apply lands_refl].
Qed.

Lemma damage_loop_paid b c s targets : forall w,
  ready H b (heap w) -> is_Some (heap w !! c) -> targets_valid (heap w) targets ->
  exists w', damage_loop draws c s targets w = Ok tt w' /\ lands H b w w' 0.
Proof.
  induction targets as [|t rest IH]; intros w Hr Hc Hts; cbn [damage_loop].
  { exists w. split; [done|by apply lands_refl]. }
  apply Forall_cons in Hts as [(p & -> & [tc Htc]) Hts].
  rewrite (bind_ok _ _ _ _ _ (deref_ok _ _ _ Htc)).
  destruct (Character.Alive tc) eqn:Hal; cbn [negb]; [|by apply IH].
  pose proof Hc as [me Hme].
  rewrite (bind_ok _ _ _ _ _ (deref_ok _ _ _ Hme)).
  rewrite (bind_ok _ _ _ _ _ (rand_Intn_ok draws 3 w ltac:(lia))).
  match goal with |- context [(crit_roll draws me ?a ?l ≫= _) ?w1] =>
    destruct (crit_roll_run draws me a l w1 (wrap_in_range _)) as (power & w2 & Hroll & Hh2 & Hp)
  end.
  rewrite (bind_ok _ _ _ _ _ Hroll). cbn [heap] in Hh2.
  erewrite bind_ok; [|reflexivity].
  assert (heap w2 !! p = Some tc) as Ht2 by (by rewrite Hh2).
  erewrite bind_ok; [|apply call_ok; cbn [heap]; exact Ht2]. cbn [heap rand_pos out fst snd].
  rewrite Hh2.
  pose proof (ready_lookup _ _ _ _ _ Hr Htc) as Hf.
  destruct (TakeDamage_fit tc power (Skill.DamageType s) Hf Hp) as (Hf' & Hteam & Hmp & Hle & _).
  match goal with |- context [(add_skill_effect s p ≫= _) ?w0] => set (w3 := w0) end.
  assert (lands H b w w3 0) as HL3.
  { apply (lands_write b w p tc); try done. unfold stamina1. rewrite Hmp. lia. }
  destruct (add_skill_effect_paid b s p w3) as (w4 & Heff & HL4); [apply HL3| |].
  { eapply lands_valid; [exact HL3|eauto]. }
  rewrite (bind_ok _ _ _ _ _ Heff).
  pose proof (lands_trans _ _ _ _ _ _ HL3 HL4) as HL.
  destruct (IH w4) as (w5 & Hrest & HL5); [apply HL4| | |].
  { eapply lands_valid; [exact HL|done]. }
  { eapply lands_targets; [exact HL|done]. }
  exists w5. split; [done|]. eapply lands_weaken; [|eapply lands_trans; [exact HL|exact HL5]]. lia.
Qed.

Lemma heal_loop_paid b c s targets : forall w,
  0 < Skill.HealHP s <= H ->
  ready H b (heap w) -> is_Some (heap w !! c) -> targets_valid (heap w) targets ->
  exists w', heal_loop c s targets w = Ok tt w' /\
             lands H b w w' (H * Z.of_nat (length targets)).
Proof.
  induction targets as [|t rest IH]; intros w Hheal Hr Hc Hts; cbn [heal_loop].
  { exists w. split; [done|]. cbn. rewrite Z.mul_0_r. by apply lands_refl. }
  apply Forall_cons in Hts as [(p & -> & [tc Htc]) Hts].
  rewrite (bind_ok _ _ _ _ _ (deref_ok _ _ _ Htc)).
  destruct (Character.Alive tc) eqn:Hal; cbn [negb].
  2:{ destruct (IH w Hheal Hr Hc Hts) as (w' & Hrun & HL). exists w'. split; [done|].
      eapply lands_weaken; [|exact HL]. cbn [length]. nia. }
  erewrite bind_ok; [|apply call_ok; exact Htc]. cbn [fst snd].
  pose proof (ready_lookup _ _ _ _ _ Hr Htc) as Hf.
  destruct (Heal_fit tc (Skill.HealHP s) Hf Hheal) as (Hf' & Hteam & Hmp & Hle).
  match goal with |- context [(deref c ≫= _) ?w0] => set (w1 := w0) end.
  assert (lands H b w w1 H) as HL1.
  { apply (lands_write b w p tc); try done. unfold stamina1. rewrite Hmp. lia. }
  destruct (lands_valid _ _ _ _ c HL1 Hc) as [me Hme].
  rewrite (bind_ok _ _ _ _ _ (deref_ok _ _ _ Hme)).
  erewrite bind_ok; [|reflexivity].
  match goal with |- context [(add_skill_effect s p ≫= _) ?w0] => set (w2 := w0) end.
  assert (lands H b w w2 H) as HL2.
  { destruct HL1 as (? & ? & ?). split; [done|]. split; done. }
  destruct (add_skill_effect_paid b s p w2) as (w3 & Heff & HL3); [apply HL2| |].
  { eapply lands_valid; [exact HL2|eauto]. }
  rewrite (bind_ok _ _ _ _ _ Heff).
  pose proof (lands_trans _ _ _ _ _ _ HL2 HL3) as HL.
  destruct (IH w3 Hheal) as (w4 & Hrest & HL4); [apply HL3| | |].
  { eapply lands_valid; [exact HL|done]. }
  { eapply lands_targets; [exact HL|done]. }
  exists w4. split; [done|].
  eapply lands_weaken; [|eapply lands_trans; [exact HL|exact HL4]]. cbn [length]. lia.
Qed.

Lemma UseSkillAt_paid_run b w c idx targets me s :
  ready H b (heap w) -> heap w !! c = Some me ->
  0 <= idx -> Character.Skills me !! Z.to_nat idx = Some s ->
  Skill.MPCost s <= Character.MP me ->
  targets_valid (heap w) targets ->
  exists w',
    UseSkillAt draws c idx targets w = Ok tt w' /\
    lands H b w w' (H * Z.of_nat (length targets) - weight H b).
Proof.
  intros Hr Hc H0 Hs Hmp Hts.
  rewrite (UseSkillAt_paid draws w c idx targets me s Hc H0 Hs Hmp).
  pose proof (ready_lookup _ _ _ _ _ Hr Hc) as Hf.
  assert (1 <= Skill.MPCost s /\ Skill.HealHP s <= H) as [Hcost Hheal].
  { destruct Hf as (_ & _ & _ & Hsk & _). rewrite Forall_forall in Hsk. apply Hsk.
    by eapply list_elem_of_lookup_2. }
  destruct (UseMP_fit me (Skill.MPCost s) Hf ltac:(lia)) as (Hf' & Hteam & Hv & Hmp').
  set (w1 := mkWorld _ _ _).
  pose proof (weight_pos b) as HW.
  assert (lands H b w w1 (- weight H b)) as HL1.
  { apply (lands_write b w c me); try done. unfold stamina1. rewrite Hv, Hmp'. nia. }
  assert (exists w2,
    (if GoFloat.ltb GoFloat.zero (Skill.DamageMultiplier s)
     then damage_loop draws c s targets else mret tt) w1 = Ok tt w2 /\ lands H b w1 w2 0)
    as (w2 & Hd & HL2).
  { destruct (GoFloat.ltb _ _).
    - apply damage_loop_paid; [apply HL1| |].
      + eapply lands_valid; [exact HL1|eauto].
      + eapply lands_targets; [exact HL1|done].
    - exists w1. split; [done|]. apply lands_refl, HL1. }
  rewrite (bind_ok _ _ _ _ _ Hd).
  pose proof (lands_trans _ _ _ _ _ _ HL1 HL2) as HL12.
  destruct (Z.ltb_spec 0 (Skill.HealHP s)).
  - destruct (heal_loop_paid b c s targets w2) as (w3 & Hh & HL3); [lia|apply HL2| | |].
    + eapply lands_valid; [exact HL12|eauto].
    + eapply lands_targets; [exact HL12|done].
    + exists w3. split; [done|].
      eapply lands_weaken; [|eapply lands_trans; [exact HL12|exact HL3]]. lia.
  - exists w2. split; [done|]. eapply lands_weaken; [|exact HL12]. nia.
Qed.

Lemma any_alive_find h l :
  any_alive h l = true ->
  exists t tc, find (alive_at h) l = Some t /\ h !! t = Some tc /\ Character.Alive tc = true.
Proof.
  intros Hal. destruct (find (alive_at h) l) as [t|] eqn:Hf.
  - destruct (find_alive_Some _ _ _ Hf) as (tc & Htc & Ha). eauto.
  - apply find_alive_None in Hf. congruence.
Qed.

Lemma try_skill_paid b w actor a targets :
  ready H b (heap w) -> heap w !! actor = Some a ->
  Forall (fun p => is_Some (heap w !! p)) targets ->
  any_alive (heap w) targets = true ->
  (length targets <= length (Battle.Players b) + length (Battle.Enemies b))%nat ->
  exists used w',
    try_skill draws actor targets w = Ok used w' /\
    if (used : bool) then lands H b w w' (-1) else heap w' = heap w.
Proof.
  intros Hr Ha Hvt Hal Hlen. unfold try_skill.
  rewrite (bind_ok _ _ _ _ _ (deref_ok _ _ _ Ha)).
  destruct (Z.ltb_spec 0 (Z.of_nat (length (Character.Skills a)))) as [Hsk|Hsk]; cbn [negb].
  2:{ by exists false, w. }
  erewrite bind_ok; [|reflexivity].
  destruct (GoFloat.ltb _ GoFloat.half); cbn [negb].
  2:{ eexists false, _. split; [reflexivity|done]. }
  match goal with |- context [(rand_Intn draws ?n ≫= _) ?w0] =>
    set (w1 := w0); rewrite (bind_ok _ _ _ _ _ (rand_Intn_ok draws n w1 Hsk));
    pose proof (Z.mod_pos_bound (draws (rand_pos w1)) n Hsk) as Hidx;
    set (skillIdx := draws (rand_pos w1) mod n) in *
  end.
  destruct (Character.Skills a !! Z.to_nat skillIdx) as [s|] eqn:Hs.
  2:{ apply lookup_ge_None in Hs. lia. }
  destruct (Z.ltb_spec (Character.MP a) (Skill.MPCost s)).
  { eexists false, _. split; [reflexivity|done]. }
  match goal with |- context [(chooseFirstAlive targets ≫= _) ?w0] => set (w2 := w0) end.
  assert (heap w2 = heap w) as Hh2 by done.
  clearbody w2.
  assert (ready H b (heap w2)) as Hr2 by (by rewrite Hh2).
  rewrite (bind_ok _ _ _ _ _ (chooseFirstAlive_run targets w2 ltac:(by rewrite Hh2))).
  rewrite Hh2.
  destruct (any_alive_find _ _ Hal) as (t & tc & -> & Htc & _).
  set (targ := skill_targets actor a s (Some t) targets).
  assert (targets_valid (heap w2) targ /\
          (length targ <= length (Battle.Players b) + length (Battle.Enemies b) + 1)%nat)
    as [Hvalid Hlt].
  { subst targ. unfold skill_targets, targets_valid. rewrite Hh2.
    destruct (Skill.TargetAll s).
    - split; [|rewrite length_map; lia].
      apply Forall_forall. intros x Hx. apply list_elem_of_In, in_map_iff in Hx as (p & <- & Hp).
      exists p. split; [done|]. rewrite Forall_forall in Hvt. by apply Hvt, list_elem_of_In.
    - destruct (_ || _); (split; [|cbn; lia]); repeat constructor; eexists; eauto. }
  destruct (UseSkillAt_paid_run b w2 actor skillIdx targ a s) as (w3 & Hcast & HL3);
    try done; try lia.
  { by rewrite Hh2. }
  rewrite (bind_ok _ _ _ _ _ Hcast).
  exists true, w3. split; [done|].
  destruct HL3 as (Hr3 & Hl3 & Hs3). rewrite Hh2 in Hl3, Hs3.
  split; [done|]. split; [done|]. unfold weight in *. nia.
Qed.

Lemma any_alive_insert_other (h : list Character.t) actor c l :
  Forall (fun p => p <> actor) l -> any_alive (<[actor := c]> h) l = any_alive h l.
Proof.
  unfold any_alive. induction 1 as [|p l Hp _ IH]; cbn [existsb]; [done|].
  rewrite IH. f_equal. unfold alive_at. by rewrite list_lookup_insert_ne.
Qed.

(** The other side of an actor's team does not contain the actor. *)
Lemma targets_other b h actor a :
  ready H b h -> h !! actor = Some a ->
  let targets := if String.eqb (Character.Team a) "player"
                 then Battle.Enemies b else Battle.Players b in
  Forall (fun p => p <> actor) targets /\ Forall (fun p => is_Some (h !! p)) targets /\
  (length targets <= length (Battle.Players b) + length (Battle.Enemies b))%nat.
Proof.
  intros (_ & Hp & He) Ha. cbv zeta.
  destruct (String.eqb (Character.Team a) "player") eqn:Ht.
  - split; [|split; [|lia]].
    + eapply Forall_impl; [exact He|]. intros p (c & Hc & Hteam) ->. congruence.
    + eapply Forall_impl; [exact He|]. intros p (c & Hc & _). eauto.
  - split; [|split; [|lia]].
    + eapply Forall_impl; [exact Hp|]. intros p (c & Hc & Hteam) ->. congruence.
    + eapply Forall_impl; [exact Hp|]. intros p (c & Hc & _). eauto.
Qed.

(** The turn of a living actor while both rosters still stand: it returns,
    and the stamina of the heap went down. *)
Lemma actor_turn_paid b w actor a :
  ready H b (heap w) ->
  heap w !! actor = Some a -> Character.Alive a = true ->
  any_alive (heap w) (Battle.Players b) = true ->
  any_alive (heap w) (Battle.Enemies b) = true ->
  exists w',
    actor_turn draws b actor w =
      Ok (negb (any_alive (heap w') (Battle.Players b))
          || negb (any_alive (heap w') (Battle.Enemies b))) w' /\
    lands H b w w' (-1).
Proof.
  intros Hr Ha Hal Hpl Hen. unfold actor_turn.
  rewrite (bind_ok _ _ _ _ _ (deref_ok _ _ _ Ha)).
  erewrite bind_ok; [|reflexivity].
  erewrite bind_ok; [|by apply call_ok]. cbn [heap rand_pos out].
  pose proof (ready_lookup _ _ _ _ _ Hr Ha) as Hfa.
  destruct (StartTurn_fit a Hfa) as (Hf1 & Hteam1 & Hmp1 & Hle1 & Hcase).
  set (a1 := fst (Character.ApplyEffectsStartTurn a)) in *.
  match goal with |- context [(try_skill _ _ _ ≫= _) ?w0] => set (w1 := w0) end.
  assert (lands H b w w1 0) as HL1.
  { apply (lands_write b w actor a); try done. unfold stamina1. rewrite Hmp1. lia. }
  assert (Character.Alive a1 = false -> lands H b w w1 (-1)) as HL1'.
  { intros Hd. destruct Hcase as [Heq|Hlt]; [congruence|]. specialize (Hlt Hal).
    apply (lands_write b w actor a); try done. unfold stamina1. rewrite Hmp1. lia. }
  assert (heap w1 !! actor = Some a1) as Ha1.
  { subst w1. cbn [heap]. apply list_lookup_insert_eq. by eapply lookup_lt_Some. }
  destruct (targets_other b (heap w) actor a Hr Ha) as (Hother & Hvt & Hlen).
  set (targets := if String.eqb (Character.Team a) "player"
                  then Battle.Enemies b else Battle.Players b) in *.
  assert (any_alive (heap w1) targets = true) as Halt.
  { subst w1. cbn [heap]. rewrite any_alive_insert_other by done.
    subst targets. by destruct (String.eqb _ _). }
  assert (Forall (fun p => is_Some (heap w1 !! p)) targets) as Hvt1.
  { eapply Forall_impl; [exact Hvt|]. cbn beta. intros p. by apply (lands_valid _ _ _ _ _ HL1). }
  destruct (try_skill_paid b w1 actor a1 targets) as (used & w2 & Htry & Hused);
    [apply HL1|done..|].
  rewrite (bind_ok _ _ _ _ _ Htry).
  assert (exists w3,
    (if used then mret tt
     else target ← chooseFirstAlive targets;
          match target with
          | Some t => BasicAttack draws actor t
          | None => mret tt
          end) w2 = Ok tt w3 /\ lands H b w w3 (-1)) as (w3 & Hact & HL3).
  { destruct used.
    - exists w2. split; [done|]. eapply lands_weaken; [|eapply lands_trans; [exact HL1|exact Hused]].
      lia.
    - assert (ready H b (heap w2)) as Hr2 by (rewrite Hused; apply HL1).
      rewrite (bind_ok _ _ _ _ _ (chooseFirstAlive_run targets w2 ltac:(by rewrite Hused))).
      rewrite Hused. destruct (any_alive_find _ _ Halt) as (t & tc & -> & Htc & Htal).
      destruct (BasicAttack_paid b w2 actor t a1 tc Hr2) as (w3 & HB & HL3 & HL3');
        [by rewrite Hused..|].
      exists w3. split; [done|].
      assert (lands H b w w2 0) as HL2.
      { destruct HL1 as (? & ? & ?). split; [done|]. rewrite Hused. done. }
      destruct (Character.Alive a1) eqn:Hal1.
      + eapply lands_weaken; [|eapply lands_trans; [exact HL2|exact (HL3' eq_refl Htal)]]. lia.
      + assert (lands H b w w2 (-1)) as HL2'.
        { destruct (HL1' eq_refl) as (? & ? & ?). split; [done|]. rewrite Hused. done. }
        eapply lands_weaken; [|eapply lands_trans; [exact HL2'|exact HL3]]. lia. }
  rewrite (bind_ok _ _ _ _ _ Hact).
  destruct (lands_valid _ _ _ _ actor HL3 ltac:(eauto)) as [a3 Ha3].
  erewrite bind_ok; [|by apply call_ok].
  match goal with |- context [battle_over b ?w0] => set (w4 := w0) end.
  assert (lands H b w3 w4 0) as HL4.
  { pose proof (ready_lookup _ _ _ _ _ (proj1 HL3) Ha3) as Hf3.
    subst w4. rewrite ApplyEffectsEndTurn_effects.
    apply (lands_write b w3 actor a3); [apply HL3|done|exact Hf3|done|].
    change (stamina1 (weight H b) a3 <= stamina1 (weight H b) a3 + 0). lia. }
  exists w4. split.
  - apply battle_over_run. eapply ready_valid, HL4.
  - eapply lands_weaken; [|eapply lands_trans; [exact HL3|exact HL4]]. lia.
Qed.

Lemma turn_loop_paid b all : forall w,
  ready H b (heap w) -> Forall (fun p => is_Some (heap w !! p)) all ->
  any_alive (heap w) (Battle.Players b) = true ->
  any_alive (heap w) (Battle.Enemies b) = true ->
  exists w',
    turn_loop draws b all w = Ok tt w' /\ lands H b w w' 0 /\
    (any_alive (heap w) all = true -> lands H b w w' (-1)).
Proof.
  induction all as [|actor rest IH]; intros w Hr Hall Hpl Hen; cbn [turn_loop].
  - exists w. split; [done|]. split; [by apply lands_refl|done].
  - apply Forall_cons in Hall as [[a Ha] Hall].
    rewrite (bind_ok _ _ _ _ _ (deref_ok _ _ _ Ha)).
    assert (any_alive (heap w) (actor :: rest)
            = Character.Alive a || any_alive (heap w) rest) as ->.
    { unfold any_alive. cbn [existsb]. unfold alive_at at 1. by rewrite Ha. }
    destruct (Character.Alive a) eqn:Hal; cbn [negb orb].
    + destruct (actor_turn_paid b w actor a Hr Ha Hal Hpl Hen) as (w1 & HT & HL1).
      rewrite (bind_ok _ _ _ _ _ HT).
      assert (lands H b w w1 0) as HL1' by (eapply lands_weaken; [|exact HL1]; lia).
      destruct (any_alive (heap w1) (Battle.Players b)) eqn:Hpl1; cbn [negb orb].
      2:{ by exists w1. }
      destruct (any_alive (heap w1) (Battle.Enemies b)) eqn:Hen1; cbn [negb].
      2:{ by exists w1. }
      destruct (IH w1) as (w2 & HL & HL2 & _); [apply HL1| |done..|].
      { eapply Forall_impl; [exact Hall|]. cbn beta. intros p.
        by apply (lands_valid _ _ _ _ _ HL1). }
      exists w2. split; [done|].
      pose proof (lands_trans _ _ _ _ _ _ HL1 HL2) as HL12. split; [|done].
      eapply lands_weaken; [|exact HL12]. lia.
    + apply (IH w Hr Hall Hpl Hen).
Qed.

(** A round played while both rosters stand returns, with less stamina. *)
Lemma Turn_paid b w :
  ready H b (heap w) ->
  any_alive (heap w) (Battle.Players b) = true ->
  any_alive (heap w) (Battle.Enemies b) = true ->
  exists w',
    Turn draws sort_Slice b w = Ok (Battle.with_Round (GoInt.add (Battle.Round b) 1) b) w' /\
    lands H b w w' (-1).
Proof.
  intros Hr Hpl Hen. unfold Turn.
  set (b1 := Battle.with_Round _ b).
  erewrite bind_ok; [|reflexivity].
  match goal with |- context [(turn_order _ _ ≫= _) ?w0] => set (w1 := w0) end.
  assert (ready H b1 (heap w1)) as Hr1 by done.
  pose proof (ready_valid _ _ _ Hr1) as Hv1.
  assert (turn_order sort_Slice b1 w1 =
          Ok (sort_Slice (faster (heap w1)) (Battle.Players b1 ++ Battle.Enemies b1)) w1)
    as Hord.
  { unfold turn_order, snapshot, mbind, M_bind.
    replace (forallb _ _) with true; [done|]. symmetry. apply forallb_forall.
    intros p Hp. apply bool_decide_eq_true.
    unfold rosters_valid in Hv1. rewrite Forall_forall in Hv1. apply Hv1.
    by apply list_elem_of_In. }
  rewrite (bind_ok _ _ _ _ _ Hord).
  set (order := sort_Slice _ _).
  assert (Permutation (Battle.Players b1 ++ Battle.Enemies b1) order) as Hperm
    by apply (sorts_perm _ sort_ok).
  destruct (turn_loop_paid b1 order w1 Hr1) as (w2 & HL & _ & Hlt); try done.
  { apply Forall_forall. intros p Hp.
    unfold rosters_valid in Hv1. rewrite Forall_forall in Hv1. apply Hv1.
    apply list_elem_of_In. eapply Permutation_in; [apply Permutation_sym, Hperm|].
    by apply list_elem_of_In. }
  rewrite (bind_ok _ _ _ _ _ HL). exists w2. split; [done|].
  apply Hlt. eapply any_alive_perm; [exact Hperm|]. by apply any_alive_app_l.
Qed.

Lemma run_loop_paid fuel : forall b w,
  ready H b (heap w) -> stamina (weight H b) (heap w) <= Z.of_nat fuel ->
  exists b' w',
    run_loop draws sort_Slice fuel b w = Ok b' w' /\ ready H b' (heap w') /\
    Battle.Players b' = Battle.Players b /\ Battle.Enemies b' = Battle.Enemies b.
Proof.
  induction fuel as [|fuel IH]; intros b w Hr Hs; cbn [run_loop];
    rewrite (bind_ok _ _ _ _ _ (battle_over_run b w (ready_valid _ _ _ Hr)));
    destruct (any_alive (heap w) (Battle.Players b)) eqn:Hpl; cbn [negb orb];
    try (by exists b, w);
    destruct (any_alive (heap w) (Battle.Enemies b)) eqn:Hen; cbn [negb];
    try (by exists b, w).
  - pose proof (stamina_alive H (weight H b) _ _ ltac:(pose proof (weight_pos b); lia)
                  (proj1 Hr) Hpl). lia.
  - destruct (Turn_paid b w Hr Hpl Hen) as (w1 & HT & Hr1 & _ & Hs1).
    rewrite (bind_ok _ _ _ _ _ HT).
    destruct (IH (Battle.with_Round (GoInt.add (Battle.Round b) 1) b) w1) as (b' & w' & ?);
      [done| |by exists b', w'].
    change (weight H (Battle.with_Round (GoInt.add (Battle.Round b) 1) b)) with (weight H b).
    lia.
Qed.

Lemma Run_paid fuel b w :
  ready H b (heap w) -> stamina (weight H b) (heap w) <= Z.of_nat fuel ->
  exists b' w',
    Run draws sort_Slice fuel b w = Ok b' w' /\ ready H b' (heap w') /\
    Battle.Players b' = Battle.Players b /\ Battle.Enemies b' = Battle.Enemies b.
Proof.
  intros Hr Hs. destruct (run_loop_paid fuel b w Hr Hs) as (b' & w1 & HL & Hr1 & Hp & He).
  unfold Run. rewrite (bind_ok _ _ _ _ _ HL).
  pose proof (ready_valid _ _ _ Hr1) as Hv. apply rosters_valid_split in Hv as [_ Hve].
  unfold AllDead. change (String.eqb "enemy" "player") with false. cbv iota.
  rewrite (bind_ok _ _ _ _ _ (all_dead_loop_run _ _ Hve)).
  destruct (negb _); eexists _, _; (split; [reflexivity|]); done.
Qed.
End PaidSkills.

(** X19. A battle in which every skill costs at least 1 MP ends, whatever the
    random source gives: when every character has hit points within
    [0, maxHP] and MP at least 0, no skill heals more than [H], every weapon
    gives [rand.Intn] a positive bound, the players are on team ["player"]
    and the enemies are not, [Run] returns without a panic after at most as
    many rounds as the stamina of the heap, the vitality plus the MP weighted
    by [H * (players + enemies + 1) + 1].  At the end the characters still have
    hit points within [0, maxHP] and MP at least 0. *)

Theorem X19_paid_skills_terminate draws sort_Slice H b w fuel :
  sorts sort_Slice -> 0 <= H ->
  ready H b (heap w) ->
  stamina (weight H b) (heap w) <= Z.of_nat fuel ->
  exists b' w',
    Run draws sort_Slice fuel b w = Ok b' w' /\ ready H b' (heap w') /\
    Battle.Players b' = Battle.Players b /\ Battle.Enemies b' = Battle.Enemies b.
Proof. intros Hsort HH Hr Hs. by apply Run_paid. Qed.

(** The cleric, whose healing costs 8 MP, against the guard. *)

Lemma X19_witness :
  exists b' w',
    Run Scenario.zeros Sorters.insertionSort (Z.to_nat 2797) Scenario.spar Arena.clinic_world
    = Ok b' w'.
Proof.
  destruct (X19_paid_skills_terminate Scenario.zeros Sorters.insertionSort 18 Scenario.spar
              Arena.clinic_world (Z.to_nat 2797) insertionSort_sorts ltac:(lia))
    as (b' & w' & HR & _).
  - split; [|split].
    + repeat constructor; vm_compute; try done; try discriminate; split; discriminate.
    + repeat constructor. eexists. split; reflexivity.
    + repeat constructor. eexists. split; reflexivity.
  - vm_compute. discriminate.
  - by exists b', w'.
Defined.


(** ** The battle of the program *)

(** X20. [setupBattle] draws no random number and logs nothing; it builds the
    hero and the cleric against two goblins and the orc, at full hit points
    and MP, the hero's maxHP raised to 65 by the armor.  The battle it sets
    up ends for every random source and every sorting routine that meets the
    contract: [Run] returns, without a panic, within 10000 rounds. *)

Theorem X20_setupBattle_terminates draws sort_Slice pos o :
  sorts sort_Slice ->
  exists b w,
    setupBattle (mkWorld [] pos o) = Ok b w /\
    rand_pos w = pos /\ out w = o /\
    b = Battle.mk [0; 1]%nat [2; 3; 4]%nat 0 /\
    Character.HP <$> heap w = [65; 45; 20; 20; 35] /\
    Character.HPMax <$> heap w = [65; 45; 20; 20; 35] /\
    Character.MP <$> heap w = [30; 50; 5; 5; 0] /\
    forall fuel, 10000 <= Z.of_nat fuel ->
      exists b' w', Run draws sort_Slice fuel b w = Ok b' w'.
Proof.
  intros Hsort. eexists _, _. split; [vm_compute; reflexivity|].
  repeat (split; [reflexivity|]).
  intros fuel Hfuel.
  match goal with |- exists b' w', Run _ _ _ ?b ?w = _ =>
    destruct (Run_paid 18 ltac:(lia) draws sort_Slice Hsort fuel b w) as (b' & w' & HR & _)
  end.
  - split; [|split].
    + repeat constructor; vm_compute; try done; try discriminate; split; discriminate.
    + repeat constructor; eexists; split; reflexivity.
    + repeat constructor; eexists; split; reflexivity.
  - etransitivity; [|exact Hfuel]. vm_compute. discriminate.
  - by exists b', w'.
Qed.

(** The battle of the program with the random source that always gives 0. *)

Lemma X20_witness :
  exists b w,
    setupBattle (mkWorld [] 0 []) = Ok b w /\
    exists b' w', Run Scenario.zeros Sorters.insertionSort (Z.to_nat 10000) b w = Ok b' w'.
Proof.
  destruct (X20_setupBattle_terminates Scenario.zeros Sorters.insertionSort 0%nat []
              insertionSort_sorts) as (b & w & Hs & _ & _ & _ & _ & _ & _ & Hrun).
  exists b, w. split; [exact Hs|]. apply Hrun. lia.
Defined.
